(** * Authoritative game server: world state, command handlers, tick loop

    A shallow embedding of [src/server/gameServer.ts], of the state
    updates of the client hook [useMultiplayer] that consumes the server's
    messages, and of the map loader [src/utils/mapLoader.ts].

    Numbers.  The server computes with JavaScript numbers, IEEE 754
    binary64.  Every number is a rational here ([Q]); a double is the
    rational it denotes.  The values the server stores (health, timers,
    positions) are computed with exact arithmetic.  The distances the
    server compares against a bound -- [Math.sqrt(dx * dx + dz * dz)] in
    the move handler, the ring loop, the projectile loop and the fire loop
    -- and the conversions of the map loader are computed as the source
    computes them, every operation rounded to the nearest double, ties to
    even ([F64]): near the bound the rounded distance and the Euclidean
    one are on different sides of it.

    The player table.  [gameState.players] is a JavaScript [Map], which
    iterates in insertion order and keeps the slot of a key that is set
    again; the tick loop depends on that order (first player hit wins), so
    the table is an association list.

    Effects.  [Date.now()] and [Math.random()] are inputs of the handlers
    that call them.  Every handler returns the new state together with the
    list of messages it emitted, in emission order. *)

From Stdlib Require Import QArith Qminmax Qround Qabs Qpower ZArith List String Ascii Bool.
From Stdlib Require Import Lia Lqa.
From Stdlib Require Import DecimalString DecimalZ.
Import ListNotations.

Local Open Scope Q_scope.

(** ** Numbers *)

Definition Qlt_bool (a b : Q) : bool := negb (Qle_bool b a).

(** [dx * dx + dz * dz], exactly: the square of the Euclidean distance. *)
Definition sq2 (dx dz : Q) : Q := dx * dx + dz * dz.

(** *** Binary64 arithmetic

    [round q] is the double nearest to the rational [q], ties to even: the
    53-bit significand [nearest (q / 2 ^ e)] at the exponent [e] of [q]'s
    binade, which is never below that of the subnormal numbers.  [add],
    [sub], [mul] and [div] are the exact operation followed by [round],
    [sqrt] is the correctly rounded square root, as IEEE 754 prescribes for
    the JavaScript operators and [Math.sqrt].

    A result of magnitude [2 ^ 1024] or more overflows; [inf] stands for
    [Infinity]: it is above every double, and sums, products and square
    roots of [inf] and non-negative numbers are [inf] again.  From finite
    coordinates the distance computations never produce a [NaN]; [NaN] and
    the sign of zero are not modelled. *)

Module F64.
Definition pow2 (e : Z) : Q := 2 ^ e.

(** [floor (log2 q)], for [0 < q]. *)
Definition ilog2 (q : Q) : Z :=
  let k := (Z.log2 (Qnum q) - Z.log2 (Zpos (Qden q)))%Z in
  if Qle_bool (pow2 k) q then k else (k - 1)%Z.

(** The integer nearest to [q], ties to even, for [0 <= q]. *)
Definition nearest (q : Q) : Z :=
  let n := Qnum q in
  let d := Zpos (Qden q) in
  let m := (n / d)%Z in
  match (2 * (n mod d) ?= d)%Z with
  | Lt => m
  | Gt => (m + 1)%Z
  | Eq => if Z.even m then m else (m + 1)%Z
  end.

(** The exponent of the smallest subnormal number, [2 ^ -1074]. *)
Definition emin : Z := -1074.

Definition inf : Q := pow2 1024.

Definition round_pos (q : Q) : Q :=
  let e := Z.max (ilog2 q - 52) emin in
  Qmin (inject_Z (nearest (q / pow2 e)) * pow2 e) inf.

Definition round (q : Q) : Q :=
  match Qnum q with
  | Z0 => 0
  | Zpos _ => round_pos q
  | Zneg _ => - round_pos (- q)
  end.

Definition add (a b : Q) : Q := round (a + b).
Definition sub (a b : Q) : Q := round (a - b).
Definition mul (a b : Q) : Q := round (a * b).
Definition div (a b : Q) : Q := round (a / b).

(** [Math.sqrt(q)] for [0 <= q]: with [s] the integer part of the root
    scaled to 53 bits, the result is [s] or [s + 1] according to the side of
    [(s + 1/2) ^ 2] the scaled argument lies on. *)
Definition sqrt (q : Q) : Q :=
  if Qle_bool q 0 then 0
  else if Qle_bool inf q then inf
  else
    let e := Z.max (ilog2 q / 2 - 52) emin in
    let a := q / pow2 (2 * e) in
    let s := Z.sqrt (Qfloor a) in
    let m := match a ?= inject_Z ((2 * s + 1) * (2 * s + 1)) / 4 with
             | Lt => s
             | Gt => (s + 1)%Z
             | Eq => if Z.even s then s else (s + 1)%Z
             end in
    inject_Z m * pow2 e.
End F64.

(** [Math.sqrt(dx * dx + dz * dz)] *)
Definition dist (dx dz : Q) : Q := F64.sqrt (F64.add (F64.mul dx dx) (F64.mul dz dz)).

(** Decimal rendering of an integer inside a template string. *)
Definition dec (n : Z) : string := NilEmpty.string_of_int (Z.to_int n).

(** ** Data model *)

Module Player.
Record t := mk
  { id : string; x : Q; z : Q; angle : Q; health : Q;
    flashlightOn : bool; name : string }.
Definition with_health (h : Q) (p : t) : t :=
  mk (id p) (x p) (z p) (angle p) h (flashlightOn p) (name p).
Definition with_flashlightOn (b : bool) (p : t) : t :=
  mk (id p) (x p) (z p) (angle p) (health p) b (name p).
End Player.

Module Projectile.
Record t := mk
  { id : string; ownerId : string; x : Q; z : Q; vx : Q; vz : Q; damage : Q }.
End Projectile.

Module FireZone.
Record t := mk
  { id : string; x : Q; z : Q; radius : Q; timeLeft : Q }.
End FireZone.

Definition PlayerMap := list (string * Player.t).

Record GameState := mkGameState
  { players : PlayerMap;
    projectiles : list Projectile.t;
    fireZones : list FireZone.t;
    ringRadius : Q;
    ringTimer : Q;
    gameStarted : bool }.

Definition gameState0 : GameState :=
  {| players := []; projectiles := []; fireZones := [];
     ringRadius := 80; ringTimer := 7 * 60; gameStarted := false |}.

Definition with_players (ps : PlayerMap) (g : GameState) : GameState :=
  mkGameState ps (projectiles g) (fireZones g) (ringRadius g) (ringTimer g) (gameStarted g).

(** *** The [Map] operations the server uses *)

Fixpoint players_get (k : string) (m : PlayerMap) : option Player.t :=
  match m with
  | [] => None
  | (k', p) :: m' => if String.eqb k k' then Some p else players_get k m'
  end.

Fixpoint players_set (k : string) (p : Player.t) (m : PlayerMap) : PlayerMap :=
  match m with
  | [] => [(k, p)]
  | (k', p') :: m' =>
      if String.eqb k k' then (k', p) :: m' else (k', p') :: players_set k p m'
  end.

Definition players_delete (k : string) (m : PlayerMap) : PlayerMap :=
  filter (fun kp => negb (String.eqb k (fst kp))) m.

Definition players_values (m : PlayerMap) : list Player.t := map snd m.

(** ** Static geometry *)

Record Point := mkPoint { px : Q; pz : Q }.

Definition spawnPoints : list Point :=
  [ mkPoint (-33) (-31); mkPoint (-27) (-31); mkPoint (-21) (-31);
    mkPoint (-(63 # 10)) (-11); mkPoint (-(61 # 10)) 15; mkPoint 10 5;
    mkPoint 20 (-15); mkPoint (-15) 20 ].

Record Wall := mkWall { wx : Q; wz : Q; width : Q; depth : Q }.

Definition walls : list Wall :=
  [ mkWall (-70) 0 1 80; mkWall 70 0 1 80; mkWall 0 (-40) 140 1; mkWall 0 40 140 1 ].

(** [spawnPoints\[Math.floor(r * spawnPoints.length)\]], with [r] the value
    returned by [Math.random()], which lies in [0, 1).  Outside that range
    the JavaScript lookup yields [undefined]; the default below stands for
    it and is never reached under the contract of [Math.random]. *)
Definition getRandomSpawn (r : Q) : Point :=
  nth (Z.to_nat (Qfloor (r * inject_Z (Z.of_nat (List.length spawnPoints)))))
      spawnPoints (mkPoint 0 0).

Definition insideWall (x z : Q) (w : Wall) : bool :=
  let halfWidth := width w / 2 in
  let halfDepth := depth w / 2 in
  Qle_bool (wx w - halfWidth - (1 # 2)) x &&
  Qle_bool x (wx w + halfWidth + (1 # 2)) &&
  Qle_bool (wz w - halfDepth - (1 # 2)) z &&
  Qle_bool z (wz w + halfDepth + (1 # 2)).

Definition checkWallCollision (x z : Q) : bool := existsb (insideWall x z) walls.

(** ** Outbound messages *)

Module Event.
Inductive t :=
| init (playerId : string) (players : list Player.t)
       (projectiles : list Projectile.t) (fireZones : list FireZone.t)
       (ringRadius ringTimer : Q)
| playerJoined (p : Player.t)
| playerMoved (id : string) (x z angle : Q)
| projectilesFired (ownerId : string) (projectiles : list Projectile.t)
| fireCreated (f : FireZone.t)
| flashlightToggled (id : string) (on : bool)
| playerDamaged (id : string) (health : Q) (fromPlayerId : option string)
| playerDied (id : string) (killedBy : option string)
| playerRespawned (id : string) (x z health : Q)
| chatMessage (playerId playerName message : string)
| playerLeft (id : string)
| ringDamage (health : Q)
| ringUpdate (radius timer : Q)
| playerHit (playerId : string) (health : Q) (projectileId fromPlayerId : string)
| projectilesRemoved (ids : list string)
| fireDamage (health : Q)
| fireZonesRemoved (ids : list string).
End Event.

(** Who receives a message: [io.emit], [socket.broadcast.emit],
    [socket.emit] and [io.to(id).emit]. *)
Inductive Dest :=
| ToAll
| ToOthers (sender : string)
| ToSender (sender : string)
| ToRoom (id : string).

Definition Msg : Type := Dest * Event.t.

(** ** Command handlers

    One function per [socket.on] callback of the connection handler; [sid]
    is [socket.id]. *)

Module Shot.
Record t := mk { x : Q; z : Q; vx : Q; vz : Q; damage : Q }.
End Shot.

Inductive Command :=
| move (x z angle : Q)
| shoot (shots : list Shot.t)
| molotov (x z radius : Q)
| toggleFlashlight (on : bool)
| takeDamage (amount : Q) (fromPlayerId : option string)
| respawn
| chat (message : string)
| disconnect.

Local Open Scope string_scope.

Definition on_connection (sid : string) (rSpawn rName : Q) (g : GameState)
  : GameState * list Msg :=
  let spawn := getRandomSpawn rSpawn in
  let newPlayer :=
    Player.mk sid (px spawn) (pz spawn) 0 100 true
              ("Player" ++ dec (Qfloor (rName * 1000))) in
  let ps := players_set sid newPlayer (players g) in
  let started :=
    if negb (gameStarted g) && (1 <=? List.length ps)%nat then true
    else gameStarted g in
  let g' := mkGameState ps (projectiles g) (fireZones g)
                        (ringRadius g) (ringTimer g) started in
  (g', [ (ToSender sid,
          Event.init sid (players_values ps) (projectiles g') (fireZones g')
                     (ringRadius g') (ringTimer g'));
         (ToOthers sid, Event.playerJoined newPlayer) ]).

Definition on_move (sid : string) (x z angle : Q) (g : GameState)
  : GameState * list Msg :=
  match players_get sid (players g) with
  | Some player =>
      let dx := F64.sub x (Player.x player) in
      let dz := F64.sub z (Player.z player) in
      if Qlt_bool (dist dx dz) 2 then
        let player' :=
          Player.mk (Player.id player) x z angle (Player.health player)
                    (Player.flashlightOn player) (Player.name player) in
        (with_players (players_set sid player' (players g)) g,
         [ (ToOthers sid, Event.playerMoved sid x z angle) ])
      else (g, [])
  | None => (g, [])
  end.

(** [data.projectiles.map((p, i) => ...)], from index [i] on.  The callback
    calls [Date.now()] once per projectile; [now i] is the value read for
    the projectile of index [i]. *)
Fixpoint stamp (sid : string) (now : nat -> Z) (i : nat) (shots : list Shot.t)
  : list Projectile.t :=
  match shots with
  | [] => []
  | p :: rest =>
      Projectile.mk (sid ++ "-" ++ dec (now i) ++ "-" ++ dec (Z.of_nat i)) sid
                    (Shot.x p) (Shot.z p) (Shot.vx p) (Shot.vz p) (Shot.damage p)
      :: stamp sid now (S i) rest
  end.

Definition on_shoot (sid : string) (now : nat -> Z) (shots : list Shot.t) (g : GameState)
  : GameState * list Msg :=
  match players_get sid (players g) with
  | None => (g, [])
  | Some player =>
      if Qle_bool (Player.health player) 0 then (g, [])
      else
        let newProjectiles := stamp sid now 0 shots in
        (mkGameState (players g) (projectiles g ++ newProjectiles)%list (fireZones g)
                     (ringRadius g) (ringTimer g) (gameStarted g),
         [ (ToAll, Event.projectilesFired sid newProjectiles) ])
  end.

Definition on_molotov (sid : string) (now : Z) (x z radius : Q) (g : GameState)
  : GameState * list Msg :=
  match players_get sid (players g) with
  | None => (g, [])
  | Some player =>
      if Qle_bool (Player.health player) 0 then (g, [])
      else
        let fireZone := FireZone.mk ("fire-" ++ sid ++ "-" ++ dec now) x z radius 5000 in
        (mkGameState (players g) (projectiles g) (fireZones g ++ [fireZone])%list
                     (ringRadius g) (ringTimer g) (gameStarted g),
         [ (ToAll, Event.fireCreated fireZone) ])
  end.

Definition on_toggleFlashlight (sid : string) (on : bool) (g : GameState)
  : GameState * list Msg :=
  match players_get sid (players g) with
  | Some player =>
      (with_players (players_set sid (Player.with_flashlightOn on player) (players g)) g,
       [ (ToOthers sid, Event.flashlightToggled sid on) ])
  | None => (g, [])
  end.

Definition on_takeDamage (sid : string) (amount : Q) (fromPlayerId : option string)
  (g : GameState) : GameState * list Msg :=
  match players_get sid (players g) with
  | Some player =>
      if Qlt_bool 0 (Player.health player) then
        let h := Qmax 0 (Player.health player - amount) in
        (with_players (players_set sid (Player.with_health h player) (players g)) g,
         ((ToAll, Event.playerDamaged sid h fromPlayerId)
          :: if Qle_bool h 0 then [ (ToAll, Event.playerDied sid fromPlayerId) ] else [])%list)
      else (g, [])
  | None => (g, [])
  end.

Definition on_respawn (sid : string) (rSpawn : Q) (g : GameState)
  : GameState * list Msg :=
  match players_get sid (players g) with
  | Some player =>
      if Qle_bool (Player.health player) 0 then
        let spawn := getRandomSpawn rSpawn in
        let player' :=
          Player.mk (Player.id player) (px spawn) (pz spawn) 0 100
                    (Player.flashlightOn player) (Player.name player) in
        (with_players (players_set sid player' (players g)) g,
         [ (ToAll, Event.playerRespawned sid (px spawn) (pz spawn) 100) ])
      else (g, [])
  | None => (g, [])
  end.

Definition on_chat (sid : string) (message : string) (g : GameState)
  : GameState * list Msg :=
  match players_get sid (players g) with
  | Some player =>
      (g, [ (ToAll, Event.chatMessage sid (Player.name player) (substring 0 200 message)) ])
  | None => (g, [])
  end.

Definition on_disconnect (sid : string) (g : GameState) : GameState * list Msg :=
  (with_players (players_delete sid (players g)) g, [ (ToAll, Event.playerLeft sid) ]).

(** The values of [Date.now()] and [Math.random()] a handler reads:
    [now e i] is the value of the call of [Date.now()] of index [i] the
    handler makes ([molotov] reads the clock once, [shoot] once per
    projectile), [random e] the value of [Math.random()]. *)
Record Env := mkEnv { now : nat -> Z; random : Q }.

Definition handle (sid : string) (e : Env) (c : Command) (g : GameState)
  : GameState * list Msg :=
  match c with
  | move x z angle => on_move sid x z angle g
  | shoot shots => on_shoot sid (now e) shots g
  | molotov x z radius => on_molotov sid (now e 0%nat) x z radius g
  | toggleFlashlight on => on_toggleFlashlight sid on g
  | takeDamage amount from => on_takeDamage sid amount from g
  | respawn => on_respawn sid (random e) g
  | chat message => on_chat sid message g
  | disconnect => on_disconnect sid g
  end.

Local Close Scope string_scope.

(** ** The tick loop

    The body of the [setInterval] callback, one function per loop. *)

Definition TICK_RATE : Q := 1000 / 60.

Definition shrinkRate : Q := (80 - 5) / (7 * 60).

(** Body of the ring-damage loop for one entry of the player table. *)
Definition ringPlayer (delta radius : Q) (id : string) (player : Player.t)
  : Player.t * list Msg :=
  if Qlt_bool 0 (Player.health player) then
    let dx := F64.sub (Player.x player) 0 in
    let dz := F64.sub (Player.z player) 0 in
    if Qlt_bool radius (dist dx dz) then
      let h := Player.health player - 5 * delta in
      if Qle_bool h 0 then
        (Player.with_health 0 player, [ (ToAll, Event.playerDied id (Some "ring"%string)) ])
      else
        (Player.with_health h player, [ (ToRoom id, Event.ringDamage h) ])
    else (player, [])
  else (player, []).

Fixpoint ringLoop (delta radius : Q) (ps : PlayerMap) : PlayerMap * list Msg :=
  match ps with
  | [] => ([], [])
  | (id, player) :: rest =>
      let '(player', ev) := ringPlayer delta radius id player in
      let '(rest', evs) := ringLoop delta radius rest in
      ((id, player') :: rest', ev ++ evs)
  end.

(** The block guarded by [gameState.gameStarted && gameState.ringRadius > 5]:
    the countdown, the new radius and the ring damage. *)
Definition ringStep (delta : Q) (g : GameState) : GameState * list Msg :=
  if gameStarted g && Qlt_bool 5 (ringRadius g) then
    let timer := ringTimer g - delta in
    let radius := Qmax 5 (80 - (7 * 60 - timer) * shrinkRate) in
    let '(ps, evs) := ringLoop delta radius (players g) in
    (mkGameState ps (projectiles g) (fireZones g) radius timer (gameStarted g), evs)
  else (g, []).

(** The once-a-second [ringUpdate] broadcast. *)
Definition ringBroadcast (now : Z) (g : GameState) : list Msg :=
  if negb (Qfloor (inject_Z now / 1000) =? Qfloor ((inject_Z now - TICK_RATE) / 1000))%Z
  then [ (ToAll, Event.ringUpdate (ringRadius g) (ringTimer g)) ]
  else [].

(** The player loop run for one projectile: the first living player other
    than the owner within the hit radius takes the damage, and the loop
    breaks.  The boolean tells whether a player was hit.  The literal [0.7]
    is the double nearest to 7/10. *)
Fixpoint hitLoop (pr : Projectile.t) (ps : PlayerMap) : PlayerMap * list Msg * bool :=
  match ps with
  | [] => ([], [], false)
  | (id, player) :: rest =>
      if negb (String.eqb id (Projectile.ownerId pr))
         && Qlt_bool 0 (Player.health player)
         && Qlt_bool (dist (F64.sub (Projectile.x pr) (Player.x player))
                           (F64.sub (Projectile.z pr) (Player.z player)))
                     (F64.round (7 # 10))
      then
        let h := Player.health player - Projectile.damage pr in
        let hit := (ToAll, Event.playerHit id h (Projectile.id pr) (Projectile.ownerId pr)) in
        if Qle_bool h 0 then
          ((id, Player.with_health 0 player) :: rest,
           [ hit; (ToAll, Event.playerDied id (Some (Projectile.ownerId pr))) ], true)
        else
          ((id, Player.with_health h player) :: rest, [ hit ], true)
      else
        let '(rest', evs, b) := hitLoop pr rest in
        ((id, player) :: rest', evs, b)
  end.

(** [projectile.x += projectile.vx * delta; projectile.z += ...] *)
Definition advance (delta : Q) (pr : Projectile.t) : Projectile.t :=
  Projectile.mk (Projectile.id pr) (Projectile.ownerId pr)
                (Projectile.x pr + Projectile.vx pr * delta)
                (Projectile.z pr + Projectile.vz pr * delta)
                (Projectile.vx pr) (Projectile.vz pr) (Projectile.damage pr).

Definition outOfMap (pr : Projectile.t) : bool :=
  Qlt_bool 80 (Qabs (Projectile.x pr)) || Qlt_bool 50 (Qabs (Projectile.z pr)).

(** Body of the projectile loop: the moved projectile, the player table,
    the ids this iteration pushes on [projectilesToRemove], the messages. *)
Definition stepProjectile (delta : Q) (pr : Projectile.t) (ps : PlayerMap)
  : Projectile.t * PlayerMap * list string * list Msg :=
  let pr' := advance delta pr in
  if checkWallCollision (Projectile.x pr') (Projectile.z pr') then
    (pr', ps, [ Projectile.id pr' ], [])
  else
    let '(ps', evs, hit) := hitLoop pr' ps in
    (pr', ps',
     (if hit then [ Projectile.id pr' ] else []) ++
     (if outOfMap pr' then [ Projectile.id pr' ] else []),
     evs).

Fixpoint projectileLoop (delta : Q) (prs : list Projectile.t) (ps : PlayerMap)
  : list Projectile.t * PlayerMap * list string * list Msg :=
  match prs with
  | [] => ([], ps, [], [])
  | pr :: rest =>
      let '(pr', ps1, rm, ev) := stepProjectile delta pr ps in
      let '(rest', ps2, rms, evs) := projectileLoop delta rest ps1 in
      (pr' :: rest', ps2, rm ++ rms, ev ++ evs)
  end.

(** [ids.includes(id)] *)
Definition includes (ids : list string) (id : string) : bool :=
  existsb (String.eqb id) ids.

Definition projectileStep (delta : Q) (g : GameState) : GameState * list Msg :=
  let '(prs, ps, projectilesToRemove, evs) :=
    projectileLoop delta (projectiles g) (players g) in
  match projectilesToRemove with
  | [] =>
      (mkGameState ps prs (fireZones g) (ringRadius g) (ringTimer g) (gameStarted g), evs)
  | _ :: _ =>
      (mkGameState ps
         (filter (fun p => negb (includes projectilesToRemove (Projectile.id p))) prs)
         (fireZones g) (ringRadius g) (ringTimer g) (gameStarted g),
       evs ++ [ (ToAll, Event.projectilesRemoved projectilesToRemove) ])
  end.

(** Body of the fire-damage loop for one entry of the player table. *)
Definition burnPlayer (delta : Q) (fire : FireZone.t) (id : string) (player : Player.t)
  : Player.t * list Msg :=
  if Qlt_bool 0 (Player.health player) then
    let dx := F64.sub (FireZone.x fire) (Player.x player) in
    let dz := F64.sub (FireZone.z fire) (Player.z player) in
    if Qlt_bool (dist dx dz) (FireZone.radius fire) then
      let h := Player.health player - 15 * delta in
      let note := (ToRoom id, Event.fireDamage h) in
      if Qle_bool h 0 then
        (Player.with_health 0 player,
         [ note; (ToAll, Event.playerDied id (Some "fire"%string)) ])
      else (Player.with_health h player, [ note ])
    else (player, [])
  else (player, []).

Fixpoint burnLoop (delta : Q) (fire : FireZone.t) (ps : PlayerMap) : PlayerMap * list Msg :=
  match ps with
  | [] => ([], [])
  | (id, player) :: rest =>
      let '(player', ev) := burnPlayer delta fire id player in
      let '(rest', evs) := burnLoop delta fire rest in
      ((id, player') :: rest', ev ++ evs)
  end.

(** [fire.timeLeft -= TICK_RATE] *)
Definition age (fire : FireZone.t) : FireZone.t :=
  FireZone.mk (FireZone.id fire) (FireZone.x fire) (FireZone.z fire)
              (FireZone.radius fire) (FireZone.timeLeft fire - TICK_RATE).

Fixpoint fireLoop (delta : Q) (fires : list FireZone.t) (ps : PlayerMap)
  : list FireZone.t * PlayerMap * list string * list Msg :=
  match fires with
  | [] => ([], ps, [], [])
  | fire :: rest =>
      let fire' := age fire in
      if Qle_bool (FireZone.timeLeft fire') 0 then
        let '(rest', ps', rms, evs) := fireLoop delta rest ps in
        (fire' :: rest', ps', FireZone.id fire' :: rms, evs)
      else
        let '(ps1, ev) := burnLoop delta fire' ps in
        let '(rest', ps2, rms, evs) := fireLoop delta rest ps1 in
        (fire' :: rest', ps2, rms, ev ++ evs)
  end.

Definition fireStep (delta : Q) (g : GameState) : GameState * list Msg :=
  let '(fires, ps, fireZonesToRemove, evs) :=
    fireLoop delta (fireZones g) (players g) in
  match fireZonesToRemove with
  | [] =>
      (mkGameState ps (projectiles g) fires (ringRadius g) (ringTimer g) (gameStarted g), evs)
  | _ :: _ =>
      (mkGameState ps (projectiles g)
         (filter (fun f => negb (includes fireZonesToRemove (FireZone.id f))) fires)
         (ringRadius g) (ringTimer g) (gameStarted g),
       evs ++ [ (ToAll, Event.fireZonesRemoved fireZonesToRemove) ])
  end.

(** One invocation of the callback, given [delta] and [now]. *)
Definition tickBody (now : Z) (delta : Q) (g : GameState) : GameState * list Msg :=
  let '(g1, ev1) := ringStep delta g in
  let ev2 := ringBroadcast now g1 in
  let '(g3, ev3) := projectileStep delta g1 in
  let '(g4, ev4) := fireStep delta g3 in
  (g4, ev1 ++ ev2 ++ ev3 ++ ev4).

(** ** The server: world state plus the [lastTick] variable *)

Record Server := mkServer { gameState : GameState; lastTick : Z }.

Definition tick (now : Z) (s : Server) : Server * list Msg :=
  let delta := inject_Z (now - lastTick s) / 1000 in
  let '(g, evs) := tickBody now delta (gameState s) in
  (mkServer g now, evs).

Inductive Input :=
| Connection (sid : string) (rSpawn rName : Q)
| Message (sid : string) (e : Env) (c : Command)
| Tick (now : Z).

Definition step (s : Server) (i : Input) : Server * list Msg :=
  match i with
  | Connection sid rSpawn rName =>
      let '(g, evs) := on_connection sid rSpawn rName (gameState s) in
      (mkServer g (lastTick s), evs)
  | Message sid e c =>
      let '(g, evs) := handle sid e c (gameState s) in
      (mkServer g (lastTick s), evs)
  | Tick now => tick now s
  end.

(** The server when the process starts, [t0] being the first [Date.now()]. *)
Definition boot (t0 : Z) : Server := mkServer gameState0 t0.

Fixpoint run (s : Server) (inputs : list Input) : Server :=
  match inputs with
  | [] => s
  | i :: rest => run (fst (step s i)) rest
  end.

(** ** The client's view of the world

    The [useMultiplayer] hook keeps a copy of the world that it updates
    from the server's messages, one [socket.on] callback per event; each
    callback is a function from the previous state to the next one.
    [socketId] is the client's [socket.id] and [now] the [Date.now()] a
    chat message is stamped with.  [ringDamage] and [fireDamage] are
    forwarded to the page as window events and leave the state alone. *)

Module Client.
Record ChatMessage := mkChatMessage
  { playerId : string; playerName : string; message : string; timestamp : Z }.

(** [ownId] is the hook's [playerId] state variable. *)
Record State := mkState
  { connected : bool;
    ownId : option string;
    remotePlayers : PlayerMap;
    remoteProjectiles : list Projectile.t;
    remoteFireZones : list FireZone.t;
    ringRadius : Q;
    ringTimer : Q;
    chatMessages : list ChatMessage }.

Definition state0 : State :=
  mkState false None [] [] [] 80 (7 * 60) [].

Definition with_remotePlayers (m : PlayerMap) (st : State) : State :=
  mkState (connected st) (ownId st) m (remoteProjectiles st) (remoteFireZones st)
          (ringRadius st) (ringTimer st) (chatMessages st).

Definition with_remoteProjectiles (l : list Projectile.t) (st : State) : State :=
  mkState (connected st) (ownId st) (remotePlayers st) l (remoteFireZones st)
          (ringRadius st) (ringTimer st) (chatMessages st).

Definition with_remoteFireZones (l : list FireZone.t) (st : State) : State :=
  mkState (connected st) (ownId st) (remotePlayers st) (remoteProjectiles st) l
          (ringRadius st) (ringTimer st) (chatMessages st).

(** [const player = next.get(id); if (player) { ... }] *)
Definition adjust (id : string) (f : Player.t -> Player.t) (m : PlayerMap) : PlayerMap :=
  match players_get id m with
  | Some player => players_set id (f player) m
  | None => m
  end.

(** [data.players.forEach(p => { if (p.id !== data.playerId) playerMap.set(p.id, p) })] *)
Definition others (playerId : string) (ps : list Player.t) : PlayerMap :=
  fold_left
    (fun playerMap p =>
       if negb (String.eqb (Player.id p) playerId)
       then players_set (Player.id p) p playerMap
       else playerMap)
    ps [].

(** [prev.slice(-50)] *)
Definition last50 {A : Type} (l : list A) : list A := skipn (List.length l - 50) l.

Definition on (socketId : string) (now : Z) (ev : Event.t) (st : State) : State :=
  match ev with
  | Event.init playerId players projectiles fireZones radius timer =>
      mkState (connected st) (Some playerId) (others playerId players)
              projectiles fireZones radius timer (chatMessages st)
  | Event.playerJoined player =>
      with_remotePlayers (players_set (Player.id player) player (remotePlayers st)) st
  | Event.playerMoved id x z angle =>
      with_remotePlayers
        (adjust id (fun player =>
                      Player.mk (Player.id player) x z angle (Player.health player)
                                (Player.flashlightOn player) (Player.name player))
                (remotePlayers st)) st
  | Event.playerLeft id =>
      with_remotePlayers (players_delete id (remotePlayers st)) st
  | Event.projectilesFired ownerId projectiles =>
      if negb (String.eqb ownerId socketId)
      then with_remoteProjectiles (remoteProjectiles st ++ projectiles) st
      else st
  | Event.projectilesRemoved ids =>
      with_remoteProjectiles
        (filter (fun p => negb (includes ids (Projectile.id p))) (remoteProjectiles st)) st
  | Event.fireCreated fire =>
      with_remoteFireZones (remoteFireZones st ++ [ fire ]) st
  | Event.fireZonesRemoved ids =>
      with_remoteFireZones
        (filter (fun f => negb (includes ids (FireZone.id f))) (remoteFireZones st)) st
  | Event.flashlightToggled id on =>
      with_remotePlayers (adjust id (Player.with_flashlightOn on) (remotePlayers st)) st
  | Event.playerHit playerId health projectileId _ =>
      with_remotePlayers
        (adjust playerId (Player.with_health health) (remotePlayers st))
        (with_remoteProjectiles
           (filter (fun p => negb (String.eqb (Projectile.id p) projectileId))
                   (remoteProjectiles st)) st)
  | Event.playerDamaged id health _ =>
      with_remotePlayers (adjust id (Player.with_health health) (remotePlayers st)) st
  | Event.playerDied id _ =>
      with_remotePlayers (adjust id (Player.with_health 0) (remotePlayers st)) st
  | Event.playerRespawned id x z health =>
      with_remotePlayers
        (adjust id (fun player =>
                      Player.mk (Player.id player) x z (Player.angle player) health
                                (Player.flashlightOn player) (Player.name player))
                (remotePlayers st)) st
  | Event.ringUpdate radius timer =>
      mkState (connected st) (ownId st) (remotePlayers st) (remoteProjectiles st)
              (remoteFireZones st) radius timer (chatMessages st)
  | Event.ringDamage _ => st
  | Event.fireDamage _ => st
  | Event.chatMessage playerId playerName message =>
      mkState (connected st) (ownId st) (remotePlayers st) (remoteProjectiles st)
              (remoteFireZones st) (ringRadius st) (ringTimer st)
              (last50 (chatMessages st) ++ [ mkChatMessage playerId playerName message now ])
  end.

(** [socket.on('connect', ...)] and [socket.on('disconnect', ...)] *)
Definition on_connect (st : State) : State :=
  mkState true (ownId st) (remotePlayers st) (remoteProjectiles st) (remoteFireZones st)
          (ringRadius st) (ringTimer st) (chatMessages st).

Definition on_disconnect (st : State) : State :=
  mkState false (ownId st) (remotePlayers st) (remoteProjectiles st) (remoteFireZones st)
          (ringRadius st) (ringTimer st) (chatMessages st).

(** [playerCount: remotePlayers.size + (connected ? 1 : 0)] *)
Definition playerCount (st : State) : nat :=
  (List.length (remotePlayers st) + (if connected st then 1 else 0))%nat.
End Client.

(** Which connections a message reaches: [io.emit] all of them,
    [socket.broadcast.emit] all but the sender, [socket.emit] the sender,
    [io.to(id).emit] the socket whose id is [id]. *)
Definition delivered (me : string) (m : Msg) : bool :=
  match fst m with
  | ToAll => true
  | ToOthers sender => negb (String.eqb sender me)
  | ToSender sender => String.eqb sender me
  | ToRoom id => String.eqb id me
  end.

(** The client [me] handles, in order, the messages that reach it. *)
Definition receive (me : string) (now : Z) (msgs : list Msg) (st : Client.State)
  : Client.State :=
  fold_left (fun st m => if delivered me m then Client.on me now (snd m) st else st) msgs st.

(** ** The map loader

    [src/utils/mapLoader.ts] converts the rectangles of [map.json], given
    in pixels, to world coordinates.  [map.json] is not among the sources;
    the functions below take its content as an argument.  A [mur] is the
    array [\[x, y, width, height\]] the loader destructures. *)

Module MapLoader.
Record Mur := mkMur { x : Q; y : Q; width : Q; height : Q }.
Record Meuble := mkMeuble { rect : Mur; type : string }.
Record Lumiere := mkLumiere
  { pos : Q * Q; ltype : string; couleur : Q * Q * Q;
    rayon : Q; intensite : Q; scintille : bool }.
Record MapData := mkMapData
  { murs : list Mur; meubles : list Meuble; lumieres : list Lumiere;
    spawns : list (Q * Q) }.

Record WallMesh := mkWallMesh { position : Q * Q * Q; args : Q * Q * Q; color : string }.
Record Furniture := mkFurniture
  { fx : Q; fz : Q; fwidth : Q; fdepth : Q; ftype : string }.
Record Light := mkLight
  { lx : Q; lz : Q; kind : string; lcolor : Q * Q * Q;
    radius : Q; intensity : Q; flicker : bool }.

(** The literal [0.1] is the double nearest to 1/10. *)
Definition SCALE : Q := F64.round (1 # 10).
Definition OFFSET_X : Q := -70.
Definition OFFSET_Z : Q := -40.

(** [(u + extent / 2) * SCALE + offset] *)
Definition center (u extent offset : Q) : Q :=
  F64.add (F64.mul (F64.add u (F64.div extent 2)) SCALE) offset.

Definition getWalls (mapData : MapData) : list Wall :=
  map (fun mur =>
         mkWall (center (x mur) (width mur) OFFSET_X)
                (center (y mur) (height mur) OFFSET_Z)
                (F64.mul (width mur) SCALE)
                (F64.mul (height mur) SCALE))
      (murs mapData).

Definition getWallMeshes (mapData : MapData) : list WallMesh :=
  map (fun mur =>
         mkWallMesh (center (x mur) (width mur) OFFSET_X, 2,
                     center (y mur) (height mur) OFFSET_Z)
                    (F64.mul (width mur) SCALE, 4, F64.mul (height mur) SCALE)
                    "#555555")
      (murs mapData).

Definition getFurniture (mapData : MapData) : list Furniture :=
  map (fun meuble =>
         let mur := rect meuble in
         mkFurniture (center (x mur) (width mur) OFFSET_X)
                     (center (y mur) (height mur) OFFSET_Z)
                     (F64.mul (width mur) SCALE)
                     (F64.mul (height mur) SCALE)
                     (type meuble))
      (meubles mapData).

Definition getLights (mapData : MapData) : list Light :=
  map (fun lumiere =>
         mkLight (F64.add (F64.mul (fst (pos lumiere)) SCALE) OFFSET_X)
                 (F64.add (F64.mul (snd (pos lumiere)) SCALE) OFFSET_Z)
                 (ltype lumiere) (couleur lumiere)
                 (F64.mul (rayon lumiere) SCALE) (intensite lumiere) (scintille lumiere))
      (lumieres mapData).

Definition getSpawns (mapData : MapData) : list Point :=
  map (fun spawn =>
         mkPoint (F64.add (F64.mul (fst spawn) SCALE) OFFSET_X)
                 (F64.add (F64.mul (snd spawn) SCALE) OFFSET_Z))
      (spawns mapData).

(** [spawns\[Math.floor(Math.random() * spawns.length)\]]; [None] is the
    [undefined] of an index outside the array. *)
Definition getRandomSpawn (mapData : MapData) (r : Q) : option Point :=
  let spawns := getSpawns mapData in
  match Qfloor (r * inject_Z (Z.of_nat (List.length spawns))) with
  | Zneg _ => None
  | n => nth_error spawns (Z.to_nat n)
  end.

End MapLoader.

(** ** Vocabulary of the properties and the scenarios they are checked on *)


(** One living player at the origin. *)
Definition move_demo : GameState :=
  with_players [ ("a"%string, Player.mk "a" 0 0 0 100 true "Player1") ] gameState0.

(** A living player [a] at the origin and a dead player [b] at (3, 0). *)
Definition damage_demo : GameState :=
  with_players [ ("a"%string, Player.mk "a" 0 0 0 100 true "Player1");
                 ("b"%string, Player.mk "b" 3 0 0 0 true "Player2") ] gameState0.

(** A shotgun payload of [n] pellets. *)
Definition pellets (n : nat) : list Shot.t := repeat (Shot.mk 0 0 1 0 10) n.

(** A run that reaches the floor radius with a living player outside it:
    the player connects at spawn point (10, 5), the ring shrinks to 5 and
    kills them, they respawn at (10, 5). *)
Definition floor_run : list Input :=
  [ Connection "a" (5 # 8) 0;
    Tick 420000;
    Message "a" (mkEnv (fun _ => 420050%Z) (5 # 8)) respawn ].


(** What the fire loop does to one player: every zone in turn. *)
Definition burnAll (delta : Q) (fires : list FireZone.t) (id : string) (player : Player.t)
  : Player.t :=
  fold_left
    (fun q fire =>
       if Qle_bool (FireZone.timeLeft (age fire)) 0 then q
       else fst (burnPlayer delta (age fire) id q))
    fires player.

(** Two overlapping zones of radius 3 at the center and a player at (1, 1). *)
Definition overlap_demo : GameState :=
  mkGameState [ ("a"%string, Player.mk "a" 1 1 0 100 true "Player1") ] []
              [ FireZone.mk "fire-b-1" 0 0 3 5000; FireZone.mk "fire-b-2" 0 0 3 5000 ]
              80 (7 * 60) true.

(** Player [b] throws two molotovs of radius 3 on player [a], who stands at
    the spawn point (10, 5). *)
Definition overlap_run : list Input :=
  [ Connection "a" (5 # 8) 0; Connection "b" 0 0;
    Message "b" (mkEnv (fun _ => 5%Z) 0) (molotov 10 5 3);
    Message "b" (mkEnv (fun _ => 6%Z) 0) (molotov 10 5 3) ].

(** Player [a] (spawned at (10, 5)) walks north in accepted moves of 1.5
    units, past the wall line, to (10, 51.5), beyond the map bound 50;
    player [b] then fires one pellet placed on [a]. *)
Definition walk_north (n : nat) : list Input :=
  map (fun i => Message "a" (mkEnv (fun _ => 1001%Z) 0)
                        (move 10 (5 + (3 # 2) * inject_Z (Z.of_nat i)) 0))
      (seq 1 n).

(** The run of that scenario. *)
Definition edge_run : list Input :=
  [ Connection "a" (5 # 8) 0; Connection "b" 0 0 ] ++
  walk_north 31 ++
  [ Message "b" (mkEnv (fun _ => 1010%Z) 0) (shoot [ Shot.mk 10 (103 # 2) 0 0 10 ]) ].

(** [if (h <= 0) 0 else h]: the clamp every damage loop applies. *)
Definition clamp0 (h : Q) : Q := if Qle_bool h 0 then 0 else h.

(** Every entry of the table satisfies [P]. *)
Definition allP (P : string -> Player.t -> Prop) (ps : PlayerMap) : Prop :=
  Forall (fun kp => P (fst kp) (snd kp)) ps.

(** The clock does not run backwards between two ticks. *)
Definition clock_ok (s : Server) (i : Input) : Prop :=
  match i with
  | Tick t => (lastTick s <= t)%Z
  | _ => True
  end.

(** No client sends a negative damage. *)
Definition harmless (i : Input) : Prop :=
  match i with
  | Message _ _ (takeDamage amount _) => 0 <= amount
  | Message _ _ (shoot shots) => Forall (fun p => 0 <= Shot.damage p) shots
  | _ => True
  end.

(** Every input of the run satisfies [ok] in the state it meets. *)
Fixpoint run_ok (ok : Server -> Input -> Prop) (s : Server) (inputs : list Input) : Prop :=
  match inputs with
  | [] => True
  | i :: rest => ok s i /\ run_ok ok (fst (step s i)) rest
  end.

(** No stored health is negative. *)
Definition nonneg_health (s : Server) : Prop :=
  allP (fun _ p => 0 <= Player.health p) (players (gameState s)).

(** Every stored health is within [0, 100] and no projectile in flight
    carries a negative damage. *)
Definition bounded_health (s : Server) : Prop :=
  allP (fun _ p => 0 <= Player.health p <= 100) (players (gameState s)) /\
  Forall (fun pr => 0 <= Projectile.damage pr) (projectiles (gameState s)).

(** Two players; [b] hits [a] for 35, then [a] reports 40 more. *)
Definition bounds_run : list Input :=
  [ Connection "a" (5 # 8) 0; Connection "b" 0 0;
    Message "b" (mkEnv (fun _ => 5%Z) 0) (shoot [ Shot.mk 10 5 0 0 35 ]);
    Tick 20;
    Message "a" (mkEnv (fun _ => 30%Z) 0) (takeDamage 40 None) ].

(** The safe-zone part of the state. *)
Definition ringOf (g : GameState) : Q * Q * bool := (ringRadius g, ringTimer g, gameStarted g).

(** The radius the shrink formula gives for a countdown value. *)
Definition radiusAt (timer : Q) : Q := Qmax 5 (80 - (7 * 60 - timer) * shrinkRate).

(** The radius always is the one the formula gives for the countdown, and
    the countdown is untouched until the game starts. *)
Definition ring_inv (s : Server) : Prop :=
  (5 < ringRadius (gameState s) \/ ringRadius (gameState s) = 5) /\
  ringRadius (gameState s) == radiusAt (ringTimer (gameState s)) /\
  (gameStarted (gameState s) = false -> ringTimer (gameState s) == 7 * 60).


(** The keys of the table, in iteration order; no loop of the tick changes
    them. *)
Definition keys (ps : PlayerMap) : list string := map fst ps.









(** ** Further vocabulary: handlers, geometry, lifetimes *)

(** The input is a new connection. *)
Definition isConnection (i : Input) : bool :=
  match i with
  | Connection _ _ _ => true
  | _ => false
  end.

(** The test of the projectile loop for one table entry: not the owner,
    alive, and the distance the loop computes is below the double [0.7]. *)
Definition hittable (pr : Projectile.t) (kp : string * Player.t) : Prop :=
  fst kp <> Projectile.ownerId pr /\
  0 < Player.health (snd kp) /\
  dist (F64.sub (Projectile.x pr) (Player.x (snd kp)))
       (F64.sub (Projectile.z pr) (Player.z (snd kp))) < F64.round (7 # 10).

(** Four players at the origin or next to it: the owner of a projectile, a
    dead player, and two living ones. *)
Definition crowd_demo : PlayerMap :=
  [ ("o"%string, Player.mk "o" 0 0 0 100 true "Player1");
    ("d"%string, Player.mk "d" 0 0 0 0 true "Player2");
    ("a"%string, Player.mk "a" 0 (1 # 2) 0 100 true "Player3");
    ("b"%string, Player.mk "b" 0 0 0 100 true "Player4") ].

(** The ids the fire loop pushes on [fireZonesToRemove]: the zones whose
    lifetime is used up after this tick's decrement. *)
Definition burntOut (fires : list FireZone.t) : list string :=
  map FireZone.id (filter (fun f => Qle_bool (FireZone.timeLeft (age f)) 0) fires).

(** A server whose only content is one player and the zone of a molotov
    thrown at time 7. *)
Definition molotov_demo : Server :=
  mkServer (fst (on_molotov "a" 7 0 0 3 damage_demo)) 1000.


(** The string holds no ["-"]. *)
Fixpoint dashFree (s : string) : bool :=
  match s with
  | EmptyString => true
  | String c s' => negb (Ascii.eqb c "-") && dashFree s'
  end.

(** The world coordinates of a pixel of the map image. *)
Definition toWorld (u v : Q) : Q * Q :=
  (F64.add (F64.mul u MapLoader.SCALE) MapLoader.OFFSET_X,
   F64.add (F64.mul v MapLoader.SCALE) MapLoader.OFFSET_Z).

(** The client [me] holds a copy of every entry of the server's table but
    its own, in the same order. *)
Definition mirrors (me : string) (ps : PlayerMap) (st : Client.State) : Prop :=
  Client.remotePlayers st = players_delete me ps.

(** The client knows exactly the fire zones of the world, by id and in
    order. *)
Definition zonesMirror (g : GameState) (st : Client.State) : Prop :=
  map FireZone.id (Client.remoteFireZones st) = map FireZone.id (fireZones g).

(** The message does not concern the list of fire zones. *)
Definition notAboutZones (m : Msg) : Prop :=
  match snd m with
  | Event.init _ _ _ _ _ _ | Event.fireCreated _ | Event.fireZonesRemoved _ => False
  | _ => True
  end.

(** The client [me] knows exactly the projectiles of the other players, by
    id and in order (it keeps its own projectiles elsewhere). *)
Definition projectilesMirror (me : string) (g : GameState) (st : Client.State) : Prop :=
  map Projectile.id (Client.remoteProjectiles st) =
  map Projectile.id
      (filter (fun p => negb (String.eqb (Projectile.ownerId p) me)) (projectiles g)).

(** The projectile ids the [playerHit] messages of a list name. *)
Fixpoint hitIds (msgs : list Msg) : list string :=
  match msgs with
  | [] => []
  | (_, Event.playerHit _ _ projectileId _) :: rest => projectileId :: hitIds rest
  | _ :: rest => hitIds rest
  end.

(** A broadcast [playerHit] or [playerDied]. *)
Definition hitOrDied (m : Msg) : Prop :=
  match m with
  | (ToAll, Event.playerHit _ _ _ _) | (ToAll, Event.playerDied _ _) => True
  | _ => False
  end.

(** A map with two walls, one table and two spawns, in pixels. *)
Definition room_demo : MapLoader.MapData :=
  MapLoader.mkMapData [ MapLoader.mkMur 0 0 1400 10; MapLoader.mkMur 100 200 50 300 ]
                      [ MapLoader.mkMeuble (MapLoader.mkMur 100 200 50 300) "table" ] []
                      [ (370, 90); (430, 90) ].

(** The view of client [b] of [damage_demo]: the entry of [a]. *)
Definition view_demo : Client.State :=
  Client.with_remotePlayers (players_delete "b" (players damage_demo)) Client.state0.

(** The two players of [damage_demo] and a pellet of [b], of damage 150,
    placed on [a]. *)
Definition duel_demo : GameState :=
  mkGameState (players damage_demo) [ Projectile.mk "b-5-0" "b" 0 0 0 0 150 ] []
              80 (7 * 60) true.

(** A client that knows the zone of [molotov_demo]. *)
Definition zones_view_demo : Client.State :=
  Client.with_remoteFireZones (fireZones (gameState molotov_demo)) Client.state0.

(** A client that knows the pellet of [duel_demo]. *)
Definition projectiles_view_demo : Client.State :=
  Client.with_remoteProjectiles (projectiles duel_demo) Client.state0.

(** * Properties *)

(** ** Comparisons *)

Lemma Qlt_bool_iff (a b : Q) : Qlt_bool a b = true <-> a < b.
Proof.
  unfold Qlt_bool. rewrite negb_true_iff.
  split; intro H.
  - apply Qnot_le_lt. intro L. apply Qle_bool_iff in L. congruence.
  - destruct (Qle_bool b a) eqn:E; [|reflexivity].
    apply Qle_bool_iff in E. exfalso. exact (Qlt_not_le _ _ H E).
Qed.

Lemma Qlt_bool_false_iff (a b : Q) : Qlt_bool a b = false <-> b <= a.
Proof.
  unfold Qlt_bool. rewrite negb_false_iff. apply Qle_bool_iff.
Qed.

Lemma Qle_bool_false_iff (a b : Q) : Qle_bool a b = false <-> b < a.
Proof.
  rewrite <- Qlt_bool_iff. unfold Qlt_bool.
  destruct (Qle_bool a b); simpl; intuition congruence.
Qed.

Lemma sq2_nonneg (dx dz : Q) : 0 <= sq2 dx dz.
Proof. unfold sq2. nra. Qed.

(** ** Binary64 arithmetic *)

Lemma pow2_pos (e : Z) : 0 < F64.pow2 e.
Proof. unfold F64.pow2. apply Qpower_0_lt. reflexivity. Qed.

Lemma sqrt_nonneg (q : Q) : 0 <= F64.sqrt q.
Proof.
  unfold F64.sqrt.
  destruct (Qle_bool q 0); [lra|].
  destruct (Qle_bool F64.inf q); [apply Qlt_le_weak, pow2_pos|].
  set (e := Z.max (F64.ilog2 q / 2 - 52) F64.emin).
  set (s := Z.sqrt (Qfloor (q / F64.pow2 (2 * e)))).
  assert (Hs : (0 <= s)%Z) by apply Z.sqrt_nonneg.
  apply Qmult_le_0_compat; [|apply Qlt_le_weak, pow2_pos].
  change 0 with (inject_Z 0). rewrite <- Zle_Qle.
  destruct (_ ?= _); [destruct (Z.even s)| |]; lia.
Qed.

Lemma dist_nonneg (dx dz : Q) : 0 <= dist dx dz.
Proof. apply sqrt_nonneg. Qed.

(** The rounding on values the source and its scenarios meet: the
    literals [0.1] and [0.7], the square root of 2, and two distances that
    fall on the other side of their bound than the Euclidean distance. *)
Lemma round_samples :
  F64.round (1 # 10) == 3602879701896397 # 36028797018963968 /\
  F64.round (7 # 10) == 3152519739159347 # 4503599627370496 /\
  F64.sqrt 2 == 6369051672525773 # 4503599627370496 /\
  F64.round (1 # 3) == 6004799503160661 # 18014398509481984 /\
  F64.add (F64.round (1 # 10)) (F64.round (2 # 10)) == 1351079888211149 # 4503599627370496 /\
  dist (F64.round (56 # 100)) (F64.round (192 # 100)) == 2 /\
  dist (F64.round (7 # 10)) 0 == F64.round (7 # 10).
Proof. vm_compute. repeat split; reflexivity. Qed.

(** ** The player table *)

Lemma players_get_set_same k p m : players_get k (players_set k p m) = Some p.
Proof.
  induction m as [|[k' p'] m IH]; simpl.
  - now rewrite String.eqb_refl.
  - destruct (String.eqb k k') eqn:E; simpl; rewrite E; auto.
Qed.

Lemma players_get_set_other k k' p m :
  k' <> k -> players_get k' (players_set k p m) = players_get k' m.
Proof.
  intro Hne. induction m as [|[k0 p0] m IH]; simpl.
  - apply String.eqb_neq in Hne. now rewrite Hne.
  - destruct (String.eqb k k0) eqn:E; simpl.
    + apply String.eqb_eq in E. subst k0.
      apply String.eqb_neq in Hne. now rewrite Hne.
    + now rewrite IH.
Qed.

Lemma players_set_keys k p m :
  players_get k m <> None -> map fst (players_set k p m) = map fst m.
Proof.
  induction m as [|[k' p'] m IH]; simpl; [congruence|].
  destruct (String.eqb k k') eqn:E; simpl; [reflexivity|].
  intro H. now rewrite IH.
Qed.

Lemma players_set_In k p m kq :
  In kq (players_set k p m) -> In kq m \/ snd kq = p.
Proof.
  induction m as [|[k' p'] m IH]; simpl.
  - intros [<- | []]. now right.
  - destruct (String.eqb k k'); simpl.
    + intros [<- | H]; auto.
    + intros [<- | H]; auto. destruct (IH H); auto.
Qed.

Lemma players_delete_In k m kq : In kq (players_delete k m) -> In kq m.
Proof. unfold players_delete. intro H. now apply filter_In in H. Qed.

(** ** Command handlers *)

Lemma Qmax_0_nonpos (v : Q) : v <= 0 -> Qmax 0 v = 0.
Proof.
  intro H. unfold Qmax, GenericMinMax.gmax.
  destruct (0 ?= v) eqn:E; try reflexivity.
  apply Qlt_alt in E. lra.
Qed.

Lemma Qmax_0_pos (v : Q) : 0 < v -> Qmax 0 v = v.
Proof.
  intro H. unfold Qmax, GenericMinMax.gmax.
  destruct (0 ?= v) eqn:E; try reflexivity.
  - apply Qeq_alt in E. lra.
  - apply Qgt_alt in E. lra.
Qed.

(** C5 (as stated, refuted).  The handler compares the distance it
    computes in binary64, not the Euclidean one.  From the origin, the move
    to the doubles [0.56] and [1.92] has an exact squared distance below 4,
    so a Euclidean distance below 2; the computed distance is exactly 2, and
    the move is dropped. *)
Lemma move_below_cap_dropped :
  let x := F64.round (56 # 100) in
  let z := F64.round (192 # 100) in
  players_get "a" (players move_demo) = Some (Player.mk "a" 0 0 0 100 true "Player1") /\
  sq2 (x - 0) (z - 0) < 2 * 2 /\
  dist (F64.sub x 0) (F64.sub z 0) == 2 /\
  on_move "a" x z 0 move_demo = (move_demo, []).
Proof. vm_compute. repeat split; reflexivity. Qed.

(** C5 (amended).  With [d] the distance the handler computes in binary64
    between the proposed position and the last accepted one,
    [Math.sqrt(dx * dx + dz * dz)] with every operation rounded: a move
    command of an existing player with [d] at least 2 changes nothing and
    emits nothing; with [d] below 2 the player's position and angle become
    the payload's, nothing else changes, and one [playerMoved] goes to every
    other connection. *)
Theorem move_cap (sid : string) (x z angle : Q) (g : GameState) (player : Player.t) :
  players_get sid (players g) = Some player ->
  let d := dist (F64.sub x (Player.x player)) (F64.sub z (Player.z player)) in
  (2 <= d -> on_move sid x z angle g = (g, [])) /\
  (d < 2 ->
   let g' := fst (on_move sid x z angle g) in
   players_get sid (players g') =
     Some (Player.mk (Player.id player) x z angle (Player.health player)
                     (Player.flashlightOn player) (Player.name player)) /\
   (forall k, k <> sid -> players_get k (players g') = players_get k (players g)) /\
   map fst (players g') = map fst (players g) /\
   projectiles g' = projectiles g /\ fireZones g' = fireZones g /\
   ringRadius g' = ringRadius g /\ ringTimer g' = ringTimer g /\
   gameStarted g' = gameStarted g /\
   snd (on_move sid x z angle g) = [ (ToOthers sid, Event.playerMoved sid x z angle) ]).
Proof.
  intros Hget d. unfold on_move. rewrite Hget. fold d. split.
  - intro Hd. apply Qlt_bool_false_iff in Hd. now rewrite Hd.
  - intro Hd. apply Qlt_bool_iff in Hd. rewrite Hd. cbn [fst snd with_players players
      projectiles fireZones ringRadius ringTimer gameStarted]. repeat split.
    + apply players_get_set_same.
    + intros k Hk. now apply players_get_set_other.
    + apply players_set_keys. congruence.
Qed.

Lemma move_cap_witness :
  on_move "a" 3 0 1 move_demo = (move_demo, []) /\
  snd (on_move "a" 1 1 1 move_demo) = [ (ToOthers "a"%string, Event.playerMoved "a" 1 1 1) ].
Proof.
  split.
  - apply (proj1 (move_cap "a" 3 0 1 move_demo _ eq_refl)). vm_compute. discriminate.
  - apply (proj2 (move_cap "a" 1 1 1 move_demo _ eq_refl)). vm_compute. reflexivity.
Defined.



(** *** Shooting *)

Lemma dec_inj (a b : Z) : dec a = dec b -> a = b.
Proof.
  unfold dec. intro H.
  apply (f_equal NilEmpty.int_of_string) in H.
  rewrite !NilEmpty.isi in H. injection H as H.
  apply (f_equal Z.of_int) in H. now rewrite !DecimalZ.of_to in H.
Qed.

Lemma append_inj_r (s a b : string) : (s ++ a = s ++ b)%string -> a = b.
Proof.
  induction s as [|c s IH]; simpl; intro H; [exact H|].
  injection H as H. auto.
Qed.

Lemma string_of_uint_dashFree (d : Decimal.uint) :
  dashFree (NilEmpty.string_of_uint d) = true.
Proof. induction d; cbn; auto. Qed.

Lemma dec_dashFree (t : Z) : (0 <= t)%Z -> dashFree (dec t) = true.
Proof.
  intro H. unfold dec. destruct t as [|p|p]; cbn [Z.to_int NilEmpty.string_of_int].
  - reflexivity.
  - apply string_of_uint_dashFree.
  - lia.
Qed.

Lemma dashFree_dash (a b : string) : dashFree (a ++ String "-" b) = false.
Proof.
  induction a as [|x a IH]; cbn; [reflexivity|]. rewrite IH. apply andb_false_r.
Qed.

(** Two strings that end in a dash followed by a dash-free suffix are equal
    only if the suffixes are, and the parts before the dash. *)
Lemma split_at_last_dash (a b c d : string) :
  dashFree c = true -> dashFree d = true ->
  (a ++ String "-" c = b ++ String "-" d)%string -> a = b /\ c = d.
Proof.
  intros Hc Hd. revert b. induction a as [|x a IH]; intros b E.
  - destruct b as [|y b]; cbn in E.
    + injection E as E. now split.
    + injection E as _ E. rewrite E, dashFree_dash in Hc. discriminate.
  - destruct b as [|y b]; cbn in E.
    + injection E as _ E. rewrite <- E, dashFree_dash in Hd. discriminate.
    + injection E as -> E. destruct (IH b E) as [-> ->]. now split.
Qed.

(** The id [sid-t-i] determines the clock value [t] and the index [i]. *)
Lemma stamp_id_inj (sid : string) (t1 t2 : Z) (i j : nat) :
  (sid ++ "-" ++ dec t1 ++ "-" ++ dec (Z.of_nat i)
   = sid ++ "-" ++ dec t2 ++ "-" ++ dec (Z.of_nat j))%string ->
  t1 = t2 /\ i = j.
Proof.
  intro E. apply append_inj_r in E. cbn [append] in E. injection E as E.
  apply split_at_last_dash in E; try (apply dec_dashFree; lia).
  destruct E as [Et Ej]. apply dec_inj in Et. apply dec_inj in Ej. split; [exact Et | lia].
Qed.

Lemma stamp_length sid now i shots :
  List.length (stamp sid now i shots) = List.length shots.
Proof.
  revert i. induction shots as [|p rest IH]; intro i; simpl; auto.
Qed.

Lemma stamp_owner sid now i shots :
  Forall (fun pr => Projectile.ownerId pr = sid) (stamp sid now i shots).
Proof.
  revert i. induction shots as [|p rest IH]; intro i; simpl; constructor; auto.
Qed.

Lemma stamp_ids sid now i shots id :
  In id (map Projectile.id (stamp sid now i shots)) ->
  exists j, (i <= j)%nat /\ id = (sid ++ "-" ++ dec (now j) ++ "-" ++ dec (Z.of_nat j))%string.
Proof.
  revert i. induction shots as [|p rest IH]; intro i; simpl; [tauto|].
  intros [<- | H].
  - exists i. split; [lia | reflexivity].
  - destruct (IH _ H) as (j & Hj & ->). exists j. split; [lia | reflexivity].
Qed.

Lemma stamp_NoDup sid now i shots : NoDup (map Projectile.id (stamp sid now i shots)).
Proof.
  revert i. induction shots as [|p rest IH]; intro i; simpl; constructor; auto.
  intro H. apply stamp_ids in H. destruct H as (j & Hj & E).
  apply stamp_id_inj in E. lia.
Qed.

Lemma stamp_payload sid now i shots :
  map (fun pr => Shot.mk (Projectile.x pr) (Projectile.z pr) (Projectile.vx pr)
                         (Projectile.vz pr) (Projectile.damage pr))
      (stamp sid now i shots) = shots.
Proof.
  revert i. induction shots as [|[] rest IH]; intro i; simpl; [reflexivity|].
  now rewrite IH.
Qed.

(** C7.  A shoot command of a living player with N payload entries appends
    exactly N projectiles to the world, with pairwise distinct ids, owned
    by the sender and carrying the payload's data, and broadcasts them; a
    shoot command of a missing or dead player changes nothing and emits
    nothing. *)
Theorem shoot_stamps (sid : string) (t : nat -> Z) (shots : list Shot.t) (g : GameState) :
  (forall player,
     players_get sid (players g) = Some player -> 0 < Player.health player ->
     exists news,
       on_shoot sid t shots g =
         (mkGameState (players g) (projectiles g ++ news) (fireZones g)
                      (ringRadius g) (ringTimer g) (gameStarted g),
          [ (ToAll, Event.projectilesFired sid news) ]) /\
       List.length news = List.length shots /\
       NoDup (map Projectile.id news) /\
       Forall (fun pr => Projectile.ownerId pr = sid) news /\
       map (fun pr => Shot.mk (Projectile.x pr) (Projectile.z pr) (Projectile.vx pr)
                              (Projectile.vz pr) (Projectile.damage pr)) news = shots) /\
  (players_get sid (players g) = None \/
   (exists player, players_get sid (players g) = Some player /\ Player.health player <= 0) ->
   on_shoot sid t shots g = (g, [])).
Proof.
  split.
  - intros player Hget Hpos. exists (stamp sid t 0 shots).
    unfold on_shoot. rewrite Hget.
    apply Qle_bool_false_iff in Hpos. rewrite Hpos.
    split; [reflexivity|].
    split; [apply stamp_length|].
    split; [apply stamp_NoDup|].
    split; [apply stamp_owner | apply stamp_payload].
  - intros [Hnone | (player & Hget & Hdead)]; unfold on_shoot.
    + now rewrite Hnone.
    + rewrite Hget. apply Qle_bool_iff in Hdead. now rewrite Hdead.
Qed.

Lemma shoot_stamps_witness :
  List.length (projectiles (fst (on_shoot "a" (fun _ => 1000%Z) (pellets 20) damage_demo)))
  = 20%nat /\
  on_shoot "b" (fun _ => 1000%Z) (pellets 20) damage_demo = (damage_demo, []).
Proof.
  split.
  - destruct (proj1 (shoot_stamps "a" (fun _ => 1000%Z) (pellets 20) damage_demo) _ eq_refl)
      as (news & E & L & _).
    + vm_compute. reflexivity.
    + rewrite E. simpl. rewrite L. reflexivity.
  - apply (proj2 (shoot_stamps "b" (fun _ => 1000%Z) (pellets 20) damage_demo)).
    right. eexists. split; [reflexivity|]. vm_compute. discriminate.
Defined.

(** *** Respawning *)

Lemma getRandomSpawn_In (r : Q) : 0 <= r -> r < 1 -> In (getRandomSpawn r) spawnPoints.
Proof.
  intros H0 H1. unfold getRandomSpawn.
  change (inject_Z (Z.of_nat (List.length spawnPoints))) with 8.
  set (n := Qfloor (r * 8)).
  assert (Hlo : (0 <= n)%Z).
  { subst n. change 0%Z with (Qfloor 0). apply Qfloor_resp_le. lra. }
  assert (Hhi : (n < 8)%Z).
  { subst n. apply Z.lt_nge. intro Hge.
    assert (L : inject_Z 8 <= r * 8).
    { eapply Qle_trans; [|apply Qfloor_le].
      rewrite <- Zle_Qle. exact Hge. }
    change (inject_Z 8) with 8 in L. lra. }
  apply nth_In. simpl. lia.
Qed.

(** C8.  A respawn command of a player whose health is positive changes
    nothing and emits nothing.  For a player at health 0 (here: not
    positive), with [r] drawn by [Math.random], it stores health 100, angle
    0 and the coordinates of one of the fixed spawn points, leaves every
    other player alone and broadcasts [playerRespawned]. *)
Theorem respawn_only_when_dead (sid : string) (r : Q) (g : GameState) (player : Player.t) :
  players_get sid (players g) = Some player ->
  (0 < Player.health player -> on_respawn sid r g = (g, [])) /\
  (Player.health player <= 0 -> 0 <= r -> r < 1 ->
   exists spawn player',
     In spawn spawnPoints /\
     players_get sid (players (fst (on_respawn sid r g))) = Some player' /\
     Player.health player' = 100 /\
     Player.x player' = px spawn /\ Player.z player' = pz spawn /\
     Player.angle player' = 0 /\
     (forall k, k <> sid ->
        players_get k (players (fst (on_respawn sid r g))) = players_get k (players g)) /\
     snd (on_respawn sid r g) =
       [ (ToAll, Event.playerRespawned sid (px spawn) (pz spawn) 100) ]).
Proof.
  intro Hget. unfold on_respawn. rewrite Hget. split.
  - intro Hpos. apply Qle_bool_false_iff in Hpos. now rewrite Hpos.
  - intros Hdead Hr0 Hr1. apply Qle_bool_iff in Hdead. rewrite Hdead.
    eexists (getRandomSpawn r), _. cbn [fst snd with_players players].
    split; [now apply getRandomSpawn_In|].
    split; [apply players_get_set_same|].
    repeat split. intros k Hk. now apply players_get_set_other.
Qed.

Lemma respawn_only_when_dead_witness :
  on_respawn "a" (1 # 2) damage_demo = (damage_demo, []) /\
  exists player',
    players_get "b" (players (fst (on_respawn "b" (1 # 2) damage_demo))) = Some player' /\
    Player.health player' = 100.
Proof.
  split.
  - apply (proj1 (respawn_only_when_dead "a" (1 # 2) damage_demo _ eq_refl)).
    vm_compute. reflexivity.
  - destruct (proj2 (respawn_only_when_dead "b" (1 # 2) damage_demo _ eq_refl))
      as (spawn & player' & _ & Hget & Hh & _).
    + vm_compute. discriminate.
    + vm_compute. discriminate.
    + vm_compute. reflexivity.
    + exists player'. split; assumption.
Defined.

(** ** The tick loop: ring damage *)

Lemma ringStep_at_floor (delta : Q) (g : GameState) :
  ringRadius g <= 5 -> ringStep delta g = (g, []).
Proof.
  intro H. unfold ringStep.
  apply Qlt_bool_false_iff in H. rewrite H. now rewrite andb_false_r.
Qed.

(** While the ring still shrinks, a living player outside the new radius
    loses [5 * delta], clamped at 0, with one [playerDied] for the ring
    when 0 is reached and a private [ringDamage] otherwise. *)
Lemma ringPlayer_outside (delta radius : Q) (id : string) (player : Player.t) :
  0 < Player.health player ->
  radius < dist (F64.sub (Player.x player) 0) (F64.sub (Player.z player) 0) ->
  let h := Player.health player - 5 * delta in
  (h <= 0 ->
     ringPlayer delta radius id player =
       (Player.with_health 0 player, [ (ToAll, Event.playerDied id (Some "ring"%string)) ])) /\
  (0 < h ->
     ringPlayer delta radius id player =
       (Player.with_health h player, [ (ToRoom id, Event.ringDamage h) ])).
Proof.
  intros Hpos Hout h. unfold ringPlayer.
  apply Qlt_bool_iff in Hpos. rewrite Hpos.
  apply Qlt_bool_iff in Hout. rewrite Hout. fold h. split; intro Hh.
  - apply Qle_bool_iff in Hh. now rewrite Hh.
  - apply Qle_bool_false_iff in Hh. now rewrite Hh.
Qed.

(** C1 (the code departs from the claim).  After [floor_run] the game has
    started, the radius is 5 and player [a] is alive at distance
    [sqrt 125 > 5] from the center, yet the next tick, 0.1 s later, leaves
    the whole world as it is and emits nothing: no [5 * delta] is
    subtracted. *)
Theorem ring_damage_stops_at_floor :
  let s := run (boot 0) floor_run in
  gameStarted (gameState s) = true /\
  ringRadius (gameState s) = 5 /\
  players_get "a" (players (gameState s)) = Some (Player.mk "a" 10 5 0 100 true "Player0") /\
  5 * 5 < sq2 10 5 /\
  tick 420100 s = (mkServer (gameState s) 420100, []).
Proof.
  vm_compute. repeat split; reflexivity.
Qed.

(** ** The tick loop: fire zones *)

Lemma burnLoop_get delta fire id ps :
  players_get id (fst (burnLoop delta fire ps)) =
  option_map (fun q => fst (burnPlayer delta fire id q)) (players_get id ps).
Proof.
  induction ps as [|[k q] ps IH]; [reflexivity|].
  cbn [burnLoop players_get].
  destruct (burnPlayer delta fire k q) as [q' ev] eqn:Eq.
  destruct (burnLoop delta fire ps) as [rest' evs].
  cbn [fst players_get] in *.
  destruct (String.eqb id k) eqn:E.
  - apply String.eqb_eq in E. subst k. cbn [option_map]. now rewrite Eq.
  - exact IH.
Qed.

Lemma fireLoop_get delta fires id ps :
  players_get id (snd (fst (fst (fireLoop delta fires ps)))) =
  option_map (burnAll delta fires id) (players_get id ps).
Proof.
  revert ps. induction fires as [|fire rest IH]; intro ps.
  - cbn. now destruct (players_get id ps).
  - cbn [fireLoop]. unfold burnAll. cbn [fold_left].
    destruct (Qle_bool (FireZone.timeLeft (age fire)) 0) eqn:Et.
    + specialize (IH ps).
      destruct (fireLoop delta rest ps) as [[[rest' ps'] rms] evs].
      cbn [fst snd] in *. exact IH.
    + pose proof (burnLoop_get delta (age fire) id ps) as Hb.
      destruct (burnLoop delta (age fire) ps) as [ps1 ev]. cbn [fst] in Hb.
      specialize (IH ps1).
      destruct (fireLoop delta rest ps1) as [[[rest' ps2] rms] evs].
      cbn [fst snd] in *.
      rewrite IH, Hb. now destruct (players_get id ps).
Qed.

Lemma fireStep_players delta g :
  players (fst (fireStep delta g)) =
  snd (fst (fst (fireLoop delta (fireZones g) (players g)))).
Proof.
  unfold fireStep.
  destruct (fireLoop delta (fireZones g) (players g)) as [[[fires ps] rms] evs].
  now destruct rms.
Qed.

(** C2 (the code departs from the claim).  With delta = 0.1 s both zones
    burn the player in the same tick: the stored health is 97, below the
    [100 - 15 * 0.1] a single application would leave.  The same happens in
    a run from boot in which player [b] throws two molotovs on player [a]:
    the tick sends [a] two [fireDamage] notes, 98.5 and then 97. *)
Theorem fire_overlap_double_damage :
  players_get "a" (players overlap_demo) = Some (Player.mk "a" 1 1 0 100 true "Player1") /\
  (exists player',
     players_get "a" (players (fst (fireStep (1 # 10) overlap_demo))) = Some player' /\
     Player.health player' == 97 /\
     ~ (100 - 15 * (1 # 10) <= Player.health player')) /\
  let s := run (boot 0) overlap_run in
  map FireZone.id (fireZones (gameState s)) = [ "fire-b-5"%string; "fire-b-6"%string ] /\
  players_get "a" (players (gameState s)) = Some (Player.mk "a" 10 5 0 100 true "Player0") /\
  (exists h1 h2,
     snd (tick 100 s) = [ (ToRoom "a"%string, Event.fireDamage h1);
                          (ToRoom "a"%string, Event.fireDamage h2) ] /\
     h1 == 100 - 15 * (1 # 10) /\ h2 == 100 - 2 * (15 * (1 # 10))) /\
  exists player',
    players_get "a" (players (gameState (fst (tick 100 s)))) = Some player' /\
    Player.health player' == 97.
Proof.
  split; [reflexivity|]. split.
  - eexists. split; [vm_compute; reflexivity|].
    split; [reflexivity|]. vm_compute. intro H. now apply H.
  - cbv zeta. split; [vm_compute; reflexivity|]. split; [vm_compute; reflexivity|]. split.
    + eexists _, _. split; [vm_compute; reflexivity|]. split; reflexivity.
    + eexists. split; [vm_compute; reflexivity|]. reflexivity.
Qed.

(** ** The tick loop: projectiles *)

(** A wall collision is exclusive: the projectile is pushed once on the
    removal list, the player loop is skipped and nothing is emitted. *)
Lemma stepProjectile_wall (delta : Q) (pr : Projectile.t) (ps : PlayerMap) :
  checkWallCollision (Projectile.x (advance delta pr)) (Projectile.z (advance delta pr)) = true ->
  stepProjectile delta pr ps = (advance delta pr, ps, [ Projectile.id pr ], []).
Proof.
  intro H. unfold stepProjectile. now rewrite H.
Qed.

(** C3 (the code departs from the claim).  After [edge_run] the next tick
    removes the pellet for two causes at once -- it hits player [a] and it
    is outside the map -- so its id is pushed twice and the batch that is
    broadcast holds it twice. *)
Theorem projectile_removed_twice :
  snd (tick 1020 (run (boot 1000) edge_run)) =
  [ (ToAll, Event.playerHit "a" 90 "b-1010-0" "b");
    (ToAll, Event.projectilesRemoved [ "b-1010-0"%string; "b-1010-0"%string ]) ].
Proof.
  vm_compute. reflexivity.
Qed.

(** ** What the tick loops preserve

    Every loop of the tick touches a player only by replacing the health
    of a living player with the clamped difference [clamp0 (health - d)],
    for a damage [d] of that loop.  A property of table entries that
    survives such a replacement therefore survives the loops. *)

Lemma clamp0_nonneg (h : Q) : 0 <= clamp0 h.
Proof.
  unfold clamp0. destruct (Qle_bool h 0) eqn:E; [lra|].
  apply Qle_bool_false_iff in E. lra.
Qed.

Lemma clamp0_le (h b : Q) : 0 <= b -> h <= b -> clamp0 h <= b.
Proof.
  intros Hb Hh. unfold clamp0. destruct (Qle_bool h 0); assumption.
Qed.

Section Stability.
Variable P : string -> Player.t -> Prop.
Variable D : Q -> Prop.
Hypothesis P_stable :
  forall k p d, P k p -> D d -> 0 < Player.health p ->
                P k (Player.with_health (clamp0 (Player.health p - d)) p).

Lemma ringPlayer_stable delta radius k p :
  D (5 * delta) -> P k p -> P k (fst (ringPlayer delta radius k p)).
Proof.
  intros Hd Hp. unfold ringPlayer.
  destruct (Qlt_bool 0 (Player.health p)) eqn:Ea; [|exact Hp].
  destruct (Qlt_bool radius _); [|exact Hp].
  apply Qlt_bool_iff in Ea.
  pose proof (P_stable k p (5 * delta) Hp Hd Ea) as H. unfold clamp0 in H.
  destruct (Qle_bool (Player.health p - 5 * delta) 0); exact H.
Qed.

Lemma ringLoop_stable delta radius ps :
  D (5 * delta) -> allP P ps -> allP P (fst (ringLoop delta radius ps)).
Proof.
  intros Hd. induction ps as [|[k p] ps IH]; intro H; [constructor|].
  inversion H as [|? ? Hp Hps]; subst. cbn [ringLoop].
  pose proof (ringPlayer_stable delta radius k p Hd Hp) as Hk.
  destruct (ringPlayer delta radius k p) as [p' ev].
  specialize (IH Hps). destruct (ringLoop delta radius ps) as [rest' evs].
  constructor; assumption.
Qed.

Lemma burnPlayer_stable delta fire k p :
  D (15 * delta) -> P k p -> P k (fst (burnPlayer delta fire k p)).
Proof.
  intros Hd Hp. unfold burnPlayer.
  destruct (Qlt_bool 0 (Player.health p)) eqn:Ea; [|exact Hp].
  destruct (Qlt_bool _ (FireZone.radius fire)); [|exact Hp].
  apply Qlt_bool_iff in Ea.
  pose proof (P_stable k p (15 * delta) Hp Hd Ea) as H. unfold clamp0 in H.
  destruct (Qle_bool (Player.health p - 15 * delta) 0); exact H.
Qed.

Lemma burnLoop_stable delta fire ps :
  D (15 * delta) -> allP P ps -> allP P (fst (burnLoop delta fire ps)).
Proof.
  intros Hd. induction ps as [|[k p] ps IH]; intro H; [constructor|].
  inversion H as [|? ? Hp Hps]; subst. cbn [burnLoop].
  pose proof (burnPlayer_stable delta fire k p Hd Hp) as Hk.
  destruct (burnPlayer delta fire k p) as [p' ev].
  specialize (IH Hps). destruct (burnLoop delta fire ps) as [rest' evs].
  constructor; assumption.
Qed.

Lemma fireLoop_stable delta fires ps :
  D (15 * delta) -> allP P ps -> allP P (snd (fst (fst (fireLoop delta fires ps)))).
Proof.
  intros Hd. revert ps. induction fires as [|fire rest IH]; intros ps H; [exact H|].
  cbn [fireLoop].
  destruct (Qle_bool (FireZone.timeLeft (age fire)) 0).
  - specialize (IH ps H).
    destruct (fireLoop delta rest ps) as [[[rest' ps'] rms] evs]. exact IH.
  - pose proof (burnLoop_stable delta (age fire) ps Hd H) as H1.
    destruct (burnLoop delta (age fire) ps) as [ps1 ev].
    specialize (IH ps1 H1).
    destruct (fireLoop delta rest ps1) as [[[rest' ps2] rms] evs]. exact IH.
Qed.

Lemma hitLoop_stable pr ps :
  D (Projectile.damage pr) -> allP P ps -> allP P (fst (fst (hitLoop pr ps))).
Proof.
  intros Hd. induction ps as [|[k p] ps IH]; intro H; [constructor|].
  inversion H as [|? ? Hp Hps]; subst. cbn [hitLoop].
  destruct (negb (String.eqb k (Projectile.ownerId pr))); cbn [andb].
  2:{ specialize (IH Hps). destruct (hitLoop pr ps) as [[rest' evs] b].
      constructor; assumption. }
  destruct (Qlt_bool 0 (Player.health p)) eqn:Ea; cbn [andb].
  2:{ specialize (IH Hps). destruct (hitLoop pr ps) as [[rest' evs] b].
      constructor; assumption. }
  destruct (Qlt_bool _ (F64.round (7 # 10))).
  2:{ specialize (IH Hps). destruct (hitLoop pr ps) as [[rest' evs] b].
      constructor; assumption. }
  apply Qlt_bool_iff in Ea.
  pose proof (P_stable k p (Projectile.damage pr) Hp Hd Ea) as Hk. unfold clamp0 in Hk.
  destruct (Qle_bool (Player.health p - Projectile.damage pr) 0);
    constructor; assumption.
Qed.

Lemma projectileLoop_stable delta prs ps :
  Forall (fun pr => D (Projectile.damage pr)) prs -> allP P ps ->
  allP P (snd (fst (fst (projectileLoop delta prs ps)))).
Proof.
  revert ps. induction prs as [|pr rest IH]; intros ps Hd H; [exact H|].
  inversion Hd as [|? ? Hpr Hrest]; subst.
  cbn [projectileLoop]. unfold stepProjectile.
  destruct (checkWallCollision _ _).
  - specialize (IH ps Hrest H).
    destruct (projectileLoop delta rest ps) as [[[rest' ps2] rms] evs]. exact IH.
  - pose proof (hitLoop_stable (advance delta pr) ps Hpr H) as H1.
    destruct (hitLoop (advance delta pr) ps) as [[ps1 ev] hit].
    specialize (IH ps1 Hrest H1).
    destruct (projectileLoop delta rest ps1) as [[[rest' ps2] rms] evs]. exact IH.
Qed.
End Stability.

Lemma ringStep_players delta g :
  players (fst (ringStep delta g)) = players g \/
  exists radius, players (fst (ringStep delta g)) = fst (ringLoop delta radius (players g)).
Proof.
  unfold ringStep. destruct (gameStarted g && Qlt_bool 5 (ringRadius g)); [|now left].
  right. exists (Qmax 5 (80 - (7 * 60 - (ringTimer g - delta)) * shrinkRate)).
  destruct (ringLoop delta _ (players g)) as [ps evs]. reflexivity.
Qed.

Lemma projectileStep_players delta g :
  players (fst (projectileStep delta g)) =
  snd (fst (fst (projectileLoop delta (projectiles g) (players g)))).
Proof.
  unfold projectileStep.
  destruct (projectileLoop delta (projectiles g) (players g)) as [[[prs ps] rms] evs].
  now destruct rms.
Qed.

Lemma ringStep_projectiles delta g : projectiles (fst (ringStep delta g)) = projectiles g.
Proof.
  unfold ringStep. destruct (gameStarted g && Qlt_bool 5 (ringRadius g)); [|reflexivity].
  destruct (ringLoop delta _ (players g)) as [ps evs]. reflexivity.
Qed.

Lemma projectileLoop_projectiles delta prs ps :
  fst (fst (fst (projectileLoop delta prs ps))) = map (advance delta) prs.
Proof.
  revert ps. induction prs as [|pr rest IH]; intro ps; [reflexivity|].
  cbn [projectileLoop map]. unfold stepProjectile.
  destruct (checkWallCollision _ _).
  - specialize (IH ps).
    destruct (projectileLoop delta rest ps) as [[[rest' ps2] rms] evs].
    cbn [fst] in *. now rewrite IH.
  - destruct (hitLoop (advance delta pr) ps) as [[ps1 ev] hit].
    specialize (IH ps1).
    destruct (projectileLoop delta rest ps1) as [[[rest' ps2] rms] evs].
    cbn [fst] in *. now rewrite IH.
Qed.

Lemma projectileStep_projectiles delta g pr :
  In pr (projectiles (fst (projectileStep delta g))) ->
  In pr (map (advance delta) (projectiles g)).
Proof.
  unfold projectileStep.
  pose proof (projectileLoop_projectiles delta (projectiles g) (players g)) as H.
  destruct (projectileLoop delta (projectiles g) (players g)) as [[[prs ps] rms] evs].
  cbn [fst] in H. subst prs.
  destruct rms; cbn [fst projectiles]; [tauto|].
  intro Hin. now apply filter_In in Hin.
Qed.

Lemma fireStep_projectiles delta g : projectiles (fst (fireStep delta g)) = projectiles g.
Proof.
  unfold fireStep.
  destruct (fireLoop delta (fireZones g) (players g)) as [[[fires ps] rms] evs].
  now destruct rms.
Qed.

Lemma tickBody_fst now delta g :
  fst (tickBody now delta g) =
  fst (fireStep delta (fst (projectileStep delta (fst (ringStep delta g))))).
Proof.
  unfold tickBody.
  destruct (ringStep delta g) as [g1 ev1]. cbn [fst].
  destruct (projectileStep delta g1) as [g3 ev3]. cbn [fst].
  destruct (fireStep delta g3) as [g4 ev4]. reflexivity.
Qed.

(** The damage carried by the projectiles in flight is never changed by a
    tick. *)
Lemma tickBody_projectiles (R : Q -> Prop) now delta g :
  Forall (fun pr => R (Projectile.damage pr)) (projectiles g) ->
  Forall (fun pr => R (Projectile.damage pr)) (projectiles (fst (tickBody now delta g))).
Proof.
  intro H. rewrite tickBody_fst, fireStep_projectiles.
  apply Forall_forall. intros pr Hin.
  apply projectileStep_projectiles in Hin. rewrite ringStep_projectiles in Hin.
  apply in_map_iff in Hin. destruct Hin as (pr0 & <- & Hin0).
  rewrite Forall_forall in H. exact (H pr0 Hin0).
Qed.

Section TickStability.
Variable P : string -> Player.t -> Prop.
Variable D : Q -> Prop.
Hypothesis P_stable :
  forall k p d, P k p -> D d -> 0 < Player.health p ->
                P k (Player.with_health (clamp0 (Player.health p - d)) p).

Lemma ringStep_stable delta g :
  D (5 * delta) -> allP P (players g) -> allP P (players (fst (ringStep delta g))).
Proof.
  intros Hd H. destruct (ringStep_players delta g) as [E | [radius E]]; rewrite E.
  - exact H.
  - now apply (ringLoop_stable P D P_stable).
Qed.

Lemma projectileStep_stable delta g :
  Forall (fun pr => D (Projectile.damage pr)) (projectiles g) ->
  allP P (players g) -> allP P (players (fst (projectileStep delta g))).
Proof.
  intros Hd H. rewrite projectileStep_players.
  now apply (projectileLoop_stable P D P_stable).
Qed.

Lemma fireStep_stable delta g :
  D (15 * delta) -> allP P (players g) -> allP P (players (fst (fireStep delta g))).
Proof.
  intros Hd H. rewrite fireStep_players.
  now apply (fireLoop_stable P D P_stable).
Qed.

Lemma tickBody_stable now delta g :
  D (5 * delta) -> D (15 * delta) ->
  Forall (fun pr => D (Projectile.damage pr)) (projectiles g) ->
  allP P (players g) -> allP P (players (fst (tickBody now delta g))).
Proof.
  intros H5 H15 Hpr H. rewrite tickBody_fst.
  apply fireStep_stable; [exact H15|].
  apply projectileStep_stable.
  - now rewrite ringStep_projectiles.
  - now apply ringStep_stable.
Qed.
End TickStability.

(** ** Health bounds along a run *)

Lemma allP_set (P : string -> Player.t -> Prop) sid p ps :
  (forall k, P k p) -> allP P ps -> allP P (players_set sid p ps).
Proof.
  intros Hp H. apply Forall_forall. intros [k q] Hin.
  destruct (players_set_In _ _ _ _ Hin) as [Hold | Hnew].
  - unfold allP in H. rewrite Forall_forall in H. exact (H _ Hold).
  - cbn in Hnew. subst q. apply Hp.
Qed.

Lemma allP_delete (P : string -> Player.t -> Prop) sid ps :
  allP P ps -> allP P (players_delete sid ps).
Proof.
  intro H. apply Forall_forall. intros kq Hin.
  apply players_delete_In in Hin.
  unfold allP in H. rewrite Forall_forall in H. exact (H _ Hin).
Qed.

Lemma allP_get (P : string -> Player.t -> Prop) k p ps :
  allP P ps -> players_get k ps = Some p -> P k p.
Proof.
  intro H. induction ps as [|[k' q] ps IH]; cbn [players_get]; [discriminate|].
  inversion H as [|? ? Hq Hps]; subst.
  destruct (String.eqb k k') eqn:E.
  - apply String.eqb_eq in E. subst k'. intro Hs. injection Hs as <-. exact Hq.
  - now apply IH.
Qed.

(** What a command does to the player table: nothing, a removal, or a
    replacement of the sender's entry whose health is kept, reset to 100,
    or reduced by [takeDamage]. *)
Lemma handle_players sid e c g :
  let ps' := players (fst (handle sid e c g)) in
  ps' = players g \/
  ps' = players_delete sid (players g) \/
  exists p p',
    players_get sid (players g) = Some p /\
    ps' = players_set sid p' (players g) /\
    (Player.health p' = Player.health p \/
     Player.health p' = 100 \/
     exists amount from,
       c = takeDamage amount from /\ 0 < Player.health p /\
       Player.health p' = Qmax 0 (Player.health p - amount)).
Proof.
  destruct c; cbn [handle].
  - unfold on_move. destruct (players_get sid (players g)) as [p|] eqn:Hget; [|now left].
    destruct (Qlt_bool _ 2); [|now left].
    right; right. eexists p, _. split; [reflexivity|]. split; [reflexivity|]. now left.
  - unfold on_shoot. destruct (players_get sid (players g)) as [p|]; [|now left].
    destruct (Qle_bool (Player.health p) 0); now left.
  - unfold on_molotov. destruct (players_get sid (players g)) as [p|]; [|now left].
    destruct (Qle_bool (Player.health p) 0); now left.
  - unfold on_toggleFlashlight.
    destruct (players_get sid (players g)) as [p|] eqn:Hget; [|now left].
    right; right. eexists p, _. split; [reflexivity|]. split; [reflexivity|]. now left.
  - unfold on_takeDamage.
    destruct (players_get sid (players g)) as [p|] eqn:Hget; [|now left].
    destruct (Qlt_bool 0 (Player.health p)) eqn:Ea; [|now left].
    apply Qlt_bool_iff in Ea.
    right; right. eexists p, _. split; [reflexivity|]. split; [reflexivity|].
    right; right. eexists _, _. split; [reflexivity|]. split; [exact Ea | reflexivity].
  - unfold on_respawn.
    destruct (players_get sid (players g)) as [p|] eqn:Hget; [|now left].
    destruct (Qle_bool (Player.health p) 0); [|now left].
    right; right. eexists p, _. split; [reflexivity|]. split; [reflexivity|].
    right; now left.
  - unfold on_chat. destruct (players_get sid (players g)) as [p|]; now left.
  - right; now left.
Qed.

Lemma handle_projectiles sid e c g :
  projectiles (fst (handle sid e c g)) = projectiles g \/
  exists shots,
    c = shoot shots /\
    projectiles (fst (handle sid e c g)) = (projectiles g ++ stamp sid (now e) 0 shots)%list.
Proof.
  destruct c; cbn [handle]; try (now left).
  - unfold on_move. destruct (players_get sid (players g)) as [p|]; [|now left].
    destruct (Qlt_bool _ 2); now left.
  - unfold on_shoot. destruct (players_get sid (players g)) as [p|]; [|now left].
    destruct (Qle_bool (Player.health p) 0); [now left|].
    right. now exists shots.
  - unfold on_molotov. destruct (players_get sid (players g)) as [p|]; [|now left].
    destruct (Qle_bool (Player.health p) 0); now left.
  - unfold on_toggleFlashlight. destruct (players_get sid (players g)) as [p|]; now left.
  - unfold on_takeDamage. destruct (players_get sid (players g)) as [p|]; [|now left].
    destruct (Qlt_bool 0 (Player.health p)); now left.
  - unfold on_respawn. destruct (players_get sid (players g)) as [p|]; [|now left].
    destruct (Qle_bool (Player.health p) 0); now left.
  - unfold on_chat. destruct (players_get sid (players g)) as [p|]; now left.
Qed.

Lemma stamp_damage (R : Q -> Prop) sid t i shots :
  Forall (fun p => R (Shot.damage p)) shots ->
  Forall (fun pr => R (Projectile.damage pr)) (stamp sid t i shots).
Proof.
  revert i. induction shots as [|p rest IH]; intros i H; [constructor|].
  inversion H; subst. cbn [stamp]. constructor; auto.
Qed.

Lemma step_nonneg_health s i : nonneg_health s -> nonneg_health (fst (step s i)).
Proof.
  unfold nonneg_health. intro H. destruct i as [sid r1 r2 | sid e c | t]; cbn [step].
  - unfold on_connection. cbn [fst gameState players].
    apply allP_set; [|exact H]. intros _. cbn. lra.
  - pose proof (handle_players sid e c (gameState s)) as Hp.
    destruct (handle sid e c (gameState s)) as [g evs]. cbn [fst gameState] in *.
    destruct Hp as [-> | [-> | (p & p' & Hget & -> & Hh)]].
    + exact H.
    + now apply allP_delete.
    + apply allP_set; [|exact H]. intros _.
      pose proof (allP_get _ _ _ _ H Hget) as Hp. cbn in Hp.
      destruct Hh as [-> | [-> | (amount & from & _ & _ & ->)]].
      * exact Hp.
      * lra.
      * apply Q.le_max_l.
  - unfold tick.
    pose proof (tickBody_stable (fun _ p => 0 <= Player.health p) (fun _ => True)) as Ht.
    specialize (Ht (fun k p d _ _ _ => clamp0_nonneg _) t
                   (inject_Z (t - lastTick s) / 1000) (gameState s) I I).
    destruct (tickBody t _ (gameState s)) as [g evs]. cbn [fst gameState] in *.
    apply Ht; [|exact H]. apply Forall_forall. intros; exact I.
Qed.

Lemma delta_nonneg (s : Server) (t : Z) :
  (lastTick s <= t)%Z -> 0 <= inject_Z (t - lastTick s) / 1000.
Proof.
  intro H.
  assert (Hz : 0 <= inject_Z (t - lastTick s)).
  { change 0 with (inject_Z 0). rewrite <- Zle_Qle. lia. }
  unfold Qdiv. apply Qmult_le_0_compat; [exact Hz|]. vm_compute. discriminate.
Qed.

Lemma step_bounded_health s i :
  bounded_health s -> clock_ok s i -> harmless i -> bounded_health (fst (step s i)).
Proof.
  unfold bounded_health. intros [H Hpr] Hclock Hharm.
  destruct i as [sid r1 r2 | sid e c | t]; cbn [step].
  - unfold on_connection. cbn [fst gameState players projectiles]. split; [|exact Hpr].
    apply allP_set; [|exact H]. intros _. cbn. lra.
  - pose proof (handle_players sid e c (gameState s)) as Hp.
    pose proof (handle_projectiles sid e c (gameState s)) as Hq.
    destruct (handle sid e c (gameState s)) as [g evs]. cbn [fst gameState] in *.
    split.
    + destruct Hp as [-> | [-> | (p & p' & Hget & -> & Hh)]].
      * exact H.
      * now apply allP_delete.
      * apply allP_set; [|exact H]. intros _.
        pose proof (allP_get _ _ _ _ H Hget) as Hp. cbn in Hp.
        destruct Hh as [-> | [-> | (amount & from & -> & Hpos & ->)]].
        -- exact Hp.
        -- lra.
        -- cbn in Hharm. split; [apply Q.le_max_l|].
           apply Q.max_lub; lra.
    + destruct Hq as [-> | (shots & -> & ->)]; [exact Hpr|].
      apply Forall_app. split; [exact Hpr|].
      cbn in Hharm. now apply (stamp_damage (fun d => 0 <= d)).
  - unfold tick. cbn in Hclock. pose proof (delta_nonneg s t Hclock) as Hdelta.
    set (delta := inject_Z (t - lastTick s) / 1000) in *.
    pose proof (tickBody_stable (fun _ p => 0 <= Player.health p <= 100)
                                (fun d => 0 <= d)) as Ht.
    assert (Hst : forall (k : string) p d,
               0 <= Player.health p <= 100 -> 0 <= d -> 0 < Player.health p ->
               0 <= Player.health (Player.with_health (clamp0 (Player.health p - d)) p) <= 100).
    { intros k p d Hb Hd Hpos. cbn. split; [apply clamp0_nonneg|].
      apply clamp0_le; lra. }
    specialize (Ht Hst t delta (gameState s)).
    pose proof (tickBody_projectiles (fun d => 0 <= d) t delta (gameState s) Hpr) as Hpr'.
    destruct (tickBody t delta (gameState s)) as [g evs]. cbn [fst gameState] in *.
    split; [|exact Hpr'].
    apply Ht; [lra | lra | exact Hpr | exact H].
Qed.

Lemma run_nonneg_health s inputs : nonneg_health s -> nonneg_health (run s inputs).
Proof.
  revert s. induction inputs as [|i rest IH]; intros s H; [exact H|].
  cbn [run]. apply IH. now apply step_nonneg_health.
Qed.

Lemma run_bounded_health s inputs :
  bounded_health s ->
  run_ok (fun s i => clock_ok s i /\ harmless i) s inputs ->
  bounded_health (run s inputs).
Proof.
  revert s. induction inputs as [|i rest IH]; intros s H Hok; [exact H|].
  cbn [run]. destruct Hok as [[Hc Hh] Hrest].
  apply IH; [|exact Hrest]. now apply step_bounded_health.
Qed.

(** C9 (as stated, refuted).  A client may send a negative amount:
    [takeDamage {amount: -50}] right after connecting leaves the player
    with health 150. *)
Lemma health_above_100 :
  exists player,
    players_get "a" (players (gameState
      (run (boot 0) [ Connection "a" 0 0;
                      Message "a" (mkEnv (fun _ => 5%Z) 0) (takeDamage (-50) None) ]))) = Some player /\
    Player.health player = 150 /\ ~ (Player.health player <= 100).
Proof.
  eexists. split; [vm_compute; reflexivity|]. split; [reflexivity|].
  vm_compute. intro H. now apply H.
Qed.

(** C9 (amended).  Stored health is never negative: this holds in every
    state reached from boot and is preserved by the connection handler, by
    every command and by every tick.  Health stays within [0, 100] as long
    as no [takeDamage] amount and no projectile damage sent by a client is
    negative and the clock does not run backwards between ticks. *)
Theorem health_bounds :
  (forall s i, nonneg_health s -> nonneg_health (fst (step s i))) /\
  (forall s i, bounded_health s -> clock_ok s i -> harmless i ->
               bounded_health (fst (step s i))) /\
  (forall t0 inputs id player,
     players_get id (players (gameState (run (boot t0) inputs))) = Some player ->
     0 <= Player.health player /\
     (run_ok (fun s i => clock_ok s i /\ harmless i) (boot t0) inputs ->
      Player.health player <= 100)).
Proof.
  split; [exact step_nonneg_health|]. split; [exact step_bounded_health|].
  intros t0 inputs id player Hget. split.
  - assert (H0 : nonneg_health (boot t0)) by constructor.
    pose proof (run_nonneg_health _ inputs H0) as H.
    exact (allP_get _ _ _ _ H Hget).
  - intro Hok.
    assert (H0 : bounded_health (boot t0)) by (split; constructor).
    destruct (run_bounded_health _ inputs H0 Hok) as [H _].
    exact (proj2 (allP_get _ _ _ _ H Hget)).
Qed.

Lemma health_bounds_witness :
  players_get "a" (players (gameState (run (boot 0) bounds_run)))
    = Some (Player.mk "a" 10 5 0 25 true "Player0") /\
  0 <= 25 <= 100.
Proof.
  assert (Hget : players_get "a" (players (gameState (run (boot 0) bounds_run)))
                 = Some (Player.mk "a" 10 5 0 25 true "Player0"))
    by (vm_compute; reflexivity).
  split; [exact Hget|].
  destruct (proj2 (proj2 health_bounds) 0%Z bounds_run "a"%string _ Hget) as [Hlo Hhi].
  split; [exact Hlo|]. apply Hhi.
  cbn. repeat split; try lia; try lra.
  - repeat constructor. cbn. lra.
Defined.

(** ** The safe zone along a run *)

Lemma run_app s a b : run s (a ++ b) = run (run s a) b.
Proof.
  revert s. induction a as [|i a IH]; intro s; [reflexivity|]. cbn [run app]. apply IH.
Qed.

Lemma run_ok_app ok s a b :
  run_ok ok s (a ++ b) <-> run_ok ok s a /\ run_ok ok (run s a) b.
Proof.
  revert s. induction a as [|i a IH]; intro s; cbn [run_ok run app]; [tauto|].
  rewrite IH. tauto.
Qed.

Lemma handle_ring sid e c g : ringOf (fst (handle sid e c g)) = ringOf g.
Proof.
  destruct c; cbn [handle].
  - unfold on_move. destruct (players_get sid (players g)) as [p|]; [|reflexivity].
    destruct (Qlt_bool _ 2); reflexivity.
  - unfold on_shoot. destruct (players_get sid (players g)) as [p|]; [|reflexivity].
    destruct (Qle_bool (Player.health p) 0); reflexivity.
  - unfold on_molotov. destruct (players_get sid (players g)) as [p|]; [|reflexivity].
    destruct (Qle_bool (Player.health p) 0); reflexivity.
  - unfold on_toggleFlashlight. destruct (players_get sid (players g)) as [p|]; reflexivity.
  - unfold on_takeDamage. destruct (players_get sid (players g)) as [p|]; [|reflexivity].
    destruct (Qlt_bool 0 (Player.health p)); reflexivity.
  - unfold on_respawn. destruct (players_get sid (players g)) as [p|]; [|reflexivity].
    destruct (Qle_bool (Player.health p) 0); reflexivity.
  - unfold on_chat. destruct (players_get sid (players g)) as [p|]; reflexivity.
  - reflexivity.
Qed.

Lemma projectileStep_ring delta g : ringOf (fst (projectileStep delta g)) = ringOf g.
Proof.
  unfold projectileStep.
  destruct (projectileLoop delta (projectiles g) (players g)) as [[[prs ps] rms] evs].
  now destruct rms.
Qed.

Lemma fireStep_ring delta g : ringOf (fst (fireStep delta g)) = ringOf g.
Proof.
  unfold fireStep.
  destruct (fireLoop delta (fireZones g) (players g)) as [[[fires ps] rms] evs].
  now destruct rms.
Qed.

Lemma ringStep_ring delta g :
  ringOf (fst (ringStep delta g)) =
  if gameStarted g && Qlt_bool 5 (ringRadius g) then
    (Qmax 5 (80 - (7 * 60 - (ringTimer g - delta)) * shrinkRate),
     ringTimer g - delta, gameStarted g)
  else ringOf g.
Proof.
  unfold ringStep. destruct (gameStarted g && Qlt_bool 5 (ringRadius g)); [|reflexivity].
  destruct (ringLoop delta _ (players g)) as [ps evs]. reflexivity.
Qed.

Lemma tick_ring t s :
  ringOf (gameState (fst (tick t s))) =
  ringOf (fst (ringStep (inject_Z (t - lastTick s) / 1000) (gameState s))) /\
  lastTick (fst (tick t s)) = t.
Proof.
  unfold tick.
  pose proof (tickBody_fst t (inject_Z (t - lastTick s) / 1000) (gameState s)) as H.
  destruct (tickBody t _ (gameState s)) as [g evs]. cbn [fst gameState lastTick] in *.
  subst g. now rewrite fireStep_ring, projectileStep_ring.
Qed.

Lemma radiusAt_cases timer : 5 < radiusAt timer \/ radiusAt timer = 5.
Proof.
  unfold radiusAt, Qmax, GenericMinMax.gmax.
  destruct (5 ?= _) eqn:E; [now right | | now right].
  left. now apply Qlt_alt.
Qed.

Lemma radiusAt_mono a b : a <= b -> radiusAt a <= radiusAt b.
Proof.
  intro H. unfold radiusAt. apply Q.max_le_compat_l.
  assert (Hr : 0 <= shrinkRate) by (vm_compute; discriminate).
  nra.
Qed.

Lemma radiusAt_expired timer : timer <= 0 -> radiusAt timer == 5.
Proof.
  intro H. unfold radiusAt. apply Q.max_l.
  assert (Hr : shrinkRate == 5 # 28) by reflexivity.
  rewrite Hr. lra.
Qed.

Lemma ring_inv_boot t0 : ring_inv (boot t0).
Proof.
  split; [left; reflexivity|]. split; reflexivity.
Qed.

Lemma step_ringOf_message s sid e c :
  ringOf (gameState (fst (step s (Message sid e c)))) = ringOf (gameState s) /\
  lastTick (fst (step s (Message sid e c))) = lastTick s.
Proof.
  cbn [step]. pose proof (handle_ring sid e c (gameState s)) as H.
  destruct (handle sid e c (gameState s)) as [g evs]. now cbn in *.
Qed.

Lemma step_ringOf_connection s sid r1 r2 :
  ringRadius (gameState (fst (step s (Connection sid r1 r2)))) = ringRadius (gameState s) /\
  ringTimer (gameState (fst (step s (Connection sid r1 r2)))) = ringTimer (gameState s) /\
  gameStarted (gameState (fst (step s (Connection sid r1 r2)))) = true /\
  lastTick (fst (step s (Connection sid r1 r2))) = lastTick s.
Proof.
  cbn. repeat split.
  destruct (gameStarted (gameState s)); cbn; [reflexivity|].
  destruct (players_set sid _ (players (gameState s))) eqn:E; [|reflexivity].
  exfalso. destruct (players (gameState s)) as [|[k p] m]; cbn in E; [discriminate|].
  destruct (String.eqb sid k); discriminate.
Qed.

Lemma step_ring_inv s i : ring_inv s -> ring_inv (fst (step s i)).
Proof.
  intros (Hc & He & H0). destruct i as [sid r1 r2 | sid e c | t].
  - destruct (step_ringOf_connection s sid r1 r2) as (Er & Et & Eg & _).
    unfold ring_inv. rewrite Er, Et, Eg. repeat split; try assumption. discriminate.
  - destruct (step_ringOf_message s sid e c) as [E _].
    set (s' := fst (step s (Message sid e c))) in *.
    unfold ringOf in E. injection E as Er Et Eg.
    unfold ring_inv. rewrite Er, Et, Eg. repeat split; assumption.
  - destruct (tick_ring t s) as [E _]. cbn [step].
    set (s' := fst (tick t s)) in *.
    rewrite ringStep_ring in E. unfold ring_inv.
    destruct (gameStarted (gameState s) && Qlt_bool 5 (ringRadius (gameState s))) eqn:G;
      unfold ringOf in E; injection E as Er Et Eg; rewrite Er, Et, Eg.
    + apply andb_true_iff in G. destruct G as [G _].
      split; [apply radiusAt_cases|]. split; [reflexivity|]. congruence.
    + repeat split; assumption.
Qed.

Lemma run_ring_inv s inputs : ring_inv s -> ring_inv (run s inputs).
Proof.
  revert s. induction inputs as [|i rest IH]; intros s H; [exact H|].
  cbn [run]. apply IH. now apply step_ring_inv.
Qed.

Lemma step_radius_le s i :
  ring_inv s -> clock_ok s i ->
  ringRadius (gameState (fst (step s i))) <= ringRadius (gameState s).
Proof.
  intros (Hc & He & H0) Hclock. destruct i as [sid r1 r2 | sid e c | t].
  - destruct (step_ringOf_connection s sid r1 r2) as (Er & _). rewrite Er. lra.
  - destruct (step_ringOf_message s sid e c) as [E _].
    set (s' := fst (step s (Message sid e c))) in *.
    unfold ringOf in E. injection E as Er _ _. rewrite Er. lra.
  - destruct (tick_ring t s) as [E _]. cbn [step].
    set (s' := fst (tick t s)) in *.
    rewrite ringStep_ring in E.
    destruct (gameStarted (gameState s) && Qlt_bool 5 (ringRadius (gameState s)));
      unfold ringOf in E; injection E as Er _ _; rewrite Er; [|lra].
    rewrite He. apply radiusAt_mono.
    pose proof (delta_nonneg s t Hclock). lra.
Qed.

Lemma run_radius_le s inputs :
  ring_inv s -> run_ok clock_ok s inputs ->
  ringRadius (gameState (run s inputs)) <= ringRadius (gameState s).
Proof.
  revert s. induction inputs as [|i rest IH]; intros s H Hok; cbn [run]; [lra|].
  destruct Hok as [Hi Hrest].
  eapply Qle_trans; [apply IH; [now apply step_ring_inv | exact Hrest]|].
  now apply step_radius_le.
Qed.



Lemma step_floor_stays s i :
  ringRadius (gameState s) = 5 -> ringRadius (gameState (fst (step s i))) = 5.
Proof.
  intro H5. destruct i as [sid r1 r2 | sid e c | t].
  - destruct (step_ringOf_connection s sid r1 r2) as (Er & _). now rewrite Er.
  - destruct (step_ringOf_message s sid e c) as [E _].
    set (s' := fst (step s (Message sid e c))) in *.
    unfold ringOf in E. injection E as Er _ _. now rewrite Er.
  - destruct (tick_ring t s) as [E _]. cbn [step].
    set (s' := fst (tick t s)) in *. rewrite ringStep_ring in E.
    assert (G : Qlt_bool 5 (ringRadius (gameState s)) = false)
      by (rewrite H5; reflexivity).
    rewrite G, andb_false_r in E. unfold ringOf in E. injection E as Er _ _.
    now rewrite Er.
Qed.

Lemma run_floor_stays s inputs :
  ringRadius (gameState s) = 5 -> ringRadius (gameState (run s inputs)) = 5.
Proof.
  revert s. induction inputs as [|i rest IH]; intros s H; [exact H|].
  cbn [run]. apply IH. now apply step_floor_stays.
Qed.

(** C4 (as stated, refuted).  [delta] is the difference of two readings of
    the clock; when the clock steps back between two ticks it is negative,
    the countdown goes up and the radius grows.  Here the second tick
    reads a time 10 s before the first: the radius goes from 1095/14 back
    to 80. *)
Lemma ring_radius_grows :
  let s1 := run (boot 0) [ Connection "a" 0 0; Tick 10000 ] in
  let s2 := run (boot 0) [ Connection "a" 0 0; Tick 10000; Tick 0 ] in
  ringRadius (gameState s1) == 1095 # 14 /\
  ringRadius (gameState s2) == 80 /\
  ~ ringRadius (gameState s2) <= ringRadius (gameState s1).
Proof.
  vm_compute. repeat split; try reflexivity. intro H. now apply H.
Qed.

(** C4 (amended).  The radius is 80, and the countdown 420 s, when the
    server boots.  Whatever inputs follow, the radius never is below 5, it
    is exactly 5 whenever the countdown is used up, and once it is 5 it
    stays 5.  A tick of a started game whose radius is above 5 takes
    [delta] off the countdown, and no other input changes the countdown.
    Along every run whose clock does not step back between ticks the
    radius never grows. *)
Theorem ring_radius_trajectory :
  (forall t0, ringRadius (gameState (boot t0)) = 80 /\
              ringTimer (gameState (boot t0)) = 7 * 60) /\
  (forall t0 inputs,
     let g := gameState (run (boot t0) inputs) in
     5 <= ringRadius g /\ (ringTimer g <= 0 -> ringRadius g = 5)) /\
  (forall t0 inputs more,
     ringRadius (gameState (run (boot t0) inputs)) = 5 ->
     ringRadius (gameState (run (boot t0) (inputs ++ more))) = 5) /\
  (forall s i,
     ringTimer (gameState (fst (step s i))) =
     match i with
     | Tick t =>
         if gameStarted (gameState s) && Qlt_bool 5 (ringRadius (gameState s))
         then ringTimer (gameState s) - inject_Z (t - lastTick s) / 1000
         else ringTimer (gameState s)
     | _ => ringTimer (gameState s)
     end) /\
  (forall t0 inputs more,
     run_ok clock_ok (boot t0) (inputs ++ more) ->
     ringRadius (gameState (run (boot t0) (inputs ++ more)))
       <= ringRadius (gameState (run (boot t0) inputs))).
Proof.
  split; [intro; split; reflexivity|]. split; [|split; [|split]].
  - intros t0 inputs g. subst g.
    pose proof (run_ring_inv _ inputs (ring_inv_boot t0)) as (Hc & He & _).
    split.
    + destruct Hc as [H | H]; [lra | rewrite H; lra].
    + intro Hexp. destruct Hc as [H | H]; [|exact H]. exfalso.
      pose proof (radiusAt_expired _ Hexp) as Hr. rewrite <- He in Hr. lra.
  - intros t0 inputs more H5. rewrite run_app. now apply run_floor_stays.
  - intros s i. destruct i as [sid r1 r2 | sid e c | t].
    + now destruct (step_ringOf_connection s sid r1 r2) as (_ & Et & _).
    + destruct (step_ringOf_message s sid e c) as [E _].
      set (s' := fst (step s (Message sid e c))) in *.
      unfold ringOf in E. now injection E as _ Et _.
    + destruct (tick_ring t s) as [E _]. cbn [step].
      set (s' := fst (tick t s)) in *. rewrite ringStep_ring in E.
      destruct (gameStarted (gameState s) && Qlt_bool 5 (ringRadius (gameState s)));
        unfold ringOf in E; now injection E as _ Et _.
  - intros t0 inputs more Hok.
    apply run_ok_app in Hok. destruct Hok as [_ Hmore].
    pose proof (run_ring_inv _ inputs (ring_inv_boot t0)) as Hinv.
    rewrite run_app. now apply run_radius_le.
Qed.

Lemma ring_radius_trajectory_witness :
  ringRadius (gameState (run (boot 0) [ Connection "a" 0 0; Tick 420000 ])) = 5 /\
  ringRadius (gameState (run (boot 0) ([ Connection "a" 0 0; Tick 420000 ] ++ [ Tick 0 ]))) = 5 /\
  ringRadius (gameState (run (boot 0) ([ Connection "a" 0 0; Tick 1000 ] ++ [ Tick 2000 ])))
    <= ringRadius (gameState (run (boot 0) [ Connection "a" 0 0; Tick 1000 ])).
Proof.
  assert (H5 : ringRadius (gameState (run (boot 0) [ Connection "a" 0 0; Tick 420000 ])) = 5).
  { apply (proj2 (proj1 (proj2 ring_radius_trajectory) 0%Z [ Connection "a" 0 0; Tick 420000 ])).
    vm_compute. discriminate. }
  split; [exact H5|]. split.
  - exact (proj1 (proj2 (proj2 ring_radius_trajectory)) 0%Z _ [ Tick 0 ] H5).
  - apply (proj2 (proj2 (proj2 (proj2 ring_radius_trajectory))) 0%Z
                 [ Connection "a" 0 0; Tick 1000 ] [ Tick 2000 ]).
    vm_compute. repeat split; discriminate.
Defined.

(** ** Fatal hits: what is broadcast and what is stored *)

Lemma ringLoop_keys delta radius ps : keys (fst (ringLoop delta radius ps)) = keys ps.
Proof.
  induction ps as [|[k p] ps IH]; [reflexivity|]. cbn [ringLoop].
  destruct (ringPlayer delta radius k p) as [p' ev].
  destruct (ringLoop delta radius ps) as [rest' evs]. cbn in *. now rewrite IH.
Qed.

Lemma burnLoop_keys delta fire ps : keys (fst (burnLoop delta fire ps)) = keys ps.
Proof.
  induction ps as [|[k p] ps IH]; [reflexivity|]. cbn [burnLoop].
  destruct (burnPlayer delta fire k p) as [p' ev].
  destruct (burnLoop delta fire ps) as [rest' evs]. cbn in *. now rewrite IH.
Qed.

Lemma fireLoop_keys delta fires ps :
  keys (snd (fst (fst (fireLoop delta fires ps)))) = keys ps.
Proof.
  revert ps. induction fires as [|fire rest IH]; intro ps; [reflexivity|].
  cbn [fireLoop]. destruct (Qle_bool (FireZone.timeLeft (age fire)) 0).
  - specialize (IH ps).
    destruct (fireLoop delta rest ps) as [[[rest' ps'] rms] evs]. exact IH.
  - pose proof (burnLoop_keys delta (age fire) ps) as Hk.
    destruct (burnLoop delta (age fire) ps) as [ps1 ev]. cbn [fst] in Hk.
    specialize (IH ps1).
    destruct (fireLoop delta rest ps1) as [[[rest' ps2] rms] evs].
    cbn [fst snd] in *. congruence.
Qed.

Lemma hitLoop_keys pr ps : keys (fst (fst (hitLoop pr ps))) = keys ps.
Proof.
  induction ps as [|[k p] ps IH]; [reflexivity|]. cbn [hitLoop].
  destruct (negb (String.eqb k (Projectile.ownerId pr)) && Qlt_bool 0 (Player.health p)
            && Qlt_bool _ (F64.round (7 # 10))).
  - destruct (Qle_bool _ 0); reflexivity.
  - destruct (hitLoop pr ps) as [[rest' evs] b]. cbn in *. now rewrite IH.
Qed.

Lemma projectileLoop_keys delta prs ps :
  keys (snd (fst (fst (projectileLoop delta prs ps)))) = keys ps.
Proof.
  revert ps. induction prs as [|pr rest IH]; intro ps; [reflexivity|].
  cbn [projectileLoop]. unfold stepProjectile.
  destruct (checkWallCollision _ _).
  - specialize (IH ps).
    destruct (projectileLoop delta rest ps) as [[[rest' ps2] rms] evs]. exact IH.
  - pose proof (hitLoop_keys (advance delta pr) ps) as Hk.
    destruct (hitLoop (advance delta pr) ps) as [[ps1 ev] hit]. cbn [fst] in Hk.
    specialize (IH ps1).
    destruct (projectileLoop delta rest ps1) as [[[rest' ps2] rms] evs].
    cbn [fst snd] in *. congruence.
Qed.

Lemma ringStep_keys delta g : keys (players (fst (ringStep delta g))) = keys (players g).
Proof.
  destruct (ringStep_players delta g) as [E | [radius E]]; rewrite E;
    [reflexivity | apply ringLoop_keys].
Qed.

Lemma tickBody_keys now delta g :
  keys (players (fst (tickBody now delta g))) = keys (players g).
Proof.
  rewrite tickBody_fst, fireStep_players, fireLoop_keys,
          projectileStep_players, projectileLoop_keys.
  apply ringStep_keys.
Qed.

Lemma players_get_key k ps : In k (keys ps) -> exists p, players_get k ps = Some p.
Proof.
  induction ps as [|[k' q] ps IH]; cbn; [tauto|].
  destruct (String.eqb k k') eqn:E; [eauto|].
  intros [H | H]; [|auto]. subst k'. now rewrite String.eqb_refl in E.
Qed.













(** *** Which loop emits which kind of message *)









(** *** The table never holds a key twice *)

Lemma players_set_keys_In k p m x :
  In x (keys (players_set k p m)) -> x = k \/ In x (keys m).
Proof.
  induction m as [|[k' p'] m IH]; cbn.
  - intros [<- | []]. now left.
  - destruct (String.eqb k k'); cbn; [tauto|].
    intros [<- | H]; [tauto|]. destruct (IH H); tauto.
Qed.

Lemma players_set_NoDup k p m : NoDup (keys m) -> NoDup (keys (players_set k p m)).
Proof.
  induction m as [|[k' p'] m IH]; cbn; intro H.
  - repeat constructor. tauto.
  - destruct (String.eqb k k') eqn:E; [exact H|].
    inversion H as [|? ? Hnot Hm]; subst. cbn. constructor; [|now apply IH].
    intro Hin. apply players_set_keys_In in Hin. destruct Hin as [-> | Hin]; [|tauto].
    now rewrite String.eqb_refl in E.
Qed.

Lemma players_delete_NoDup k m : NoDup (keys m) -> NoDup (keys (players_delete k m)).
Proof.
  unfold players_delete.
  induction m as [|[k' p'] m IH]; cbn; intro H; [constructor|].
  inversion H as [|? ? Hnot Hm]; subst.
  destruct (negb (String.eqb k k')); cbn; [|now apply IH].
  constructor; [|now apply IH].
  intro Hin. apply Hnot. unfold keys in Hin. apply in_map_iff in Hin.
  destruct Hin as ([k0 q] & <- & Hin). apply filter_In in Hin.
  destruct Hin as [Hin _]. now apply (in_map fst) in Hin.
Qed.

Lemma step_keys_NoDup s i :
  NoDup (keys (players (gameState s))) ->
  NoDup (keys (players (gameState (fst (step s i))))).
Proof.
  intro H. destruct i as [sid r1 r2 | sid e c | t]; cbn [step].
  - cbn. now apply players_set_NoDup.
  - pose proof (handle_players sid e c (gameState s)) as Hp.
    destruct (handle sid e c (gameState s)) as [g evs]. cbn [fst gameState] in *.
    destruct Hp as [-> | [-> | (p & p' & _ & -> & _)]].
    + exact H.
    + now apply players_delete_NoDup.
    + now apply players_set_NoDup.
  - unfold tick.
    pose proof (tickBody_keys t (inject_Z (t - lastTick s) / 1000) (gameState s)) as Hk.
    destruct (tickBody t _ (gameState s)) as [g evs]. cbn [fst gameState] in *.
    now rewrite Hk.
Qed.

Lemma run_keys_NoDup t0 inputs : NoDup (keys (players (gameState (run (boot t0) inputs)))).
Proof.
  assert (H : NoDup (keys (players (gameState (boot t0))))) by constructor.
  revert H. generalize (boot t0). induction inputs as [|i rest IH]; intros s H; [exact H|].
  cbn [run]. apply IH. now apply step_keys_NoDup.
Qed.

(** * Further properties of the server *)

(** ** Connecting and disconnecting *)

Lemma players_get_None_keys k m : players_get k m = None <-> ~ In k (keys m).
Proof.
  induction m as [|[k' p] m IH]; cbn; [tauto|].
  destruct (String.eqb k k') eqn:E.
  - apply String.eqb_eq in E. subst k'. split; [discriminate | tauto].
  - apply String.eqb_neq in E. rewrite IH. split; [|tauto].
    intros H [H1 | H1]; [congruence | tauto].
Qed.

Lemma players_set_fresh k p m :
  players_get k m = None -> players_set k p m = (m ++ [ (k, p) ])%list.
Proof.
  induction m as [|[k' p'] m IH]; cbn; [reflexivity|].
  destruct (String.eqb k k'); [discriminate|].
  intro H. now rewrite IH.
Qed.

Lemma players_delete_absent k m : players_get k m = None -> players_delete k m = m.
Proof.
  unfold players_delete. induction m as [|[k' p'] m IH]; cbn; [reflexivity|].
  destruct (String.eqb k k'); [discriminate|]. cbn.
  intro H. now rewrite IH.
Qed.

Lemma players_get_delete_same k m : players_get k (players_delete k m) = None.
Proof.
  unfold players_delete. induction m as [|[k' p'] m IH]; cbn; [reflexivity|].
  destruct (String.eqb k k') eqn:E; cbn; [exact IH|]. now rewrite E.
Qed.

Lemma players_get_delete_other k k' m :
  k' <> k -> players_get k' (players_delete k m) = players_get k' m.
Proof.
  intro Hne. unfold players_delete.
  induction m as [|[k0 p0] m IH]; cbn; [reflexivity|].
  destruct (String.eqb k k0) eqn:E; cbn.
  - apply String.eqb_eq in E. subst k0.
    apply String.eqb_neq in Hne. now rewrite Hne.
  - now rewrite IH.
Qed.

Lemma players_delete_app k m1 m2 :
  players_delete k (m1 ++ m2) = (players_delete k m1 ++ players_delete k m2)%list.
Proof. unfold players_delete. apply filter_app. Qed.

(** X1.  A connection whose spawn draw lies in [0, 1) stores, under the
    socket id, a player with health 100, angle 0, the flashlight on and the
    coordinates of a fixed spawn point; it leaves every other entry,
    the projectiles, the fire zones and the ring alone, marks the game as
    started, sends the newcomer a snapshot that already lists the newcomer,
    and announces the same player to everybody else.  A socket id that was
    not in the table goes to the end of the iteration order. *)
Theorem connection_registers (sid : string) (rSpawn rName : Q) (g : GameState) :
  0 <= rSpawn -> rSpawn < 1 ->
  let g' := fst (on_connection sid rSpawn rName g) in
  exists spawn newPlayer,
    In spawn spawnPoints /\
    Player.id newPlayer = sid /\
    Player.x newPlayer = px spawn /\ Player.z newPlayer = pz spawn /\
    Player.angle newPlayer = 0 /\ Player.health newPlayer = 100 /\
    Player.flashlightOn newPlayer = true /\
    players_get sid (players g') = Some newPlayer /\
    (forall k, k <> sid -> players_get k (players g') = players_get k (players g)) /\
    (players_get sid (players g) = None -> keys (players g') = (keys (players g) ++ [ sid ])%list) /\
    gameStarted g' = true /\
    projectiles g' = projectiles g /\ fireZones g' = fireZones g /\
    ringRadius g' = ringRadius g /\ ringTimer g' = ringTimer g /\
    In newPlayer (players_values (players g')) /\
    snd (on_connection sid rSpawn rName g) =
      [ (ToSender sid,
         Event.init sid (players_values (players g')) (projectiles g) (fireZones g)
                    (ringRadius g) (ringTimer g));
        (ToOthers sid, Event.playerJoined newPlayer) ].
Proof.
  intros H0 H1 g'. subst g'. unfold on_connection. cbn [fst snd players projectiles
    fireZones ringRadius ringTimer gameStarted].
  exists (getRandomSpawn rSpawn),
         (Player.mk sid (px (getRandomSpawn rSpawn)) (pz (getRandomSpawn rSpawn)) 0 100 true
                    ("Player" ++ dec (Qfloor (rName * 1000)))%string).
  split; [now apply getRandomSpawn_In|].
  do 6 (split; [reflexivity|]).
  split; [apply players_get_set_same|].
  split; [intros k Hk; now apply players_get_set_other|].
  split.
  { intro Hnone. rewrite (players_set_fresh _ _ _ Hnone).
    unfold keys. now rewrite map_app. }
  split.
  { destruct (gameStarted g); cbn; [reflexivity|].
    destruct (players_set sid _ (players g)) eqn:E; [|reflexivity].
    exfalso. destruct (players g) as [|[k p] m]; cbn in E; [discriminate|].
    destruct (String.eqb sid k); discriminate. }
  do 4 (split; [reflexivity|]).
  split; [|reflexivity].
  unfold players_values.
  set (np := Player.mk sid _ _ 0 100 true _).
  assert (Hget : players_get sid (players_set sid np (players g)) = Some np)
    by apply players_get_set_same.
  revert Hget. generalize (players_set sid np (players g)). intro m.
  induction m as [|[k q] m IH]; cbn; [discriminate|].
  destruct (String.eqb sid k); [intro E; injection E as ->; now left|].
  intro E. right. now apply IH.
Qed.

Lemma connection_registers_witness :
  exists newPlayer,
    players_get "c" (players (fst (on_connection "c" (5 # 8) 0 damage_demo))) = Some newPlayer /\
    Player.health newPlayer = 100.
Proof.
  destruct (connection_registers "c" (5 # 8) 0 damage_demo)
    as (spawn & np & _ & _ & _ & _ & _ & Hh & _ & Hget & _).
  - vm_compute. discriminate.
  - vm_compute. reflexivity.
  - exists np. split; assumption.
Defined.

(** X2.  A disconnect removes the sender's entry and nothing else: every
    other entry, and all projectiles and fire zones -- also those the
    leaving player created -- stay, and [playerLeft] is broadcast even when
    the socket had no entry.  Disconnecting right after connecting with a
    fresh socket id gives back the player table as it was. *)
Theorem disconnect_removes (sid : string) (g : GameState) :
  let g' := fst (on_disconnect sid g) in
  players_get sid (players g') = None /\
  (forall k, k <> sid -> players_get k (players g') = players_get k (players g)) /\
  projectiles g' = projectiles g /\ fireZones g' = fireZones g /\
  ringOf g' = ringOf g /\
  snd (on_disconnect sid g) = [ (ToAll, Event.playerLeft sid) ] /\
  (forall rSpawn rName,
     players_get sid (players g) = None ->
     players (fst (on_disconnect sid (fst (on_connection sid rSpawn rName g)))) = players g).
Proof.
  unfold on_disconnect, on_connection.
  cbn [fst snd players projectiles fireZones with_players].
  split; [apply players_get_delete_same|].
  split; [intros k Hk; now apply players_get_delete_other|].
  do 4 (split; [reflexivity|]).
  intros rSpawn rName Hnone.
  rewrite (players_set_fresh _ _ _ Hnone), players_delete_app,
          (players_delete_absent _ _ Hnone).
  unfold players_delete. cbn [filter fst]. rewrite String.eqb_refl. cbn. apply app_nil_r.
Qed.

Lemma disconnect_removes_witness :
  players (fst (on_disconnect "c" (fst (on_connection "c" (5 # 8) 0 damage_demo))))
  = players damage_demo.
Proof.
  apply (proj2 (proj2 (proj2 (proj2 (proj2 (proj2 (disconnect_removes "c" damage_demo))))))).
  reflexivity.
Defined.

(** ** When the game runs *)

Lemma step_gameStarted s i :
  gameStarted (gameState (fst (step s i))) = gameStarted (gameState s) || isConnection i.
Proof.
  destruct i as [sid r1 r2 | sid e c | t].
  - destruct (step_ringOf_connection s sid r1 r2) as (_ & _ & Eg & _).
    rewrite Eg. cbn. now rewrite orb_true_r.
  - destruct (step_ringOf_message s sid e c) as [E _].
    set (s' := fst (step s (Message sid e c))) in *.
    unfold ringOf in E. injection E as _ _ Eg. rewrite Eg. cbn. now rewrite orb_false_r.
  - destruct (tick_ring t s) as [E _]. cbn [step isConnection].
    set (s' := fst (tick t s)) in *. rewrite ringStep_ring in E.
    destruct (gameStarted (gameState s) && Qlt_bool 5 (ringRadius (gameState s)));
      unfold ringOf in E; injection E as _ _ Eg; rewrite Eg; now rewrite orb_false_r.
Qed.

Lemma step_ring_idle s i :
  gameStarted (gameState s) = false -> isConnection i = false ->
  ringOf (gameState (fst (step s i))) = ringOf (gameState s).
Proof.
  intros Hg Hi. destruct i as [sid r1 r2 | sid e c | t]; [discriminate | |].
  - apply step_ringOf_message.
  - destruct (tick_ring t s) as [E _]. cbn [step]. rewrite E, ringStep_ring, Hg.
    reflexivity.
Qed.

(** X3.  The game is started exactly when some connection has been
    handled since boot -- it never stops again, not even when every player
    has left -- and until then the ring stays at radius 80 with the full
    countdown, however many ticks run. *)
Theorem game_starts_at_first_connection (t0 : Z) (inputs : list Input) :
  gameStarted (gameState (run (boot t0) inputs)) = existsb isConnection inputs /\
  (existsb isConnection inputs = false ->
   ringRadius (gameState (run (boot t0) inputs)) = 80 /\
   ringTimer (gameState (run (boot t0) inputs)) = 7 * 60).
Proof.
  assert (G : forall s, gameStarted (gameState (run s inputs))
                        = gameStarted (gameState s) || existsb isConnection inputs).
  { induction inputs as [|i rest IH]; intro s; cbn [run existsb].
    - now rewrite orb_false_r.
    - rewrite IH, step_gameStarted. now rewrite orb_assoc. }
  split; [apply G|].
  intro Hno.
  assert (R : forall s, gameStarted (gameState s) = false ->
                        ringOf (gameState (run s inputs)) = ringOf (gameState s)).
  { clear G. induction inputs as [|i rest IH]; intros s Hs; cbn [run]; [reflexivity|].
    cbn [existsb] in Hno. apply orb_false_iff in Hno. destruct Hno as [Hi Hrest].
    rewrite (IH Hrest).
    - now apply step_ring_idle.
    - rewrite step_gameStarted, Hs, Hi. reflexivity. }
  specialize (R (boot t0) eq_refl). unfold ringOf in R. injection R as Er Et _.
  now rewrite Er, Et.
Qed.

Lemma game_starts_at_first_connection_witness :
  ringRadius (gameState (run (boot 0) [ Tick 1000; Tick 500000 ])) = 80 /\
  ringTimer (gameState (run (boot 0) [ Tick 1000; Tick 500000 ])) = 7 * 60.
Proof.
  apply (proj2 (game_starts_at_first_connection 0 [ Tick 1000; Tick 500000 ])).
  reflexivity.
Defined.

(** ** Commands in general *)

(** X4.  Whatever the command, the handler leaves every entry other than
    the sender's as it is, never touches the ring, and changes the lists of
    projectiles and fire zones only by appending to them. *)
Theorem commands_touch_only_sender (sid : string) (e : Env) (c : Command) (g : GameState) :
  let g' := fst (handle sid e c g) in
  (forall k, k <> sid -> players_get k (players g') = players_get k (players g)) /\
  ringOf g' = ringOf g /\
  (exists more, projectiles g' = (projectiles g ++ more)%list) /\
  (exists more, fireZones g' = (fireZones g ++ more)%list).
Proof.
  cbn zeta. split; [|split; [apply handle_ring|]].
  - intros k Hk.
    destruct (handle_players sid e c g) as [-> | [-> | (p & p' & _ & -> & _)]].
    + reflexivity.
    + now apply players_get_delete_other.
    + now apply players_get_set_other.
  - split.
    + destruct (handle_projectiles sid e c g) as [-> | (shots & _ & ->)].
      * exists []. now rewrite app_nil_r.
      * eauto.
    + destruct c; cbn [handle];
        try (exists []; rewrite app_nil_r;
             first [ reflexivity
                   | unfold on_move; destruct (players_get sid (players g));
                     [destruct (Qlt_bool _ 2)|]; reflexivity
                   | unfold on_shoot; destruct (players_get sid (players g)) as [p|];
                     [destruct (Qle_bool (Player.health p) 0)|]; reflexivity
                   | unfold on_toggleFlashlight; destruct (players_get sid (players g));
                     reflexivity
                   | unfold on_takeDamage; destruct (players_get sid (players g)) as [p|];
                     [destruct (Qlt_bool 0 (Player.health p))|]; reflexivity
                   | unfold on_respawn; destruct (players_get sid (players g)) as [p|];
                     [destruct (Qle_bool (Player.health p) 0)|]; reflexivity
                   | unfold on_chat; destruct (players_get sid (players g)); reflexivity ]).
      unfold on_molotov. destruct (players_get sid (players g)) as [p|].
      * destruct (Qle_bool (Player.health p) 0); [exists []; now rewrite app_nil_r|].
        eexists. reflexivity.
      * exists []. now rewrite app_nil_r.
Qed.

Lemma commands_touch_only_sender_witness :
  players_get "b" (players (fst (handle "a" (mkEnv (fun _ => 7%Z) 0) (takeDamage 30 (Some "b"%string))
                                        damage_demo)))
  = players_get "b" (players damage_demo).
Proof.
  apply (proj1 (commands_touch_only_sender "a" (mkEnv (fun _ => 7%Z) 0) (takeDamage 30 (Some "b"%string))
                                           damage_demo)).
  discriminate.
Defined.

(** X5.  What a dead player (health not positive) can and cannot do:
    shoot, molotov and takeDamage are dropped without any effect or
    message, while a move within the cap (the distance the handler computes
    is below 2), a flashlight toggle and a chat message are handled exactly
    as for a living player -- the move handler does not look at health. *)
Theorem dead_player_commands (sid : string) (e : Env) (g : GameState) (player : Player.t) :
  players_get sid (players g) = Some player -> Player.health player <= 0 ->
  (forall shots, handle sid e (shoot shots) g = (g, [])) /\
  (forall x z radius, handle sid e (molotov x z radius) g = (g, [])) /\
  (forall amount from, handle sid e (takeDamage amount from) g = (g, [])) /\
  (forall x z angle,
     dist (F64.sub x (Player.x player)) (F64.sub z (Player.z player)) < 2 ->
     players_get sid (players (fst (handle sid e (move x z angle) g))) =
       Some (Player.mk (Player.id player) x z angle (Player.health player)
                       (Player.flashlightOn player) (Player.name player)) /\
     snd (handle sid e (move x z angle) g) = [ (ToOthers sid, Event.playerMoved sid x z angle) ]) /\
  (forall on,
     players_get sid (players (fst (handle sid e (toggleFlashlight on) g))) =
       Some (Player.with_flashlightOn on player) /\
     snd (handle sid e (toggleFlashlight on) g) =
       [ (ToOthers sid, Event.flashlightToggled sid on) ]) /\
  (forall message,
     handle sid e (chat message) g =
       (g, [ (ToAll, Event.chatMessage sid (Player.name player) (substring 0 200 message)) ])).
Proof.
  intros Hget Hdead.
  pose proof Hdead as H1. apply Qle_bool_iff in H1.
  pose proof Hdead as H2. apply Qlt_bool_false_iff in H2.
  repeat split; intros; cbn [handle].
  - unfold on_shoot. now rewrite Hget, H1.
  - unfold on_molotov. now rewrite Hget, H1.
  - unfold on_takeDamage. now rewrite Hget, H2.
  - unfold on_move. rewrite Hget.
    match goal with H : _ < 2 |- _ => apply Qlt_bool_iff in H; rewrite H end.
    apply players_get_set_same.
  - unfold on_move. rewrite Hget.
    match goal with H : _ < 2 |- _ => apply Qlt_bool_iff in H; now rewrite H end.
  - unfold on_toggleFlashlight. rewrite Hget. apply players_get_set_same.
  - unfold on_toggleFlashlight. now rewrite Hget.
  - unfold on_chat. now rewrite Hget.
Qed.

Lemma dead_player_commands_witness :
  handle "b" (mkEnv (fun _ => 7%Z) 0) (shoot (pellets 3)) damage_demo = (damage_demo, []) /\
  snd (handle "b" (mkEnv (fun _ => 7%Z) 0) (move 4 0 1) damage_demo)
  = [ (ToOthers "b"%string, Event.playerMoved "b" 4 0 1) ].
Proof.
  assert (Hd : Player.health (Player.mk "b" 3 0 0 0 true "Player2") <= 0)
    by (vm_compute; discriminate).
  pose proof (dead_player_commands "b" (mkEnv (fun _ => 7%Z) 0) damage_demo _ eq_refl Hd)
    as (Hs & _ & _ & Hm & _).
  split; [apply Hs|]. apply Hm. vm_compute. reflexivity.
Defined.

(** ** Chat *)

Lemma substring_prefix (n : nat) (s : string) :
  exists rest,
    s = (substring 0 n s ++ rest)%string /\
    String.length (substring 0 n s) = Nat.min n (String.length s).
Proof.
  revert s. induction n as [|n IH]; intro s.
  - exists s. destruct s; split; reflexivity.
  - destruct s as [|c s]; [exists EmptyString; split; reflexivity|].
    destruct (IH s) as (rest & E & L). exists rest. cbn [substring append String.length].
    split; [now rewrite <- E | now rewrite L].
Qed.

(** X6.  A chat message never changes the world.  From a socket without
    an entry nothing is sent; otherwise exactly one [chatMessage] goes to
    everybody, carrying the sender's stored name and the first
    [min 200 (length message)] characters of the message. *)
Theorem chat_truncates (sid : string) (message : string) (g : GameState) :
  fst (on_chat sid message g) = g /\
  (players_get sid (players g) = None -> snd (on_chat sid message g) = []) /\
  (forall player,
     players_get sid (players g) = Some player ->
     exists sent rest,
       snd (on_chat sid message g) =
         [ (ToAll, Event.chatMessage sid (Player.name player) sent) ] /\
       message = (sent ++ rest)%string /\
       String.length sent = Nat.min 200 (String.length message)).
Proof.
  unfold on_chat. destruct (players_get sid (players g)) as [p|].
  - split; [reflexivity|]. split; [discriminate|].
    intros player E. injection E as <-.
    destruct (substring_prefix 200 message) as (rest & E & L).
    exists (substring 0 200 message), rest. now repeat split.
  - split; [reflexivity|]. split; [reflexivity | discriminate].
Qed.

Lemma chat_truncates_witness :
  exists sent rest,
    snd (on_chat "a" "hello" damage_demo) = [ (ToAll, Event.chatMessage "a" "Player1" sent) ] /\
    "hello"%string = (sent ++ rest)%string.
Proof.
  destruct (proj2 (proj2 (chat_truncates "a" "hello" damage_demo)) _ eq_refl)
    as (sent & rest & E & M & _).
  exists sent, rest. split; assumption.
Defined.

(** ** The arena walls *)

Lemma Qabs_cases (x : Q) : (0 <= x /\ Qabs x == x) \/ (x <= 0 /\ Qabs x == - x).
Proof.
  destruct (Qlt_le_dec x 0) as [H | H].
  - right. split; [lra|]. apply Qabs_neg. lra.
  - left. split; [exact H|]. now apply Qabs_pos.
Qed.

Ltac pick_disjunct :=
  solve [ repeat split; lra ] || (left; pick_disjunct) || (right; pick_disjunct).

Lemma insideWall_iff (x z : Q) (w : Wall) :
  insideWall x z w = true <->
  Qabs (x - wx w) <= width w / 2 + (1 # 2) /\ Qabs (z - wz w) <= depth w / 2 + (1 # 2).
Proof.
  unfold insideWall. cbn zeta. rewrite !andb_true_iff, !Qle_bool_iff.
  rewrite !Qabs_Qle_condition. split; intro H; repeat split; lra.
Qed.

(** X7.  The server's wall test, in closed form: a point collides exactly
    when it lies in the band around the two side walls ([69 <= |x| <= 71],
    [|z| <= 40.5]) or in the band around the top and bottom walls
    ([|x| <= 70.5], [39 <= |z| <= 41]).  Hence nothing strictly inside
    [|x| < 69], [|z| < 39] collides, and nothing that collides is outside
    the map bounds 80 and 50. *)
Theorem wall_collision_closed_form (x z : Q) :
  checkWallCollision x z = true <->
  (69 <= Qabs x /\ Qabs x <= 71 /\ Qabs z <= 81 # 2) \/
  (Qabs x <= 141 # 2 /\ 39 <= Qabs z /\ Qabs z <= 41).
Proof.
  unfold checkWallCollision, walls. cbn [existsb].
  rewrite !orb_true_iff, !insideWall_iff. cbn [wx wz width depth].
  assert (E1 : 1 / 2 + (1 # 2) == 1) by reflexivity.
  assert (E80 : 80 / 2 + (1 # 2) == 81 # 2) by reflexivity.
  assert (E140 : 140 / 2 + (1 # 2) == 141 # 2) by reflexivity.
  rewrite E1, E80, E140, !Qabs_Qle_condition.
  destruct (Qabs_cases x) as [[Hx Ex] | [Hx Ex]];
    destruct (Qabs_cases z) as [[Hz Ez] | [Hz Ez]];
    rewrite Ex, Ez; split; intro H.
  all: try (destruct H as [H | [H | [H | [H | H]]]]; [ .. | discriminate ];
            decompose [and] H; pick_disjunct).
  all: destruct H as [H | H]; decompose [and] H; pick_disjunct.
Qed.

(** ** The once-a-second ring broadcast *)

Lemma Qfloor_now (t : Z) : Qfloor (inject_Z t / 1000) = (t / 1000)%Z.
Proof.
  unfold Qdiv, Qmult, Qinv, inject_Z, Qfloor. cbn. now rewrite Z.mul_1_r.
Qed.

Lemma Qfloor_before (t : Z) :
  Qfloor ((inject_Z t - TICK_RATE) / 1000) = ((60 * t - 1000) / 60000)%Z.
Proof.
  transitivity (((t * 60 + -1000) * 1) / 60000)%Z; [reflexivity|].
  f_equal. lia.
Qed.

(** X8.  Whether a tick broadcasts [ringUpdate] depends on its timestamp
    alone: it does -- once, with the radius and countdown it is given --
    exactly when the timestamp lies in the first 17 ms of a second
    ([now mod 1000 <= 16]), whatever the time of the previous tick. *)
Theorem ring_update_cadence (t : Z) (g : GameState) :
  ((t mod 1000 <= 16)%Z ->
   ringBroadcast t g = [ (ToAll, Event.ringUpdate (ringRadius g) (ringTimer g)) ]) /\
  ((16 < t mod 1000)%Z -> ringBroadcast t g = []).
Proof.
  unfold ringBroadcast. rewrite Qfloor_now, Qfloor_before.
  split; intro H.
  - assert (E : (t / 1000 =? (60 * t - 1000) / 60000)%Z = false).
    { apply Z.eqb_neq. intro E.
      pose proof (Z.div_mod t 1000 ltac:(lia)) as D.
      pose proof (Z.mod_pos_bound t 1000 ltac:(lia)) as B.
      pose proof (Z.mul_div_le (60 * t - 1000) 60000 ltac:(lia)) as L.
      rewrite <- E in L. lia. }
    now rewrite E.
  - assert (E : (t / 1000 =? (60 * t - 1000) / 60000)%Z = true).
    { apply Z.eqb_eq.
      pose proof (Z.div_mod t 1000 ltac:(lia)) as D.
      pose proof (Z.mod_pos_bound t 1000 ltac:(lia)) as B.
      apply Z.div_unique with (r := (60 * (t mod 1000) - 1000)%Z); lia. }
    now rewrite E.
Qed.

Lemma ring_update_cadence_witness :
  ringBroadcast 5016 gameState0 = [ (ToAll, Event.ringUpdate 80 (7 * 60)) ] /\
  ringBroadcast 5017 gameState0 = [].
Proof.
  split.
  - apply (proj1 (ring_update_cadence 5016 gameState0)). vm_compute. discriminate.
  - apply (proj2 (ring_update_cadence 5017 gameState0)). vm_compute. reflexivity.
Defined.

(** ** Projectiles in flight *)

Lemma includes_In (ids : list string) (id : string) : includes ids id = true <-> In id ids.
Proof.
  unfold includes. rewrite existsb_exists. split.
  - intros (y & Hin & E). apply String.eqb_eq in E. now subst y.
  - intro H. exists id. split; [exact H | apply String.eqb_refl].
Qed.

Lemma projectileLoop_marks delta prs ps pr :
  In pr prs ->
  checkWallCollision (Projectile.x (advance delta pr)) (Projectile.z (advance delta pr)) = true
  \/ outOfMap (advance delta pr) = true ->
  In (Projectile.id pr) (snd (fst (projectileLoop delta prs ps))).
Proof.
  intros Hin Hbad. revert ps. induction prs as [|pr0 rest IH]; intro ps; [contradiction|].
  cbn [projectileLoop]. unfold stepProjectile.
  destruct Hin as [-> | Hin].
  - destruct (checkWallCollision _ _) eqn:W.
    + destruct (projectileLoop delta rest ps) as [[[rest' ps2] rms] evs].
      cbn [fst snd app]. left. reflexivity.
    + destruct Hbad as [Hbad | Hbad]; [congruence|].
      destruct (hitLoop (advance delta pr) ps) as [[ps1 ev] hit].
      destruct (projectileLoop delta rest ps1) as [[[rest' ps2] rms] evs].
      cbn [fst snd]. rewrite Hbad. apply in_or_app. left. apply in_or_app. right. now left.
  - destruct (checkWallCollision (Projectile.x (advance delta pr0))
                                 (Projectile.z (advance delta pr0))).
    + specialize (IH Hin ps).
      destruct (projectileLoop delta rest ps) as [[[rest' ps2] rms] evs].
      cbn [fst snd] in *. apply in_or_app. now right.
    + destruct (hitLoop (advance delta pr0) ps) as [[ps1 ev] hit].
      specialize (IH Hin ps1).
      destruct (projectileLoop delta rest ps1) as [[[rest' ps2] rms] evs].
      cbn [fst snd] in *. apply in_or_app. now right.
Qed.

(** X9.  A tick creates no projectile: every projectile in the world after
    a tick is a projectile from before the tick moved by velocity times
    delta (same id, owner, velocity and damage), and it is neither inside a
    wall band nor outside the map bounds -- whatever ended the tick there
    has been removed. *)
Theorem projectiles_after_tick (t : Z) (delta : Q) (g : GameState) (pr' : Projectile.t) :
  In pr' (projectiles (fst (tickBody t delta g))) ->
  (exists pr, In pr (projectiles g) /\ pr' = advance delta pr) /\
  checkWallCollision (Projectile.x pr') (Projectile.z pr') = false /\
  outOfMap pr' = false.
Proof.
  rewrite tickBody_fst, fireStep_projectiles.
  set (g1 := fst (ringStep delta g)).
  assert (E1 : projectiles g1 = projectiles g) by apply ringStep_projectiles.
  intro Hin.
  pose proof (projectileStep_projectiles delta g1 pr' Hin) as Hmap.
  rewrite E1 in Hmap. apply in_map_iff in Hmap. destruct Hmap as (pr & <- & Hpr).
  split; [eauto|].
  assert (Hun : ~ In (Projectile.id pr)
                     (snd (fst (projectileLoop delta (projectiles g1) (players g1))))).
  { unfold projectileStep in Hin.
    pose proof (projectileLoop_projectiles delta (projectiles g1) (players g1)) as Hp.
    destruct (projectileLoop delta (projectiles g1) (players g1)) as [[[prs ps] rms] evs].
    cbn [fst snd] in *. destruct rms as [|r rms]; [tauto|].
    cbn [fst projectiles] in Hin. apply filter_In in Hin. destruct Hin as [_ Hf].
    apply negb_true_iff in Hf. intro Hc. apply includes_In in Hc.
    cbn [Projectile.id advance] in Hf. congruence. }
  rewrite E1 in Hun.
  split.
  - destruct (checkWallCollision _ _) eqn:W; [|reflexivity].
    exfalso. apply Hun. apply projectileLoop_marks; [exact Hpr | now left].
  - destruct (outOfMap _) eqn:O; [|reflexivity].
    exfalso. apply Hun. apply projectileLoop_marks; [exact Hpr | now right].
Qed.

Lemma projectiles_after_tick_witness :
  checkWallCollision 10 (1 # 2) = false /\ outOfMap (Projectile.mk "a-5-0" "a" 10 (1 # 2) 0 5 1) = false.
Proof.
  apply (projectiles_after_tick 100 (1 # 10)
           (mkGameState [] [ Projectile.mk "a-5-0" "a" 10 0 0 5 1 ] [] 80 (7 * 60) false)
           (Projectile.mk "a-5-0" "a" (10 + 0 * (1 # 10)) (0 + 5 * (1 # 10)) 0 5 1)).
  vm_compute. left. reflexivity.
Defined.

(** *** Who is hit *)

Lemma hit_test_iff (pr : Projectile.t) (k : string) (p : Player.t) :
  negb (String.eqb k (Projectile.ownerId pr)) && Qlt_bool 0 (Player.health p)
  && Qlt_bool (dist (F64.sub (Projectile.x pr) (Player.x p))
                    (F64.sub (Projectile.z pr) (Player.z p))) (F64.round (7 # 10))
  = true <-> hittable pr (k, p).
Proof.
  unfold hittable. cbn [fst snd].
  rewrite !andb_true_iff, negb_true_iff, String.eqb_neq, !Qlt_bool_iff. tauto.
Qed.

Lemma hitLoop_first (pr : Projectile.t) (ps : PlayerMap) :
  (Forall (fun kp => ~ hittable pr kp) ps -> hitLoop pr ps = (ps, [], false)) /\
  (forall l1 id p l2,
     ps = (l1 ++ (id, p) :: l2)%list ->
     Forall (fun kp => ~ hittable pr kp) l1 ->
     hittable pr (id, p) ->
     let h := Player.health p - Projectile.damage pr in
     hitLoop pr ps =
       ((l1 ++ (id, Player.with_health (clamp0 h) p) :: l2)%list,
        ((ToAll, Event.playerHit id h (Projectile.id pr) (Projectile.ownerId pr))
         :: if Qle_bool h 0
            then [ (ToAll, Event.playerDied id (Some (Projectile.ownerId pr))) ]
            else [])%list,
        true)).
Proof.
  split.
  - induction ps as [|[k p] ps IH]; intro H; [reflexivity|].
    inversion H as [|? ? Hk Hps]; subst. cbn [hitLoop].
    destruct (negb (String.eqb k (Projectile.ownerId pr)) && Qlt_bool 0 (Player.health p)
              && Qlt_bool _ (F64.round (7 # 10))) eqn:C.
    + apply hit_test_iff in C. contradiction.
    + now rewrite (IH Hps).
  - intros l1 id p l2 -> Hl1 Hhit h.
    induction l1 as [|[k q] l1 IH]; cbn [app hitLoop].
    + apply hit_test_iff in Hhit. rewrite Hhit. fold h. unfold clamp0.
      destruct (Qle_bool h 0); reflexivity.
    + inversion Hl1 as [|? ? Hk Hrest]; subst.
      destruct (negb (String.eqb k (Projectile.ownerId pr)) && Qlt_bool 0 (Player.health q)
                && Qlt_bool _ (F64.round (7 # 10))) eqn:C.
      * apply hit_test_iff in C. contradiction.
      * now rewrite (IH Hrest).
Qed.


(** X10.  First hit wins.  If no entry of the table passes the hit test
    the player loop changes nothing and emits nothing.  Otherwise the
    first entry, in table order, that passes it is the only one that
    changes: its health becomes the clamped difference, [playerHit] carries
    the unclamped one, [playerDied] follows exactly when that is not
    positive -- and every later entry is left alone even if the projectile
    is within its hit radius too. *)
Theorem first_hit_wins (pr : Projectile.t) (ps : PlayerMap) :
  (Forall (fun kp => ~ hittable pr kp) ps -> hitLoop pr ps = (ps, [], false)) /\
  (forall l1 id p l2,
     ps = (l1 ++ (id, p) :: l2)%list ->
     Forall (fun kp => ~ hittable pr kp) l1 ->
     hittable pr (id, p) ->
     let h := Player.health p - Projectile.damage pr in
     hitLoop pr ps =
       ((l1 ++ (id, Player.with_health (clamp0 h) p) :: l2)%list,
        ((ToAll, Event.playerHit id h (Projectile.id pr) (Projectile.ownerId pr))
         :: if Qle_bool h 0
            then [ (ToAll, Event.playerDied id (Some (Projectile.ownerId pr))) ]
            else [])%list,
        true)).
Proof. exact (hitLoop_first pr ps). Qed.

Lemma first_hit_wins_witness :
  hitLoop (Projectile.mk "o-1-0" "o" 0 0 1 0 35) crowd_demo =
  ([ ("o"%string, Player.mk "o" 0 0 0 100 true "Player1");
     ("d"%string, Player.mk "d" 0 0 0 0 true "Player2");
     ("a"%string, Player.mk "a" 0 (1 # 2) 0 (clamp0 (100 - 35)) true "Player3");
     ("b"%string, Player.mk "b" 0 0 0 100 true "Player4") ],
   [ (ToAll, Event.playerHit "a" (100 - 35) "o-1-0" "o") ], true).
Proof.
  apply (proj2 (first_hit_wins (Projectile.mk "o-1-0" "o" 0 0 1 0 35) crowd_demo)
               [ ("o"%string, Player.mk "o" 0 0 0 100 true "Player1");
                 ("d"%string, Player.mk "d" 0 0 0 0 true "Player2") ]
               "a"%string (Player.mk "a" 0 (1 # 2) 0 100 true "Player3")
               [ ("b"%string, Player.mk "b" 0 0 0 100 true "Player4") ]).
  - reflexivity.
  - repeat constructor; intros (H1 & H2 & H3); cbn in *.
    + now apply H1.
    + vm_compute in H2. discriminate.
  - split; [cbn; discriminate | split; vm_compute; reflexivity].
Defined.

Lemma hitLoop_owner pr ps :
  players_get (Projectile.ownerId pr) (fst (fst (hitLoop pr ps)))
  = players_get (Projectile.ownerId pr) ps.
Proof.
  induction ps as [|[k p] ps IH]; [reflexivity|]. cbn [hitLoop].
  destruct (String.eqb k (Projectile.ownerId pr)) eqn:E; cbn [negb andb].
  - destruct (hitLoop pr ps) as [[rest' evs] b]. cbn [fst players_get] in *.
    rewrite String.eqb_sym, E. reflexivity.
  - destruct (Qlt_bool 0 (Player.health p) && Qlt_bool _ (F64.round (7 # 10))).
    + destruct (Qle_bool _ 0); cbn [fst players_get]; rewrite String.eqb_sym, E; reflexivity.
    + destruct (hitLoop pr ps) as [[rest' evs] b]. cbn [fst players_get] in *.
      rewrite String.eqb_sym, E. exact IH.
Qed.

(** X11.  Nobody is hit by their own projectiles: a projectile loop over
    projectiles that all belong to one player leaves that player's entry
    exactly as it was, wherever the projectiles are. *)
Theorem own_projectiles_harmless (delta : Q) (prs : list Projectile.t) (ps : PlayerMap)
  (o : string) :
  Forall (fun pr => Projectile.ownerId pr = o) prs ->
  players_get o (snd (fst (fst (projectileLoop delta prs ps)))) = players_get o ps.
Proof.
  revert ps. induction prs as [|pr rest IH]; intros ps H; [reflexivity|].
  inversion H as [|? ? Ho Hrest]; subst.
  cbn [projectileLoop]. unfold stepProjectile.
  destruct (checkWallCollision _ _).
  - specialize (IH ps Hrest).
    destruct (projectileLoop delta rest ps) as [[[rest' ps2] rms] evs]. exact IH.
  - pose proof (hitLoop_owner (advance delta pr) ps) as Hh.
    destruct (hitLoop (advance delta pr) ps) as [[ps1 ev] hit]. cbn [fst] in Hh.
    specialize (IH ps1 Hrest).
    destruct (projectileLoop delta rest ps1) as [[[rest' ps2] rms] evs].
    cbn [fst snd] in *. cbn [advance Projectile.ownerId] in Hh. congruence.
Qed.

Lemma own_projectiles_harmless_witness :
  players_get "o" (snd (fst (fst (projectileLoop (1 # 10)
     [ Projectile.mk "o-1-0" "o" 0 0 1 0 35 ] crowd_demo))))
  = players_get "o" crowd_demo.
Proof.
  apply own_projectiles_harmless. repeat constructor.
Defined.

(** ** Fire zones over time *)

Lemma fireLoop_fires delta fires ps :
  fst (fst (fst (fireLoop delta fires ps))) = map age fires.
Proof.
  revert ps. induction fires as [|fire rest IH]; intro ps; [reflexivity|].
  cbn [fireLoop map]. destruct (Qle_bool (FireZone.timeLeft (age fire)) 0).
  - specialize (IH ps).
    destruct (fireLoop delta rest ps) as [[[rest' ps'] rms] evs].
    cbn [fst] in *. now rewrite IH.
  - destruct (burnLoop delta (age fire) ps) as [ps1 ev].
    specialize (IH ps1).
    destruct (fireLoop delta rest ps1) as [[[rest' ps2] rms] evs].
    cbn [fst] in *. now rewrite IH.
Qed.

Lemma fireLoop_removed delta fires ps :
  snd (fst (fireLoop delta fires ps)) = burntOut fires.
Proof.
  unfold burntOut. revert ps.
  induction fires as [|fire rest IH]; intro ps; [reflexivity|].
  cbn [fireLoop filter]. destruct (Qle_bool (FireZone.timeLeft (age fire)) 0).
  - specialize (IH ps).
    destruct (fireLoop delta rest ps) as [[[rest' ps'] rms] evs].
    cbn [fst snd map] in *. now rewrite IH.
  - destruct (burnLoop delta (age fire) ps) as [ps1 ev].
    specialize (IH ps1).
    destruct (fireLoop delta rest ps1) as [[[rest' ps2] rms] evs].
    cbn [fst snd] in *. exact IH.
Qed.

Lemma filter_all {A : Type} (f : A -> bool) (l : list A) :
  (forall x, In x l -> f x = true) -> filter f l = l.
Proof.
  induction l as [|a l IH]; intro H; [reflexivity|]. cbn.
  rewrite (H a (or_introl eq_refl)). f_equal. apply IH. intros x Hx. apply H. now right.
Qed.

Lemma fireStep_fireZones delta g :
  fireZones (fst (fireStep delta g)) =
  filter (fun f => negb (includes (burntOut (fireZones g)) (FireZone.id f)))
         (map age (fireZones g)).
Proof.
  unfold fireStep.
  pose proof (fireLoop_fires delta (fireZones g) (players g)) as Hf.
  pose proof (fireLoop_removed delta (fireZones g) (players g)) as Hr.
  destruct (fireLoop delta (fireZones g) (players g)) as [[[fires ps] rms] evs].
  cbn [fst snd] in *. subst fires. rewrite <- Hr.
  destruct rms; [|reflexivity].
  cbn [fst fireZones]. symmetry. apply filter_all. reflexivity.
Qed.

Lemma ringStep_fireZones delta g : fireZones (fst (ringStep delta g)) = fireZones g.
Proof.
  unfold ringStep. destruct (gameStarted g && Qlt_bool 5 (ringRadius g)); [|reflexivity].
  destruct (ringLoop delta _ (players g)) as [ps evs]. reflexivity.
Qed.

Lemma projectileStep_fireZones delta g : fireZones (fst (projectileStep delta g)) = fireZones g.
Proof.
  unfold projectileStep.
  destruct (projectileLoop delta (projectiles g) (players g)) as [[[prs ps] rms] evs].
  now destruct rms.
Qed.

Lemma tickBody_fireZones t delta g :
  fireZones (fst (tickBody t delta g)) =
  filter (fun f => negb (includes (burntOut (fireZones g)) (FireZone.id f)))
         (map age (fireZones g)).
Proof.
  now rewrite tickBody_fst, fireStep_fireZones, projectileStep_fireZones, ringStep_fireZones.
Qed.

Lemma burntOut_In fires f :
  In f fires -> FireZone.timeLeft (age f) <= 0 -> In (FireZone.id f) (burntOut fires).
Proof.
  intros Hin Hle. unfold burntOut. apply in_map. apply filter_In.
  split; [exact Hin | now apply Qle_bool_iff].
Qed.

(** X12.  A tick creates no fire zone: every zone left after a tick is a
    zone from before the tick with its lifetime reduced by the fixed
    [1000 / 60] ms (whatever the real delta was), and that lifetime is
    still positive. *)
Theorem fire_zones_after_tick (t : Z) (delta : Q) (g : GameState) (f' : FireZone.t) :
  In f' (fireZones (fst (tickBody t delta g))) ->
  (exists f, In f (fireZones g) /\ f' = age f) /\
  0 < FireZone.timeLeft f'.
Proof.
  rewrite tickBody_fireZones. intro Hin. apply filter_In in Hin.
  destruct Hin as [Hmap Hkeep]. apply in_map_iff in Hmap. destruct Hmap as (f & <- & Hf).
  split; [eauto|].
  apply Qnot_le_lt. intro Hle.
  apply negb_true_iff in Hkeep.
  assert (Hinc : includes (burntOut (fireZones g)) (FireZone.id (age f)) = true).
  { apply includes_In. now apply (burntOut_In _ f). }
  congruence.
Qed.

Lemma fire_zones_after_tick_witness :
  0 < FireZone.timeLeft (age (FireZone.mk "fire-a-7" 0 0 3 5000)).
Proof.
  apply (fire_zones_after_tick 1016 (16 # 1000) (gameState molotov_demo)
           (age (FireZone.mk "fire-a-7" 0 0 3 5000))).
  vm_compute. left. reflexivity.
Defined.










Lemma burnLoop_cold delta fire ps :
  FireZone.radius fire <= 0 -> burnLoop delta fire ps = (ps, []).
Proof.
  intro Hr. induction ps as [|[k p] ps IH]; [reflexivity|]. cbn [burnLoop].
  assert (E : burnPlayer delta fire k p = (p, [])).
  { unfold burnPlayer. destruct (Qlt_bool 0 (Player.health p)); [|reflexivity].
    destruct (Qlt_bool _ (FireZone.radius fire)) eqn:S; [|reflexivity].
    apply Qlt_bool_iff in S.
    pose proof (dist_nonneg (F64.sub (FireZone.x fire) (Player.x p))
                            (F64.sub (FireZone.z fire) (Player.z p))). lra. }
  now rewrite E, IH.
Qed.

(** X14.  The radius of a zone is stored as the client sent it.  Zones
    whose radius is not positive burn nobody: a fire step over such zones
    leaves the player table as it is and emits nothing but the removal
    batch. *)
Theorem cold_zones_burn_nobody (delta : Q) (g : GameState) :
  Forall (fun f => FireZone.radius f <= 0) (fireZones g) ->
  players (fst (fireStep delta g)) = players g /\
  (snd (fireStep delta g) = [] \/
   exists ids, snd (fireStep delta g) = [ (ToAll, Event.fireZonesRemoved ids) ]).
Proof.
  intro H.
  assert (L : forall ps, snd (fst (fst (fireLoop delta (fireZones g) ps))) = ps /\
                         snd (fireLoop delta (fireZones g) ps) = []).
  { induction (fireZones g) as [|fire rest IH]; intro ps; [split; reflexivity|].
    inversion H as [|? ? Hr Hrest]; subst. cbn [fireLoop].
    destruct (Qle_bool (FireZone.timeLeft (age fire)) 0).
    - destruct (IH Hrest ps) as [E1 E2].
      destruct (fireLoop delta rest ps) as [[[rest' ps'] rms] evs]. now cbn in *.
    - assert (Hc : FireZone.radius (age fire) <= 0) by exact Hr.
      rewrite (burnLoop_cold delta (age fire) ps Hc).
      destruct (IH Hrest ps) as [E1 E2].
      destruct (fireLoop delta rest ps) as [[[rest' ps'] rms] evs]. now cbn in *. }
  split; [rewrite fireStep_players; apply L|].
  unfold fireStep. destruct (L (players g)) as [_ E].
  destruct (fireLoop delta (fireZones g) (players g)) as [[[fires ps] rms] evs].
  cbn [snd] in E. subst evs. destruct rms; [now left | right; eexists; reflexivity].
Qed.

Lemma cold_zones_burn_nobody_witness :
  players (fst (fireStep (1 # 10) (fst (on_molotov "a" 7 0 0 (-3) damage_demo))))
  = players damage_demo.
Proof.
  refine (proj1 (cold_zones_burn_nobody (1 # 10)
                   (fst (on_molotov "a" 7 0 0 (-3) damage_demo)) _)).
  repeat constructor. vm_compute. discriminate.
Defined.

(** ** The player table in reachable states *)

Lemma players_set_entry k p m kq :
  In kq (players_set k p m) -> In kq m \/ kq = (k, p).
Proof.
  induction m as [|[k' p'] m IH]; cbn.
  - intros [<- | []]. now right.
  - destruct (String.eqb k k') eqn:E; cbn.
    + apply String.eqb_eq in E. subst k'. intros [<- | H]; auto.
    + intros [<- | H]; [auto|]. destruct (IH H); auto.
Qed.

Lemma handle_players_id sid e c g :
  let ps' := players (fst (handle sid e c g)) in
  ps' = players g \/
  ps' = players_delete sid (players g) \/
  exists p p',
    players_get sid (players g) = Some p /\
    ps' = players_set sid p' (players g) /\
    Player.id p' = Player.id p.
Proof.
  destruct c; cbn [handle].
  - unfold on_move. destruct (players_get sid (players g)) as [p|] eqn:Hget; [|now left].
    destruct (Qlt_bool _ 2); [|now left].
    right; right. eexists p, _. split; [reflexivity|]. split; reflexivity.
  - unfold on_shoot. destruct (players_get sid (players g)) as [p|]; [|now left].
    destruct (Qle_bool (Player.health p) 0); now left.
  - unfold on_molotov. destruct (players_get sid (players g)) as [p|]; [|now left].
    destruct (Qle_bool (Player.health p) 0); now left.
  - unfold on_toggleFlashlight.
    destruct (players_get sid (players g)) as [p|] eqn:Hget; [|now left].
    right; right. eexists p, _. split; [reflexivity|]. split; reflexivity.
  - unfold on_takeDamage.
    destruct (players_get sid (players g)) as [p|] eqn:Hget; [|now left].
    destruct (Qlt_bool 0 (Player.health p)); [|now left].
    right; right. eexists p, _. split; [reflexivity|]. split; reflexivity.
  - unfold on_respawn.
    destruct (players_get sid (players g)) as [p|] eqn:Hget; [|now left].
    destruct (Qle_bool (Player.health p) 0); [|now left].
    right; right. eexists p, _. split; [reflexivity|]. split; reflexivity.
  - unfold on_chat. destruct (players_get sid (players g)) as [p|]; now left.
  - right; now left.
Qed.

Lemma step_id_is_key s i :
  allP (fun k p => Player.id p = k) (players (gameState s)) ->
  allP (fun k p => Player.id p = k) (players (gameState (fst (step s i)))).
Proof.
  intro H. destruct i as [sid r1 r2 | sid e c | t]; cbn [step].
  - unfold on_connection. cbn [fst gameState players].
    apply Forall_forall. intros kq Hin. apply players_set_entry in Hin.
    destruct Hin as [Hin | ->]; [|reflexivity].
    unfold allP in H. rewrite Forall_forall in H. exact (H _ Hin).
  - pose proof (handle_players_id sid e c (gameState s)) as Hp.
    destruct (handle sid e c (gameState s)) as [g evs]. cbn [fst gameState] in *.
    destruct Hp as [-> | [-> | (p & p' & Hget & -> & Hid)]].
    + exact H.
    + now apply allP_delete.
    + apply Forall_forall. intros kq Hin. apply players_set_entry in Hin.
      destruct Hin as [Hin | ->].
      * unfold allP in H. rewrite Forall_forall in H. exact (H _ Hin).
      * cbn. rewrite Hid. exact (allP_get _ _ _ _ H Hget).
  - unfold tick.
    pose proof (tickBody_stable (fun k p => Player.id p = k) (fun _ => True)) as Ht.
    specialize (Ht (fun k p d Hp _ _ => Hp) t
                   (inject_Z (t - lastTick s) / 1000) (gameState s) I I).
    destruct (tickBody t _ (gameState s)) as [g evs]. cbn [fst gameState] in *.
    apply Ht; [|exact H]. apply Forall_forall. intros; exact I.
Qed.

(** X15.  In every state reached from boot the player table holds each
    socket id at most once, and the [id] field of every entry is the key it
    is stored under. *)
Theorem player_table_wellformed (t0 : Z) (inputs : list Input) :
  NoDup (keys (players (gameState (run (boot t0) inputs)))) /\
  (forall k p, players_get k (players (gameState (run (boot t0) inputs))) = Some p ->
               Player.id p = k).
Proof.
  split; [apply run_keys_NoDup|].
  assert (H : allP (fun k p => Player.id p = k) (players (gameState (boot t0))))
    by constructor.
  revert H. generalize (boot t0).
  induction inputs as [|i rest IH]; intros s H k p Hget.
  - exact (allP_get _ _ _ _ H Hget).
  - cbn [run] in Hget. eapply IH; [|exact Hget]. now apply step_id_is_key.
Qed.

Lemma player_table_wellformed_witness :
  Player.id (Player.mk "a" 10 5 0 25 true "Player0") = "a"%string.
Proof.
  apply (proj2 (player_table_wellformed 0 bounds_run) "a"%string).
  vm_compute. reflexivity.
Defined.

Lemma NoDup_keys_entry (ps : PlayerMap) (k : string) (p q : Player.t) :
  NoDup (keys ps) -> players_get k ps = Some p -> In (k, q) ps -> q = p.
Proof.
  induction ps as [|[k' p'] ps IH]; cbn; intros Hnd Hget Hin; [contradiction|].
  inversion Hnd as [|? ? Hnot Hrest]; subst.
  destruct (String.eqb k k') eqn:E.
  - apply String.eqb_eq in E. subst k'. injection Hget as <-.
    destruct Hin as [Hin | Hin]; [now injection Hin|].
    exfalso. apply Hnot. now apply (in_map fst) in Hin.
  - destruct Hin as [Hin | Hin]; [|now apply IH].
    injection Hin as -> _. now rewrite String.eqb_refl in E.
Qed.

(** X16.  A dead player takes no damage: in every state reached from boot,
    a tick leaves the entry of a player whose health is not positive
    exactly as it was -- ring, projectiles and fire all pass over it --
    and adds or removes no player. *)
Theorem tick_spares_the_dead (t0 : Z) (inputs : list Input) (t : Z) (id : string)
  (p : Player.t) :
  let s := run (boot t0) inputs in
  players_get id (players (gameState s)) = Some p ->
  Player.health p <= 0 ->
  players_get id (players (gameState (fst (tick t s)))) = Some p /\
  keys (players (gameState (fst (tick t s)))) = keys (players (gameState s)).
Proof.
  intros s Hget Hdead.
  pose proof (run_keys_NoDup t0 inputs) as Hnd. fold s in Hnd.
  set (P := fun (k : string) (q : Player.t) => k = id -> q = p).
  assert (HP : allP P (players (gameState s))).
  { apply Forall_forall. intros [k q] Hin Hk. cbn in Hk. subst k. cbn.
    exact (NoDup_keys_entry _ _ _ _ Hnd Hget Hin). }
  assert (Hst : forall k q d, P k q -> True -> 0 < Player.health q ->
                              P k (Player.with_health (clamp0 (Player.health q - d)) q)).
  { intros k q d Hq _ Hpos Hk. rewrite (Hq Hk) in Hpos. exfalso. lra. }
  unfold tick.
  pose proof (tickBody_stable P (fun _ => True) Hst t
                (inject_Z (t - lastTick s) / 1000) (gameState s) I I) as Ht.
  pose proof (tickBody_keys t (inject_Z (t - lastTick s) / 1000) (gameState s)) as Hk.
  destruct (tickBody t _ (gameState s)) as [g evs]. cbn [fst gameState] in *.
  split; [|exact Hk].
  assert (Hall : allP P (players g)).
  { apply Ht; [|exact HP]. apply Forall_forall. intros; exact I. }
  assert (Hin : In id (keys (players g))).
  { rewrite Hk. destruct (in_dec string_dec id (keys (players (gameState s)))) as [Y | N];
      [exact Y|]. apply players_get_None_keys in N. congruence. }
  destruct (players_get_key _ _ Hin) as [q Hq]. rewrite Hq. f_equal.
  exact (allP_get _ _ _ _ Hall Hq eq_refl).
Qed.

Lemma tick_spares_the_dead_witness :
  players_get "b" (players (gameState (fst (tick 2000 (run (boot 0)
     [ Connection "b" 0 0; Tick 420000 ])))))
  = Some (Player.mk "b" (-33) (-31) 0 0 true "Player0").
Proof.
  apply (tick_spares_the_dead 0 [ Connection "b" 0 0; Tick 420000 ] 2000 "b"%string).
  - vm_compute. reflexivity.
  - vm_compute. discriminate.
Defined.

(** ** Fatal damage: what a tick emits and what it stores *)














(** ** The radius as a function of elapsed time *)






(** ** Projectile ids across commands *)

Lemma stamp_nth (sid : string) (now : nat -> Z) (shots : list Shot.t) (i j : nat)
  (pr : Projectile.t) :
  nth_error (stamp sid now i shots) j = Some pr ->
  Projectile.id pr
  = (sid ++ "-" ++ dec (now (i + j)%nat) ++ "-" ++ dec (Z.of_nat (i + j)))%string.
Proof.
  revert i j. induction shots as [|p rest IH]; intros i j H.
  - destruct j; discriminate.
  - destruct j as [|j]; cbn [stamp nth_error] in H.
    + injection H as <-. cbn [Projectile.id]. now rewrite Nat.add_0_r.
    + rewrite (IH _ _ H). now replace (S i + j)%nat with (i + S j)%nat by lia.
Qed.

(** X18.  Within one socket a projectile id determines the index of the
    projectile in its batch and the value [Date.now()] returned for it: two
    projectiles stamped for the same socket share an id exactly when they
    have the same index in their batches and the clock read the same
    millisecond for both.  The clock is read once per projectile, so a
    command handled later than another reuses the id [sid-t-i] whenever its
    own reading for index [i] is [t] again. *)
Theorem stamp_id_determines_time (sid : string) (now1 now2 : nat -> Z)
  (shots1 shots2 : list Shot.t) :
  (forall pr1 pr2,
     In pr1 (stamp sid now1 0 shots1) -> In pr2 (stamp sid now2 0 shots2) ->
     Projectile.id pr1 = Projectile.id pr2 ->
     exists j, nth_error (stamp sid now1 0 shots1) j = Some pr1 /\
               nth_error (stamp sid now2 0 shots2) j = Some pr2 /\
               now1 j = now2 j) /\
  (forall j pr1 pr2,
     nth_error (stamp sid now1 0 shots1) j = Some pr1 ->
     nth_error (stamp sid now2 0 shots2) j = Some pr2 ->
     now1 j = now2 j ->
     Projectile.id pr1 = Projectile.id pr2).
Proof.
  split.
  - intros pr1 pr2 Hin1 Hin2 E.
    apply In_nth_error in Hin1. destruct Hin1 as [j1 Hj1].
    apply In_nth_error in Hin2. destruct Hin2 as [j2 Hj2].
    rewrite (stamp_nth _ _ _ _ _ _ Hj1), (stamp_nth _ _ _ _ _ _ Hj2) in E.
    cbn [Nat.add] in E. apply stamp_id_inj in E. destruct E as [Et Ej]. subst j2.
    exists j1. auto.
  - intros j pr1 pr2 H1 H2 E.
    rewrite (stamp_nth _ _ _ _ _ _ H1), (stamp_nth _ _ _ _ _ _ H2). cbn [Nat.add].
    now rewrite E.
Qed.

Lemma stamp_id_determines_time_witness :
  exists j, nth_error (stamp "b" (fun _ => 1010%Z) 0 (pellets 2)) j
            = Some (Projectile.mk "b-1010-1" "b" 0 0 1 0 10) /\
            nth_error (stamp "b" (fun i => 1009 + Z.of_nat i)%Z 0 (pellets 3)) j
            = Some (Projectile.mk "b-1010-1" "b" 0 0 1 0 10) /\
            (fun _ : nat => 1010%Z) j = (fun i => 1009 + Z.of_nat i)%Z j.
Proof.
  refine (proj1 (stamp_id_determines_time "b" (fun _ => 1010%Z)
                   (fun i => 1009 + Z.of_nat i)%Z (pellets 2) (pellets 3))
                (Projectile.mk "b-1010-1" "b" 0 0 1 0 10)
                (Projectile.mk "b-1010-1" "b" 0 0 1 0 10) _ _ _).
  - vm_compute. right. left. reflexivity.
  - vm_compute. right. left. reflexivity.
  - reflexivity.
Defined.

(** * The map loader *)

Lemma Qfloor_index (r : Q) (n : nat) :
  0 <= r -> r < 1 -> (0 < n)%nat ->
  (0 <= Qfloor (r * inject_Z (Z.of_nat n)) < Z.of_nat n)%Z.
Proof.
  intros H0 H1 Hn.
  assert (Hpos : 0 < inject_Z (Z.of_nat n)).
  { change 0 with (inject_Z 0). rewrite <- Zlt_Qlt. lia. }
  split.
  - change 0%Z with (Qfloor 0). apply Qfloor_resp_le. nra.
  - apply Z.lt_nge. intro Hge.
    assert (L : inject_Z (Z.of_nat n) <= r * inject_Z (Z.of_nat n)).
    { eapply Qle_trans; [|apply Qfloor_le]. now rewrite <- Zle_Qle. }
    nra.
Qed.

(** X20.  The loader's random spawn: for a draw in [0, 1) and a map with
    at least one spawn it is one of the converted spawns; for a map
    without spawns it is [undefined]. *)
Theorem loader_random_spawn (mapData : MapLoader.MapData) (r : Q) :
  (MapLoader.spawns mapData = [] -> MapLoader.getRandomSpawn mapData r = None) /\
  (MapLoader.spawns mapData <> [] -> 0 <= r -> r < 1 ->
   exists spawn,
     MapLoader.getRandomSpawn mapData r = Some spawn /\
     In spawn (MapLoader.getSpawns mapData) /\
     exists uv, In uv (MapLoader.spawns mapData) /\
                (px spawn, pz spawn) = toWorld (fst uv) (snd uv)).
Proof.
  unfold MapLoader.getRandomSpawn. split.
  - intro E. unfold MapLoader.getSpawns. rewrite E. cbn [map List.length Z.of_nat].
    destruct (Qfloor _) as [|p|p]; try reflexivity.
    now destruct (Z.to_nat (Z.pos p)).
  - intros Hne H0 H1.
    set (sp := MapLoader.getSpawns mapData).
    assert (Hlen : (0 < List.length sp)%nat).
    { subst sp. unfold MapLoader.getSpawns. rewrite length_map.
      destruct (MapLoader.spawns mapData); [congruence | cbn; lia]. }
    pose proof (Qfloor_index r _ H0 H1 Hlen) as [Hlo Hhi].
    set (n := Qfloor (r * inject_Z (Z.of_nat (List.length sp)))) in *.
    assert (Hsome : exists spawn, nth_error sp (Z.to_nat n) = Some spawn).
    { destruct (nth_error sp (Z.to_nat n)) eqn:E; [eauto|].
      apply nth_error_None in E. lia. }
    destruct Hsome as [spawn Hs]. exists spawn.
    assert (Hin : In spawn sp) by (eapply nth_error_In; exact Hs).
    split; [destruct n; [exact Hs | exact Hs | lia]|].
    split; [exact Hin|].
    subst sp. unfold MapLoader.getSpawns in Hin. apply in_map_iff in Hin.
    destruct Hin as (uv & <- & Huv). exists uv. split; [exact Huv | reflexivity].
Qed.

Lemma loader_random_spawn_witness :
  exists spawn, MapLoader.getRandomSpawn room_demo (3 # 4) = Some spawn /\
                In spawn (MapLoader.getSpawns room_demo).
Proof.
  destruct (proj2 (loader_random_spawn room_demo (3 # 4))) as (spawn & E & Hin & _).
  - discriminate.
  - vm_compute. discriminate.
  - vm_compute. reflexivity.
  - exists spawn. split; assumption.
Defined.

(** * The client's view *)

Lemma delete_set_other me k p m :
  k <> me -> players_delete me (players_set k p m) = players_set k p (players_delete me m).
Proof.
  intro Hne. unfold players_delete.
  induction m as [|[k' p'] m IH]; cbn [players_set filter fst].
  - assert (E : String.eqb me k = false) by (apply String.eqb_neq; congruence).
    now rewrite E.
  - destruct (String.eqb k k') eqn:Ek.
    + apply String.eqb_eq in Ek. subst k'.
      assert (E : String.eqb me k = false) by (apply String.eqb_neq; congruence).
      cbn [filter fst]. rewrite E. cbn [negb players_set]. now rewrite String.eqb_refl.
    + cbn [filter fst]. destruct (String.eqb me k') eqn:Em; cbn [negb].
      * exact IH.
      * cbn [players_set]. rewrite Ek. now rewrite IH.
Qed.

Lemma delete_set_same me p m :
  players_delete me (players_set me p m) = players_delete me m.
Proof.
  unfold players_delete. induction m as [|[k' p'] m IH]; cbn [players_set filter fst].
  - now rewrite String.eqb_refl.
  - destruct (String.eqb me k') eqn:E; cbn [filter fst]; rewrite E; cbn [negb].
    + reflexivity.
    + now rewrite IH.
Qed.

Lemma delete_delete me k m :
  players_delete k (players_delete me m) = players_delete me (players_delete k m).
Proof.
  unfold players_delete. induction m as [|[k' p'] m IH]; [reflexivity|]. cbn [filter fst].
  destruct (String.eqb me k') eqn:E1; destruct (String.eqb k k') eqn:E2;
    cbn [negb filter fst]; rewrite ?E1, ?E2; cbn [negb]; now rewrite ?IH.
Qed.

Lemma set_set k p q m :
  players_get k m <> None -> players_set k p (players_set k q m) = players_set k p m.
Proof.
  induction m as [|[k' p'] m IH]; cbn [players_get players_set]; [congruence|].
  destruct (String.eqb k k') eqn:E; cbn [players_set]; rewrite E; [reflexivity|].
  intro H. now rewrite IH.
Qed.

Lemma adjust_mirror me k f m p :
  k <> me -> players_get k m = Some p ->
  Client.adjust k f (players_delete me m) = players_delete me (players_set k (f p) m).
Proof.
  intros Hne Hget. unfold Client.adjust.
  rewrite (players_get_delete_other me k m Hne), Hget.
  symmetry. now apply delete_set_other.
Qed.

Lemma adjust_absent k f m : players_get k m = None -> Client.adjust k f m = m.
Proof. intro H. unfold Client.adjust. now rewrite H. Qed.

Lemma adjust_self me f m : Client.adjust me f (players_delete me m) = players_delete me m.
Proof. apply adjust_absent. apply players_get_delete_same. Qed.

Lemma adjust_mirror_absent me k f m :
  players_get k m = None -> Client.adjust k f (players_delete me m) = players_delete me m.
Proof.
  intro H. apply adjust_absent.
  destruct (string_dec k me) as [-> | Hne]; [apply players_get_delete_same|].
  now rewrite players_get_delete_other.
Qed.

Lemma Qmax_0_dead (v : Q) : Qle_bool (Qmax 0 v) 0 = true -> Qmax 0 v = 0.
Proof.
  intro H. apply Qle_bool_iff in H.
  destruct (Qlt_le_dec 0 v) as [Hpos | Hneg].
  - rewrite (Qmax_0_pos v Hpos) in H. lra.
  - now apply Qmax_0_nonpos.
Qed.

(** What one health report, possibly followed by a death notice, does to a
    view that mirrors the table: the copy ends with the clamped health the
    server stores. *)
Lemma health_report_mirror me id p m h stored (died : bool) :
  players_get id m = Some p ->
  (died = true -> stored = 0) -> (died = false -> stored = h) ->
  (if died
   then Client.adjust id (Player.with_health 0)
          (Client.adjust id (Player.with_health h) (players_delete me m))
   else Client.adjust id (Player.with_health h) (players_delete me m))
  = players_delete me (players_set id (Player.with_health stored p) m).
Proof.
  intros Hget Hd Ha.
  destruct (string_dec id me) as [-> | Hne].
  - rewrite delete_set_same. destruct died; now rewrite !adjust_self.
  - rewrite (adjust_mirror me id _ m p Hne Hget).
    destruct died.
    + rewrite (Hd eq_refl).
      rewrite (adjust_mirror me id _ _ (Player.with_health h p) Hne)
        by apply players_get_set_same.
      rewrite set_set by congruence. reflexivity.
    + now rewrite (Ha eq_refl).
Qed.

(** X21.  Commands keep every client in sync.  If a client's copy of the
    player table mirrors the server's (every entry but its own) before a
    command other than respawn is handled, then after the client has
    handled the messages that reach it the copy mirrors the server's new
    table -- whoever sent the command, the client itself included. *)
Theorem commands_keep_views_in_sync (sid : string) (e : Env) (c : Command) (g : GameState)
  (me : string) (t : Z) (st : Client.State) :
  c <> respawn ->
  mirrors me (players g) st ->
  mirrors me (players (fst (handle sid e c g))) (receive me t (snd (handle sid e c g)) st).
Proof.
  intros Hc Hm. unfold mirrors in *. destruct c; cbn [handle]; try congruence.
  - unfold on_move. destruct (players_get sid (players g)) as [p|] eqn:Hget; [|exact Hm].
    destruct (Qlt_bool _ 2); [|exact Hm].
    cbn [fst snd players with_players receive fold_left delivered].
    destruct (String.eqb sid me) eqn:E; cbn [negb].
    + apply String.eqb_eq in E. subst sid. now rewrite delete_set_same.
    + apply String.eqb_neq in E. cbn [Client.on Client.with_remotePlayers Client.remotePlayers].
      rewrite Hm, (adjust_mirror me sid _ (players g) p E Hget). reflexivity.
  - unfold on_shoot. destruct (players_get sid (players g)) as [p|]; [|exact Hm].
    destruct (Qle_bool (Player.health p) 0); [exact Hm|].
    cbn [fst snd players receive fold_left delivered Client.on].
    destruct (negb (String.eqb sid me)); exact Hm.
  - unfold on_molotov. destruct (players_get sid (players g)) as [p|]; [|exact Hm].
    destruct (Qle_bool (Player.health p) 0); exact Hm.
  - unfold on_toggleFlashlight.
    destruct (players_get sid (players g)) as [p|] eqn:Hget; [|exact Hm].
    cbn [fst snd players with_players receive fold_left delivered].
    destruct (String.eqb sid me) eqn:E; cbn [negb].
    + apply String.eqb_eq in E. subst sid. now rewrite delete_set_same.
    + apply String.eqb_neq in E. cbn [Client.on Client.with_remotePlayers Client.remotePlayers].
      rewrite Hm, (adjust_mirror me sid _ (players g) p E Hget). reflexivity.
  - unfold on_takeDamage.
    destruct (players_get sid (players g)) as [p|] eqn:Hget; [|exact Hm].
    destruct (Qlt_bool 0 (Player.health p)); [|exact Hm].
    set (h := Qmax 0 (Player.health p - amount)).
    cbn [fst snd players with_players].
    pose proof (health_report_mirror me sid p (players g) h h (Qle_bool h 0) Hget) as R.
    destruct (Qle_bool h 0) eqn:Eh;
      cbn [receive fold_left delivered fst snd Client.on Client.with_remotePlayers
           Client.remotePlayers];
      rewrite Hm; apply R; try congruence.
    intros _. subst h. now apply Qmax_0_dead.
  - unfold on_chat. destruct (players_get sid (players g)) as [p|]; exact Hm.
  - cbn [on_disconnect fst snd players with_players receive fold_left delivered
         Client.on Client.with_remotePlayers Client.remotePlayers].
    rewrite Hm. apply delete_delete.
Qed.

Lemma commands_keep_views_in_sync_witness :
  mirrors "b" (players (fst (handle "a" (mkEnv (fun _ => 7%Z) 0) (takeDamage 150 None) damage_demo)))
          (receive "b" 8 (snd (handle "a" (mkEnv (fun _ => 7%Z) 0) (takeDamage 150 None) damage_demo))
                   view_demo).
Proof.
  apply commands_keep_views_in_sync; [discriminate | reflexivity].
Defined.

(** X22.  Respawn is the one command that leaves the copies behind: the
    server resets the angle of the respawned player to 0, but
    [playerRespawned] carries no angle, so another client's copy gets the
    new position and health and keeps the angle it had. *)
Theorem respawn_view_keeps_angle (sid : string) (r : Q) (g : GameState) (me : string)
  (t : Z) (st : Client.State) (p : Player.t) :
  sid <> me ->
  players_get sid (players g) = Some p ->
  Player.health p <= 0 ->
  mirrors me (players g) st ->
  let spawn := getRandomSpawn r in
  players_get sid (players (fst (on_respawn sid r g))) =
    Some (Player.mk (Player.id p) (px spawn) (pz spawn) 0 100
                    (Player.flashlightOn p) (Player.name p)) /\
  players_get sid (Client.remotePlayers (receive me t (snd (on_respawn sid r g)) st)) =
    Some (Player.mk (Player.id p) (px spawn) (pz spawn) (Player.angle p) 100
                    (Player.flashlightOn p) (Player.name p)).
Proof.
  intros Hne Hget Hdead Hm spawn. unfold mirrors in Hm. unfold on_respawn.
  rewrite Hget. apply Qle_bool_iff in Hdead. rewrite Hdead.
  cbn [fst snd players with_players receive fold_left delivered Client.on
       Client.with_remotePlayers Client.remotePlayers].
  split; [apply players_get_set_same|].
  rewrite Hm, (adjust_mirror me sid _ (players g) p Hne Hget).
  rewrite players_get_delete_other by exact Hne.
  apply players_get_set_same.
Qed.

Lemma respawn_view_keeps_angle_witness :
  players_get "b" (Client.remotePlayers
    (receive "a" 9 (snd (on_respawn "b" (5 # 8) (fst (on_move "b" 4 0 1 damage_demo))))
       (Client.with_remotePlayers
          (players_delete "a" (players (fst (on_move "b" 4 0 1 damage_demo))))
          Client.state0)))
  = Some (Player.mk "b" 10 5 1 100 true "Player2").
Proof.
  refine (proj2 (respawn_view_keeps_angle "b" (5 # 8) (fst (on_move "b" 4 0 1 damage_demo))
                   "a" 9 _ (Player.mk "b" 4 0 1 0 true "Player2") _ _ _ _)).
  - discriminate.
  - vm_compute. reflexivity.
  - vm_compute. discriminate.
  - reflexivity.
Defined.

Lemma others_from acc me ps :
  NoDup (keys acc ++ keys ps) ->
  allP (fun k p => Player.id p = k) ps ->
  fold_left
    (fun playerMap p =>
       if negb (String.eqb (Player.id p) me)
       then players_set (Player.id p) p playerMap
       else playerMap)
    (players_values ps) acc
  = (acc ++ players_delete me ps)%list.
Proof.
  revert acc. induction ps as [|[k p] ps IH]; intros acc Hnd Hid.
  - cbn. now rewrite app_nil_r.
  - inversion Hid as [|? ? Hk Hrest]; subst. cbn [fst snd] in Hk.
    cbn [players_values map snd fold_left]. rewrite Hk.
    unfold players_delete. cbn [filter fst]. rewrite (String.eqb_sym me k).
    destruct (String.eqb k me) eqn:E; cbn [negb].
    + apply IH; [|exact Hrest]. cbn [keys map fst] in Hnd.
      now apply NoDup_remove_1 in Hnd.
    + assert (Hfresh : players_get k acc = None).
      { apply players_get_None_keys. cbn [keys map fst] in Hnd.
        apply NoDup_remove_2 in Hnd. intro Hin. apply Hnd. apply in_or_app. now left. }
      rewrite (players_set_fresh _ _ _ Hfresh).
      fold (players_values ps). rewrite IH.
      * now rewrite <- app_assoc.
      * unfold keys in *. rewrite map_app, <- app_assoc. exact Hnd.
      * exact Hrest.
Qed.

(** X23.  A connection keeps every client in sync as well: a client whose
    copy mirrored the table mirrors it again after [playerJoined], and the
    newcomer, out of the [init] snapshot of a table with unique keys whose
    entries carry their key as id, builds a copy that mirrors the table and
    takes over the projectiles, the fire zones and the ring. *)
Theorem connection_keeps_views_in_sync (sid : string) (r1 r2 : Q) (g : GameState)
  (me : string) (t : Z) (st : Client.State) :
  let g' := fst (on_connection sid r1 r2 g) in
  let st' := receive me t (snd (on_connection sid r1 r2 g)) st in
  (me <> sid -> mirrors me (players g) st -> mirrors me (players g') st') /\
  (me = sid -> NoDup (keys (players g)) ->
   allP (fun k p => Player.id p = k) (players g) ->
   mirrors me (players g') st' /\
   Client.ownId st' = Some sid /\
   Client.remoteProjectiles st' = projectiles g /\
   Client.remoteFireZones st' = fireZones g /\
   Client.ringRadius st' = ringRadius g /\
   Client.ringTimer st' = ringTimer g).
Proof.
  cbn zeta. unfold on_connection, mirrors.
  cbn [fst snd players projectiles fireZones ringRadius ringTimer receive fold_left delivered].
  split.
  - intros Hne Hm.
    assert (E : String.eqb sid me = false) by (apply String.eqb_neq; congruence).
    rewrite E. cbn [negb Client.on Client.with_remotePlayers Client.remotePlayers Player.id].
    rewrite Hm. symmetry. apply delete_set_other. congruence.
  - intros -> Hnd Hid. rewrite String.eqb_refl. cbn [negb Client.on].
    cbn [Client.remotePlayers Client.ownId Client.remoteProjectiles Client.remoteFireZones
         Client.ringRadius Client.ringTimer].
    split; [|repeat split].
    unfold Client.others.
    rewrite (others_from [] sid); [reflexivity | |].
    + cbn [keys map app]. now apply players_set_NoDup.
    + apply Forall_forall. intros kq Hin. apply players_set_entry in Hin.
      destruct Hin as [Hin | ->]; [|reflexivity].
      unfold allP in Hid. rewrite Forall_forall in Hid. exact (Hid _ Hin).
Qed.

Lemma connection_keeps_views_in_sync_witness :
  mirrors "b" (players (fst (on_connection "c" (5 # 8) 0 damage_demo)))
          (receive "b" 9 (snd (on_connection "c" (5 # 8) 0 damage_demo)) view_demo) /\
  mirrors "c" (players (fst (on_connection "c" (5 # 8) 0 damage_demo)))
          (receive "c" 9 (snd (on_connection "c" (5 # 8) 0 damage_demo)) Client.state0).
Proof.
  split.
  - apply (proj1 (connection_keeps_views_in_sync "c" (5 # 8) 0 damage_demo "b" 9 view_demo));
      [discriminate | reflexivity].
  - apply (proj2 (connection_keeps_views_in_sync "c" (5 # 8) 0 damage_demo "c" 9
                    Client.state0)).
    + reflexivity.
    + repeat constructor; cbn; intuition discriminate.
    + repeat constructor.
Defined.

Lemma receive_app me t a b st :
  receive me t (a ++ b) st = receive me t b (receive me t a st).
Proof. unfold receive. apply fold_left_app. Qed.

Lemma first_hittable (pr : Projectile.t) (ps : PlayerMap) :
  Forall (fun kp => ~ hittable pr kp) ps \/
  exists l1 id p l2,
    ps = (l1 ++ (id, p) :: l2)%list /\
    Forall (fun kp => ~ hittable pr kp) l1 /\ hittable pr (id, p).
Proof.
  induction ps as [|[k p] ps IH]; [left; constructor|].
  destruct (negb (String.eqb k (Projectile.ownerId pr)) && Qlt_bool 0 (Player.health p)
            && Qlt_bool (dist (F64.sub (Projectile.x pr) (Player.x p))
                              (F64.sub (Projectile.z pr) (Player.z p)))
                       (F64.round (7 # 10))) eqn:C.
  - right. exists [], k, p, ps. split; [reflexivity|]. split; [constructor|].
    now apply hit_test_iff.
  - assert (Hn : ~ hittable pr (k, p)).
    { intro H. apply hit_test_iff in H. congruence. }
    destruct IH as [IH | (l1 & id & q & l2 & -> & Hl1 & Hq)].
    + left. now constructor.
    + right. exists ((k, p) :: l1), id, q, l2.
      split; [reflexivity|]. split; [now constructor | exact Hq].
Qed.

Lemma players_get_middle id (p : Player.t) l1 l2 :
  ~ In id (keys l1) -> players_get id (l1 ++ (id, p) :: l2) = Some p.
Proof.
  induction l1 as [|[k q] l1 IH]; cbn; intro H.
  - now rewrite String.eqb_refl.
  - destruct (String.eqb id k) eqn:E.
    + apply String.eqb_eq in E. subst k. tauto.
    + apply IH. tauto.
Qed.

Lemma players_set_middle id (p q : Player.t) l1 l2 :
  ~ In id (keys l1) ->
  players_set id q (l1 ++ (id, p) :: l2) = (l1 ++ (id, q) :: l2)%list.
Proof.
  induction l1 as [|[k r] l1 IH]; cbn; intro H.
  - now rewrite String.eqb_refl.
  - destruct (String.eqb id k) eqn:E.
    + apply String.eqb_eq in E. subst k. tauto.
    + rewrite IH; tauto.
Qed.

Lemma hitLoop_sync pr ps me t st :
  NoDup (keys ps) -> mirrors me ps st ->
  mirrors me (fst (fst (hitLoop pr ps))) (receive me t (snd (fst (hitLoop pr ps))) st).
Proof.
  intros Hnd Hm. unfold mirrors in *.
  destruct (first_hittable pr ps) as [Hnone | (l1 & id & p & l2 & E & Hl1 & Hhit)].
  - rewrite (proj1 (hitLoop_first pr ps) Hnone). exact Hm.
  - rewrite (proj2 (hitLoop_first pr ps) l1 id p l2 E Hl1 Hhit). cbn zeta.
    set (h := Player.health p - Projectile.damage pr).
    assert (Hfresh : ~ In id (keys l1)).
    { subst ps. unfold keys in Hnd. rewrite map_app in Hnd. cbn [map fst] in Hnd.
      apply NoDup_remove_2 in Hnd. intro Hin. apply Hnd. apply in_or_app. now left. }
    assert (Hget : players_get id ps = Some p) by (subst ps; now apply players_get_middle).
    assert (Eset : (l1 ++ (id, Player.with_health (clamp0 h) p) :: l2)%list
                   = players_set id (Player.with_health (clamp0 h) p) ps).
    { subst ps. symmetry. now apply players_set_middle. }
    cbn [fst snd]. rewrite Eset.
    assert (Hd : Qle_bool h 0 = true -> clamp0 h = 0)
      by (unfold clamp0; intros ->; reflexivity).
    assert (Ha : Qle_bool h 0 = false -> clamp0 h = h)
      by (unfold clamp0; intros ->; reflexivity).
    pose proof (health_report_mirror me id p ps h (clamp0 h) (Qle_bool h 0) Hget Hd Ha) as R.
    clear Hd Ha.
    destruct (Qle_bool h 0);
      cbn [receive fold_left delivered fst snd Client.on Client.with_remotePlayers
           Client.with_remoteProjectiles Client.remotePlayers];
      rewrite Hm; exact R.
Qed.

Lemma projectileLoop_sync delta prs ps me t st :
  NoDup (keys ps) -> mirrors me ps st ->
  mirrors me (snd (fst (fst (projectileLoop delta prs ps))))
          (receive me t (snd (projectileLoop delta prs ps)) st).
Proof.
  revert ps st. induction prs as [|pr rest IH]; intros ps st Hnd Hm; [exact Hm|].
  cbn [projectileLoop]. unfold stepProjectile.
  destruct (checkWallCollision _ _).
  - specialize (IH ps st Hnd Hm).
    destruct (projectileLoop delta rest ps) as [[[rest' ps2] rms] evs]. exact IH.
  - pose proof (hitLoop_sync (advance delta pr) ps me t st Hnd Hm) as H1.
    pose proof (hitLoop_keys (advance delta pr) ps) as Hk.
    destruct (hitLoop (advance delta pr) ps) as [[ps1 ev] hit]. cbn [fst snd] in H1, Hk.
    assert (Hnd1 : NoDup (keys ps1)) by congruence.
    specialize (IH ps1 (receive me t ev st) Hnd1 H1).
    destruct (projectileLoop delta rest ps1) as [[[rest' ps2] rms] evs].
    cbn [fst snd] in *. now rewrite receive_app.
Qed.

(** X24.  Projectile hits keep every client in sync too: over a table
    with unique keys, a copy that mirrored the table before the projectile
    step mirrors it after the step's messages -- the negative health a
    fatal [playerHit] carries is overwritten by the 0 of the [playerDied]
    that follows it. *)
Theorem hits_keep_views_in_sync (delta : Q) (g : GameState) (me : string) (t : Z)
  (st : Client.State) :
  NoDup (keys (players g)) ->
  mirrors me (players g) st ->
  mirrors me (players (fst (projectileStep delta g)))
          (receive me t (snd (projectileStep delta g)) st).
Proof.
  intros Hnd Hm.
  pose proof (projectileLoop_sync delta (projectiles g) (players g) me t st Hnd Hm) as H.
  unfold projectileStep.
  destruct (projectileLoop delta (projectiles g) (players g)) as [[[prs ps] rms] evs].
  cbn [fst snd] in H. destruct rms; cbn [fst snd players]; [exact H|].
  rewrite receive_app. unfold mirrors in *.
  cbn [receive fold_left delivered fst snd Client.on Client.with_remoteProjectiles
       Client.remotePlayers]. exact H.
Qed.

Lemma hits_keep_views_in_sync_witness :
  mirrors "b" (players (fst (projectileStep (1 # 10) duel_demo)))
          (receive "b" 9 (snd (projectileStep (1 # 10) duel_demo)) view_demo) /\
  players_get "a" (players (fst (projectileStep (1 # 10) duel_demo)))
  = Some (Player.mk "a" 0 0 0 0 true "Player1").
Proof.
  split; [|vm_compute; reflexivity].
  apply hits_keep_views_in_sync; [|reflexivity].
  repeat constructor; cbn; intuition discriminate.
Defined.

(** ** What the clients do not see *)

Lemma ringLoop_messages delta radius ps m :
  In m (snd (ringLoop delta radius ps)) ->
  (exists id, m = (ToAll, Event.playerDied id (Some "ring"%string))) \/
  (exists id h, m = (ToRoom id, Event.ringDamage h)).
Proof.
  induction ps as [|[k p] ps IH]; [contradiction|]. cbn [ringLoop].
  assert (Hp : In m (snd (ringPlayer delta radius k p)) ->
               (exists id, m = (ToAll, Event.playerDied id (Some "ring"%string))) \/
               (exists id h, m = (ToRoom id, Event.ringDamage h))).
  { unfold ringPlayer. destruct (Qlt_bool 0 (Player.health p)); [|contradiction].
    destruct (Qlt_bool radius _); [|contradiction].
    destruct (Qle_bool _ 0); cbn [snd In]; intros [<- | []]; eauto. }
  destruct (ringPlayer delta radius k p) as [p' ev].
  destruct (ringLoop delta radius ps) as [rest' evs]. cbn [snd] in *.
  intro H. apply in_app_or in H. tauto.
Qed.

Lemma burnLoop_messages delta fire ps m :
  In m (snd (burnLoop delta fire ps)) ->
  (exists id, m = (ToAll, Event.playerDied id (Some "fire"%string))) \/
  (exists id h, m = (ToRoom id, Event.fireDamage h)).
Proof.
  induction ps as [|[k p] ps IH]; [contradiction|]. cbn [burnLoop].
  assert (Hp : In m (snd (burnPlayer delta fire k p)) ->
               (exists id, m = (ToAll, Event.playerDied id (Some "fire"%string))) \/
               (exists id h, m = (ToRoom id, Event.fireDamage h))).
  { unfold burnPlayer. destruct (Qlt_bool 0 (Player.health p)); [|contradiction].
    destruct (Qlt_bool _ (FireZone.radius fire)); [|contradiction].
    destruct (Qle_bool _ 0); cbn [snd In]; [intros [<- | [<- | []]] | intros [<- | []]];
      eauto. }
  destruct (burnPlayer delta fire k p) as [p' ev].
  destruct (burnLoop delta fire ps) as [rest' evs]. cbn [snd] in *.
  intro H. apply in_app_or in H. tauto.
Qed.

Lemma receive_damage_notes me t msgs st :
  (forall m, In m msgs ->
             exists id h, m = (ToRoom id, Event.ringDamage h) \/
                          m = (ToRoom id, Event.fireDamage h)) ->
  receive me t msgs st = st.
Proof.
  revert st. induction msgs as [|m msgs IH]; intros st H; [reflexivity|].
  unfold receive. cbn [fold_left]. fold (receive me t msgs).
  destruct (H m (or_introl eq_refl)) as (id & h & [-> | ->]);
    cbn [delivered fst snd Client.on]; destruct (String.eqb id me);
    apply IH; intros m' Hin; apply H; now right.
Qed.

(** X25.  Damage that does not kill stays invisible: when the ring loop,
    or the burn loop of a fire zone, kills nobody, its messages change no
    client's state at all -- not the victims' either, whose hook only
    forwards the note -- although the server has lowered the health of
    every player it damaged. *)
Theorem nonfatal_zone_damage_unseen (delta : Q) (ps : PlayerMap) (me : string) (t : Z)
  (st : Client.State) :
  (forall radius,
     (forall id k, ~ In (ToAll, Event.playerDied id k) (snd (ringLoop delta radius ps))) ->
     receive me t (snd (ringLoop delta radius ps)) st = st) /\
  (forall fire,
     (forall id k, ~ In (ToAll, Event.playerDied id k) (snd (burnLoop delta fire ps))) ->
     receive me t (snd (burnLoop delta fire ps)) st = st).
Proof.
  split.
  - intros radius Hno. apply receive_damage_notes. intros m Hin.
    destruct (ringLoop_messages _ _ _ _ Hin) as [[id ->] | (id & h & ->)].
    + exfalso. exact (Hno _ _ Hin).
    + eauto.
  - intros fire Hno. apply receive_damage_notes. intros m Hin.
    destruct (burnLoop_messages _ _ _ _ Hin) as [[id ->] | (id & h & ->)].
    + exfalso. exact (Hno _ _ Hin).
    + eauto.
Qed.

Lemma nonfatal_zone_damage_unseen_witness :
  receive "b" 9 (snd (ringLoop 1 2 [ ("a"%string, Player.mk "a" 10 5 0 100 true "Player0") ]))
          view_demo = view_demo /\
  snd (ringLoop 1 2 [ ("a"%string, Player.mk "a" 10 5 0 100 true "Player0") ])
  = [ (ToRoom "a"%string, Event.ringDamage (100 - 5 * 1)) ].
Proof.
  split; [|reflexivity].
  apply (proj1 (nonfatal_zone_damage_unseen 1
                  [ ("a"%string, Player.mk "a" 10 5 0 100 true "Player0") ] "b" 9 view_demo)).
  intros id k H. vm_compute in H. destruct H as [H | []]. discriminate.
Defined.

(** ** The chat history *)

Lemma last50_spec {A : Type} (l : list A) :
  exists dropped,
    l = (dropped ++ Client.last50 l)%list /\
    List.length (Client.last50 l) = Nat.min (List.length l) 50.
Proof.
  unfold Client.last50. exists (firstn (List.length l - 50) l).
  split; [symmetry; apply firstn_skipn|]. rewrite length_skipn. lia.
Qed.

(** X26.  The chat history is bounded: after a [chatMessage] the client
    holds the new message, stamped with the time of arrival, in last
    place, behind the last [min 50 n] of the [n] messages it held, in
    their order -- so never more than 51. *)
Theorem chat_history_bounded (me : string) (t : Z) (playerId playerName message : string)
  (st : Client.State) :
  let st' := Client.on me t (Event.chatMessage playerId playerName message) st in
  exists dropped kept,
    Client.chatMessages st = (dropped ++ kept)%list /\
    Client.chatMessages st' =
      (kept ++ [ Client.mkChatMessage playerId playerName message t ])%list /\
    List.length kept = Nat.min (List.length (Client.chatMessages st)) 50 /\
    (List.length (Client.chatMessages st') <= 51)%nat /\
    Client.remotePlayers st' = Client.remotePlayers st.
Proof.
  cbn zeta. destruct (last50_spec (Client.chatMessages st)) as (dropped & E & L).
  exists dropped, (Client.last50 (Client.chatMessages st)).
  cbn [Client.on Client.chatMessages Client.remotePlayers].
  split; [exact E|]. split; [reflexivity|]. split; [exact L|]. split; [|reflexivity].
  rewrite length_app, L. cbn. lia.
Qed.

(** ** Fire zones on the client *)

Lemma receive_keeps_zones me t msgs st :
  Forall notAboutZones msgs ->
  Client.remoteFireZones (receive me t msgs st) = Client.remoteFireZones st.
Proof.
  revert st. induction msgs as [|m msgs IH]; intros st H; [reflexivity|].
  inversion H as [|? ? Hm Hrest]; subst.
  change (receive me t (m :: msgs) st)
    with (receive me t msgs (if delivered me m then Client.on me t (snd m) st else st)).
  rewrite (IH _ Hrest).
  destruct (delivered me m); [|reflexivity].
  destruct m as [d ev]. unfold notAboutZones in Hm. cbn [snd] in *.
  destruct ev; try contradiction; cbn [Client.on]; try reflexivity.
  destruct (negb (String.eqb ownerId me)); reflexivity.
Qed.

Lemma fireLoop_messages delta fires ps :
  Forall notAboutZones (snd (fireLoop delta fires ps)).
Proof.
  revert ps. induction fires as [|fire rest IH]; intro ps; [constructor|].
  cbn [fireLoop]. destruct (Qle_bool (FireZone.timeLeft (age fire)) 0).
  - specialize (IH ps).
    destruct (fireLoop delta rest ps) as [[[rest' ps2] rms] evs]. exact IH.
  - assert (Hb : Forall notAboutZones (snd (burnLoop delta (age fire) ps))).
    { apply Forall_forall. intros m Hin.
      destruct (burnLoop_messages _ _ _ _ Hin) as [[id ->] | (id & h & ->)]; exact I. }
    destruct (burnLoop delta (age fire) ps) as [ps1 ev]. cbn [snd] in Hb.
    specialize (IH ps1).
    destruct (fireLoop delta rest ps1) as [[[rest' ps2] rms] evs].
    cbn [snd] in *. apply Forall_app. split; assumption.
Qed.

Lemma filter_ids_mirror (ids : list string) (l1 l2 : list FireZone.t) :
  map FireZone.id l1 = map FireZone.id l2 ->
  map FireZone.id (filter (fun f => negb (includes ids (FireZone.id f))) l1)
  = map FireZone.id (filter (fun f => negb (includes ids (FireZone.id f))) l2).
Proof.
  revert l2. induction l1 as [|a l1 IH]; intros [|b l2] E; try discriminate; [reflexivity|].
  cbn [map] in E. injection E as Ea E. cbn [filter]. rewrite Ea.
  destruct (negb (includes ids (FireZone.id b))); cbn [map]; rewrite ?Ea; now rewrite (IH l2 E).
Qed.

(** X27.  Every client knows the fire zones of the world by id: if the
    ids of its zones are those of the server's, in order, they still are
    after a molotov command (accepted or dropped) and after the fire step
    of a tick, once the client has handled the messages that reach it.
    (The client does not age its zones: only the ids correspond.) *)
Theorem fire_zone_ids_in_sync (g : GameState) (me : string) (tc : Z) (st : Client.State) :
  zonesMirror g st ->
  (forall sid t x z radius,
     zonesMirror (fst (on_molotov sid t x z radius g))
                 (receive me tc (snd (on_molotov sid t x z radius g)) st)) /\
  (forall delta,
     zonesMirror (fst (fireStep delta g)) (receive me tc (snd (fireStep delta g)) st)).
Proof.
  intro Hm. unfold zonesMirror in *. split.
  - intros sid t x z radius. unfold on_molotov.
    destruct (players_get sid (players g)) as [p|]; [|exact Hm].
    destruct (Qle_bool (Player.health p) 0); [exact Hm|].
    cbn [fst snd fireZones receive fold_left delivered Client.on Client.with_remoteFireZones
         Client.remoteFireZones].
    now rewrite !map_app, Hm.
  - intro delta. rewrite fireStep_fireZones. unfold fireStep.
    pose proof (fireLoop_messages delta (fireZones g) (players g)) as Hq.
    pose proof (fireLoop_removed delta (fireZones g) (players g)) as Hr.
    destruct (fireLoop delta (fireZones g) (players g)) as [[[fires ps] rms] evs].
    cbn [fst snd] in *. subst rms.
    destruct (burntOut (fireZones g)) as [|r rms] eqn:Eb; cbn [snd].
    + rewrite (receive_keeps_zones me tc evs st Hq), Hm.
      rewrite filter_all by reflexivity. now rewrite map_map.
    + rewrite receive_app.
      cbn [receive fold_left delivered fst snd Client.on Client.with_remoteFireZones
           Client.remoteFireZones].
      apply filter_ids_mirror.
      rewrite (receive_keeps_zones me tc evs st Hq), Hm. now rewrite map_map.
Qed.

Lemma fire_zone_ids_in_sync_witness :
  zonesMirror (fst (fireStep (1 # 10) (gameState molotov_demo)))
              (receive "b" 9 (snd (fireStep (1 # 10) (gameState molotov_demo)))
                       zones_view_demo).
Proof.
  apply (proj2 (fire_zone_ids_in_sync (gameState molotov_demo) "b" 9 zones_view_demo
                  eq_refl)).
Defined.

(** ** Projectiles on the client *)

Lemma map_filter_ids (f : string -> bool) (l : list Projectile.t) :
  map Projectile.id (filter (fun p => f (Projectile.id p)) l) = filter f (map Projectile.id l).
Proof.
  induction l as [|a l IH]; [reflexivity|]. cbn [filter map].
  destruct (f (Projectile.id a)); cbn [map]; now rewrite IH.
Qed.

Lemma filter_filter_incl {A : Type} (f h : A -> bool) (l : list A) :
  (forall x, f x = true -> h x = true) -> filter f (filter h l) = filter f l.
Proof.
  intro H. induction l as [|a l IH]; [reflexivity|]. cbn [filter].
  destruct (h a) eqn:Eh; cbn [filter].
  - now rewrite IH.
  - destruct (f a) eqn:Ef; [|exact IH]. rewrite (H a Ef) in Eh. discriminate.
Qed.

Lemma filter_none {A : Type} (f : A -> bool) (l : list A) :
  (forall x, In x l -> f x = false) -> filter f l = [].
Proof.
  induction l as [|a l IH]; intro H; [reflexivity|]. cbn.
  rewrite (H a (or_introl eq_refl)). apply IH. intros x Hx. apply H. now right.
Qed.

Lemma filter_swap {A : Type} (f h : A -> bool) (l : list A) :
  filter f (filter h l) = filter h (filter f l).
Proof.
  induction l as [|a l IH]; [reflexivity|]. cbn [filter].
  destruct (h a) eqn:Eh; destruct (f a) eqn:Ef; cbn [filter]; rewrite ?Eh, ?Ef, IH;
    reflexivity.
Qed.

Lemma others_advance me delta (l : list Projectile.t) :
  map Projectile.id
      (filter (fun p => negb (String.eqb (Projectile.ownerId p) me)) (map (advance delta) l))
  = map Projectile.id (filter (fun p => negb (String.eqb (Projectile.ownerId p) me)) l).
Proof.
  induction l as [|a l IH]; [reflexivity|]. cbn [map filter advance Projectile.ownerId].
  destruct (negb (String.eqb (Projectile.ownerId a) me)); cbn [map]; now rewrite IH.
Qed.

Lemma receive_hits me t msgs st :
  Forall hitOrDied msgs ->
  Client.remoteProjectiles (receive me t msgs st) =
  filter (fun p => negb (includes (hitIds msgs) (Projectile.id p)))
         (Client.remoteProjectiles st).
Proof.
  revert st. induction msgs as [|m msgs IH]; intros st H.
  - cbn. symmetry. apply filter_all. reflexivity.
  - inversion H as [|? ? Hm Hrest]; subst.
    change (receive me t (m :: msgs) st)
      with (receive me t msgs (if delivered me m then Client.on me t (snd m) st else st)).
    rewrite (IH _ Hrest).
    destruct m as [[ | | | ] ev]; try contradiction.
    destruct ev; try contradiction;
      cbn [delivered fst snd Client.on Client.with_remotePlayers Client.with_remoteProjectiles
           Client.remoteProjectiles hitIds].
    + reflexivity.
    + induction (Client.remoteProjectiles st) as [|a l IHl]; [reflexivity|].
      cbn [filter includes existsb].
      destruct (String.eqb (Projectile.id a) projectileId); cbn [negb orb filter].
      * exact IHl.
      * unfold includes in *. destruct (existsb _ (hitIds msgs)); cbn [negb filter];
          now rewrite IHl.
Qed.

Lemma hitLoop_hits pr ps :
  Forall hitOrDied (snd (fst (hitLoop pr ps))) /\
  (forall id, In id (hitIds (snd (fst (hitLoop pr ps)))) ->
              id = Projectile.id pr /\ snd (hitLoop pr ps) = true).
Proof.
  induction ps as [|[k p] ps IH]; [split; [constructor | contradiction]|].
  cbn [hitLoop].
  destruct (negb (String.eqb k (Projectile.ownerId pr)) && Qlt_bool 0 (Player.health p)
            && Qlt_bool _ (F64.round (7 # 10))).
  - destruct (Qle_bool _ 0); cbn [fst snd hitIds]; (split; [repeat constructor|]);
      intros id [<- | []]; now split.
  - destruct (hitLoop pr ps) as [[rest' evs] b]. exact IH.
Qed.

Lemma projectileLoop_hits delta prs ps :
  Forall hitOrDied (snd (projectileLoop delta prs ps)) /\
  incl (hitIds (snd (projectileLoop delta prs ps))) (snd (fst (projectileLoop delta prs ps))).
Proof.
  revert ps. induction prs as [|pr rest IH]; intro ps;
    [split; [constructor | intros x []]|].
  cbn [projectileLoop]. unfold stepProjectile.
  destruct (checkWallCollision _ _).
  - destruct (IH ps) as [H1 H2].
    destruct (projectileLoop delta rest ps) as [[[rest' ps2] rms] evs].
    cbn [fst snd app] in *. split; [exact H1|]. intros x Hx. right. now apply H2.
  - destruct (hitLoop_hits (advance delta pr) ps) as [Ha Hb].
    destruct (hitLoop (advance delta pr) ps) as [[ps1 ev] hit]. cbn [fst snd] in Ha, Hb.
    destruct (IH ps1) as [H1 H2].
    destruct (projectileLoop delta rest ps1) as [[[rest' ps2] rms] evs].
    cbn [fst snd] in *. split; [apply Forall_app; now split|].
    assert (Happ : forall a b, hitIds (a ++ b) = (hitIds a ++ hitIds b)%list).
    { intros a b. induction a as [|[d e] a IHa]; [reflexivity|].
      cbn [app hitIds]. destruct e; cbn [app]; now rewrite ?IHa. }
    rewrite Happ. intros x Hx. apply in_app_or in Hx. destruct Hx as [Hx | Hx].
    + destruct (Hb x Hx) as [-> ->]. apply in_or_app. left. apply in_or_app. left. now left.
    + apply in_or_app. right. now apply H2.
Qed.

(** X28.  Every client knows the projectiles of the other players by id:
    if the ids of its projectiles are those of the server's projectiles
    not owned by the client, in order, they still are after a shoot command
    of anybody and after the projectile step of a tick, once the client has
    handled the messages that reach it. *)
Theorem projectile_ids_in_sync (g : GameState) (me : string) (tc : Z) (st : Client.State) :
  projectilesMirror me g st ->
  (forall sid t shots,
     projectilesMirror me (fst (on_shoot sid t shots g))
                       (receive me tc (snd (on_shoot sid t shots g)) st)) /\
  (forall delta,
     projectilesMirror me (fst (projectileStep delta g))
                       (receive me tc (snd (projectileStep delta g)) st)).
Proof.
  intro Hm. unfold projectilesMirror in *. split.
  - intros sid t shots. unfold on_shoot.
    destruct (players_get sid (players g)) as [p|]; [|exact Hm].
    destruct (Qle_bool (Player.health p) 0); [exact Hm|].
    cbn [fst snd projectiles receive fold_left delivered Client.on].
    rewrite filter_app, map_app, <- Hm.
    pose proof (stamp_owner sid t 0 shots) as Ho. rewrite Forall_forall in Ho.
    destruct (String.eqb sid me) eqn:E; cbn [negb Client.with_remoteProjectiles
                                              Client.remoteProjectiles].
    + rewrite filter_none; [now rewrite app_nil_r|].
      intros x Hx. rewrite (Ho x Hx), E. reflexivity.
    + rewrite map_app. f_equal. f_equal. symmetry. apply filter_all.
      intros x Hx. rewrite (Ho x Hx), E. reflexivity.
  - intro delta. unfold projectileStep.
    pose proof (projectileLoop_projectiles delta (projectiles g) (players g)) as Hp.
    destruct (projectileLoop_hits delta (projectiles g) (players g)) as [Hh Hi].
    destruct (projectileLoop delta (projectiles g) (players g)) as [[[prs ps] rms] evs].
    cbn [fst snd] in *. subst prs.
    destruct rms as [|r rms]; cbn [fst snd projectiles].
    + rewrite (receive_hits me tc evs st Hh).
      assert (Hnil : hitIds evs = []).
      { destruct (hitIds evs) as [|x l]; [reflexivity|]. destruct (Hi x (or_introl eq_refl)). }
      rewrite Hnil, filter_all by reflexivity. rewrite Hm. symmetry. apply others_advance.
    + rewrite receive_app.
      cbn [receive fold_left delivered fst snd Client.on Client.with_remoteProjectiles
           Client.remoteProjectiles].
      rewrite (receive_hits me tc evs st Hh).
      rewrite filter_filter_incl.
      2:{ intros x Hx. apply negb_true_iff in Hx. apply negb_true_iff.
          destruct (includes (hitIds evs) (Projectile.id x)) eqn:Ei; [|reflexivity].
          apply includes_In in Ei. apply Hi in Ei. apply includes_In in Ei. congruence. }
      rewrite filter_swap.
      rewrite (map_filter_ids (fun id => negb (includes (r :: rms) id))), Hm.
      rewrite (map_filter_ids (fun id => negb (includes (r :: rms) id))).
      f_equal. symmetry. apply others_advance.
Qed.

Lemma projectile_ids_in_sync_witness :
  projectilesMirror "a" (fst (projectileStep (1 # 10) duel_demo))
                    (receive "a" 9 (snd (projectileStep (1 # 10) duel_demo))
                             projectiles_view_demo).
Proof.
  apply (proj2 (projectile_ids_in_sync duel_demo "a" 9 projectiles_view_demo eq_refl)).
Defined.
